(** * SmallVector: a shallow embedding of [vec.hpp] and its properties

    The container of [vec.hpp] keeps up to [STATIC_AMOUNT] elements in an
    inline byte buffer [arr_] and moves them into a heap [std::vector] the
    first time more room is needed.  This development embeds the class as
    state-passing functions over a record with the three data members of
    the class, and proves properties of its public operations.

    The embedding follows the most recent revision of the header, the one
    with [calculate_static_size], [swap] and a destructor that clears.  The
    repository also keeps an older revision; where it differs in a function
    studied below, the older function is embedded as well, under a name
    ending in [_old].

    Conventions of the embedding.
    - An inline slot is an [option T]: [Some v] is a live object holding
      [v], [None] is raw storage (never constructed, or destructed).
    - [size_t] values that count or index elements are [nat]; the modelled
      containers hold fewer than 2^64 elements, so an addition such as
      [size_ + 1] never wraps, while a subtraction is [size_t_sub], the
      difference modulo 2^64.  The arithmetic of [calculate_static_size],
      which is evaluated on arbitrary sizes, is modelled on [Z] with its
      wrap-around.
    - An iterator is the offset of the pointer from [begin()].  Where a
      function keeps a pointer into the storage while it changes the
      container, the pointer is the offset together with the buffer it
      points into, and it dangles once that buffer has been given up.
    - A parameter of type [const T&], [T&&] or [Args&&...] is a [ref]: it
      names an object outside the container or an element of the container
      itself, and an element is read at the point where the code reads it.
    - Constructor and destructor calls are recorded in a trace of lifetime
      events, which is what a counting element type observes.  A place in
      an event is relative to the object whose member function runs.
    - Undefined behaviour (reading raw storage or through a dangling
      pointer, writing past the buffer, dereferencing an empty optional,
      ...) and failed assertions end the run with [Fault]; allocation is
      assumed to succeed. *)

From Stdlib Require Import ZArith.
From stdpp Require Import base list gmap.

(** ** Compile-time inline capacity *)

Module StaticSize.
Local Open Scope Z_scope.

Definition CACHE_LINE_SIZE_BYTES : Z := 64.
Definition MAX_SIZE_BYTES : Z := 10240.
Definition FALLBACK_SIZE : Z := 8.

(** Multiplication of two [size_t] values (64 bits, modular). *)
Definition size_t_mul (a b : Z) : Z := (a * b) mod 2 ^ 64.

(** [calculate_static_size(size_of_t)].  The function is [consteval]: a
    division by zero is not a constant expression, so the program is
    rejected ([None]). *)
Definition calculate_static_size (size_of_t : Z) : option Z :=
  if size_of_t =? 0 then None
  else if size_of_t <=? CACHE_LINE_SIZE_BYTES then
    Some (CACHE_LINE_SIZE_BYTES / size_of_t)
  else if size_t_mul FALLBACK_SIZE size_of_t <=? MAX_SIZE_BYTES then
    Some FALLBACK_SIZE
  else
    let divided_size := MAX_SIZE_BYTES / size_of_t in
    Some (if divided_size =? 0 then 1 else divided_size).

End StaticSize.

(** ** Lifetime events *)

(** Where an object lives. *)
Inductive place : Type :=
| Inline (i : nat)   (* slot [i] of [arr_] *)
| Heap               (* an element of the heap vector *)
| Temp               (* a temporary of the running member function *)
| Caller.            (* an object owned by the caller *)

Inductive event : Type :=
| Construct (dst : place)              (* T(args...) *)
| CopyConstruct (dst src : place)      (* T(const T&) *)
| MoveConstruct (dst src : place)      (* T(T&&) *)
| Destruct (p : place).                (* ~T() *)

(** How a new element is produced. *)
Inductive source : Type :=
| FromArgs                   (* built in place from constructor arguments *)
| ByCopy (src : place)
| ByMove (src : place).

Definition construct_event (how : source) (dst : place) : event :=
  match how with
  | FromArgs => Construct dst
  | ByCopy src => CopyConstruct dst src
  | ByMove src => MoveConstruct dst src
  end.

Definition is_construction (e : event) : bool :=
  match e with Destruct _ => false | _ => true end.

Definition is_destruction (e : event) : bool :=
  match e with Destruct _ => true | _ => false end.

(** The four static counters of the [Tracker] element type of the tests. *)
Definition count_events (p : event → bool) (tr : list event) : nat :=
  length (List.filter p tr).

Definition constructor_count : list event → nat :=
  count_events (λ e, match e with Construct _ => true | _ => false end).
Definition copy_count : list event → nat :=
  count_events (λ e, match e with CopyConstruct _ _ => true | _ => false end).
Definition move_count : list event → nat :=
  count_events (λ e, match e with MoveConstruct _ _ => true | _ => false end).
Definition destructor_count : list event → nat :=
  count_events is_destruction.

(** All constructions, of any kind. *)
Definition constructions (tr : list event) : nat :=
  constructor_count tr + copy_count tr + move_count tr.

(** The inline slots an event reads, writes or destructs. *)
Definition place_slot (p : place) : list nat :=
  match p with Inline i => [i] | _ => [] end.

Definition slots_read (e : event) : list nat :=
  match e with
  | CopyConstruct _ src | MoveConstruct _ src => place_slot src
  | _ => []
  end.

Definition slots_destructed (e : event) : list nat :=
  match e with Destruct p => place_slot p | _ => [] end.

(** ** Outcomes and the state monad of member functions *)

Inductive exception : Type := out_of_range | length_error.
Inductive fault : Type := undefined_behaviour | assertion_failure.

Inductive outcome (S A : Type) : Type :=
| Done (a : A) (s : S)            (* normal return *)
| Throw (e : exception) (s : S)   (* an exception leaves the function *)
| Fault (f : fault).              (* no defined state afterwards *)
Arguments Done {S A} a s.
Arguments Throw {S A} e s.
Arguments Fault {S A} f.

(** The machine: the object(s) a function works on and the events so far. *)
Record machine (X : Type) : Type := Machine { obj : X; trace : list event }.
Arguments Machine {X} obj trace.
Arguments obj {X} m.
Arguments trace {X} m.

Definition M (X A : Type) : Type := machine X → outcome (machine X) A.

Definition ret {X A} (a : A) : M X A := λ s, Done a s.

Definition bind {X A B} (m : M X A) (k : A → M X B) : M X B :=
  λ s, match m s with
       | Done a s' => k a s'
       | Throw e s' => Throw e s'
       | Fault f => Fault f
       end.

Declare Scope cxx_scope.
Delimit Scope cxx_scope with cxx.
Notation "'let*' x ':=' m 'in' k" := (bind m (λ x, k))
  (at level 10, x name, m at level 100, k at level 200) : cxx_scope.
Notation "m ';;' k" := (bind m (λ _, k))
  (at level 100, k at level 200, right associativity) : cxx_scope.
Local Open Scope cxx_scope.

Definition get {X} : M X X := λ s, Done (obj s) s.
Definition put {X} (x : X) : M X unit := λ s, Done tt (Machine x (trace s)).
Definition log {X} (evs : list event) : M X unit :=
  λ s, Done tt (Machine (obj s) (trace s ++ evs)).
Definition throw {X A} (e : exception) : M X A := λ s, Throw e s.
Definition undefined {X A} : M X A := λ _, Fault undefined_behaviour.
Definition assert {X} (b : bool) : M X unit :=
  if b then ret tt else λ _, Fault assertion_failure.

(** [for (i = lo; i < lo + n; ++i) body(i)]. *)
Fixpoint for_up {X} (lo n : nat) (body : nat → M X unit) : M X unit :=
  match n with
  | 0 => ret tt
  | S n' => body lo ;; for_up (S lo) n' body
  end.

(** [for (i = lo + n; i > lo; --i) body(i)]. *)
Fixpoint for_down {X} (lo n : nat) (body : nat → M X unit) : M X unit :=
  match n with
  | 0 => ret tt
  | S n' => body (lo + S n') ;; for_down lo n' body
  end.

Definition gets {X A} (f : X → A) : M X A := λ s, Done (f (obj s)) s.

(** ** [size_t] subtraction *)

(** [a - b] on [size_t], for operands below 2^64: the difference modulo
    2^64. *)
Definition size_t_sub (a b : nat) : nat :=
  if b <=? a then a - b else a + (2 ^ 64 - b).
Arguments size_t_sub : simpl never.

(** ** The heap buffer: [std::vector<T>]

    The element sequence and the capacity.  Growth doubles the capacity and
    [shrink_to_fit] trims it (libstdc++); the properties below do not
    depend on that choice, and the scenarios that need a spilled container
    with little capacity get it from [shrink_to_fit].  An operation
    returns its result, the vector and the events it causes, or it throws
    and leaves the vector as it was, or a precondition of the standard
    container is violated (undefined behaviour).  [reserve] throws
    [std::length_error] for a request above [max_size()]; a vector of
    [max_size()] elements does not fit into the address space, so the
    growth of [push_back], [insert] and [emplace] never meets that
    limit. *)

Record vector (T : Type) : Type := Vector { elems : list T; vcapacity : nat }.
Arguments Vector {T} elems vcapacity.
Arguments elems {T} v.
Arguments vcapacity {T} v.

(** Moving [k] elements to a new allocation. *)
Definition relocate (k : nat) : list event :=
  replicate k (MoveConstruct Heap Heap) ++ replicate k (Destruct Heap).

Inductive vec_result (T A : Type) : Type :=
| VReturn (a : A) (v : vector T) (evs : list event)
| VThrow (e : exception)
| VUndefined.
Arguments VReturn {T A} a v evs.
Arguments VThrow {T A} e.
Arguments VUndefined {T A}.

Definition vec_op (T A : Type) : Type := vector T → vec_result T A.

(** [reserve(n)], for a vector whose [max_size()] is [vmax]: the request is
    compared with [max_size()] before anything is allocated or moved. *)
Definition vec_reserve {T} (vmax : N) (n : nat) : vec_op T unit := λ v,
  if (vmax <? N.of_nat n)%N then VThrow length_error
  else if vcapacity v <? n
  then VReturn tt (Vector (elems v) n) (relocate (length (elems v)))
  else VReturn tt v [].

Definition vec_push_back {T} (how : source) (x : T) : vec_op T unit := λ v,
  let n := length (elems v) in
  if n <? vcapacity v
  then VReturn tt (Vector (elems v ++ [x]) (vcapacity v))
         [construct_event how Heap]
  else VReturn tt (Vector (elems v ++ [x]) (n + max n 1))
         (construct_event how Heap :: relocate n).

(** The events of an insertion before the end of a vector with spare
    capacity (libstdc++): the last element is move-constructed one place
    up and the others are move-assigned.  An rvalue is then move-assigned
    to its place; anything else is first built in a temporary, so that an
    argument that names an element of the vector is read before the
    elements move. *)
Definition vec_insert_events (how : source) : list event :=
  match how with
  | FromArgs => [Construct Temp; MoveConstruct Heap Heap; Destruct Temp]
  | ByCopy src =>
      [CopyConstruct Temp src; MoveConstruct Heap Heap; Destruct Temp]
  | ByMove _ => [MoveConstruct Heap Heap]
  end.

(** [insert(begin() + idx, x)] and [emplace(begin() + idx, args...)];
    returns the offset of the new element. *)
Definition vec_insert {T} (idx : nat) (how : source) (x : T) : vec_op T nat :=
  λ v,
  let n := length (elems v) in
  if n <? idx then VUndefined
  else
    let l := take idx (elems v) ++ x :: drop idx (elems v) in
    if n <? vcapacity v then
      VReturn idx (Vector l (vcapacity v))
        (if idx =? n then [construct_event how Heap]
         else vec_insert_events how)
    else VReturn idx (Vector l (n + max n 1))
           (construct_event how Heap :: relocate n).

(** [erase(begin() + idx)]; returns the offset of the following element. *)
Definition vec_erase {T} (idx : nat) : vec_op T nat := λ v,
  if idx <? length (elems v)
  then VReturn idx (Vector (delete idx (elems v)) (vcapacity v)) [Destruct Heap]
  else VUndefined.

(** [erase(begin() + first, begin() + last)]. *)
Definition vec_erase_range {T} (first last : nat) : vec_op T nat := λ v,
  if (first <=? last) && (last <=? length (elems v))
  then VReturn first
         (Vector (take first (elems v) ++ drop last (elems v)) (vcapacity v))
         (replicate (last - first) (Destruct Heap))
  else VUndefined.

Definition vec_clear {T} : vec_op T unit := λ v,
  VReturn tt (Vector [] (vcapacity v))
    (replicate (length (elems v)) (Destruct Heap)).

Definition vec_shrink_to_fit {T} : vec_op T unit := λ v,
  let n := length (elems v) in
  if n =? vcapacity v then VReturn tt v []
  else VReturn tt (Vector (elems v) n) (relocate n).

(** The events of [std::optional<std::vector<T>>::operator=(const&)]
    (libstdc++): a disengaged target copy-constructs the vector, an engaged
    one is reset by a disengaged source and otherwise assigns, reusing its
    allocation when the capacity suffices. *)
Definition optional_vec_assign_events {T}
    (target source : option (vector T)) : list event :=
  match target, source with
  | None, None => []
  | None, Some v => replicate (length (elems v)) (CopyConstruct Heap Heap)
  | Some u, None => replicate (length (elems u)) (Destruct Heap)
  | Some u, Some v =>
      let n := length (elems u) in
      let m := length (elems v) in
      if vcapacity u <? m then
        replicate m (CopyConstruct Heap Heap) ++ replicate n (Destruct Heap)
      else if m <=? n then replicate (n - m) (Destruct Heap)
      else replicate (m - n) (CopyConstruct Heap Heap)
  end.

(** The optional after that assignment. *)
Definition optional_vec_assign {T}
    (target source : option (vector T)) : option (vector T) :=
  match target, source with
  | _, None => None
  | None, Some v => Some (Vector (elems v) (length (elems v)))
  | Some u, Some v =>
      Some (Vector (elems v)
              (if vcapacity u <? length (elems v) then length (elems v)
               else vcapacity u))
  end.

(** ** The element type and the container *)

(** What the container uses of its element type [T]. *)
Class ElemType (T : Type) : Type := {
  T_default : T;           (* the value of [T()] *)
  moved_from : T → T;      (* what a move leaves behind in its source *)
  T_eqb : T → T → bool;    (* [operator==] of [T] *)
  T_max : N;               (* [std::numeric_limits<T>::max()] as a [size_t] *)
  vector_max_size : N;     (* [std::vector<T>::max_size()] *)
}.

(** What a parameter of type [const T&], [T&&] or [Args&&...] is bound to
    in a call. *)
Inductive ref (T : Type) : Type :=
| Outside (v : T)     (* an object that is no element of the container and
                         holds [v]; for [Args&&...], arguments from which
                         [T(args...)] builds [v] *)
| Element (i : nat).  (* the element at [begin() + i] of the container *)
Arguments Outside {T} v.
Arguments Element {T} i.

(** The storage that [begin()] points into: the inline buffer, or the
    buffer of the vector.  A [std::vector] takes a new buffer exactly when
    its capacity changes, and within one call of a member function below
    its capacity only grows, so for the time of a call the capacity names
    the buffer. *)
Inductive buffer : Type := InlineBuffer | HeapBuffer (cap : nat).

Definition buffer_eqb (a b : buffer) : bool :=
  match a, b with
  | InlineBuffer, InlineBuffer => true
  | HeapBuffer c, HeapBuffer d => c =? d
  | _, _ => false
  end.

(** The data members of [SmallVector<T, STATIC_AMOUNT>]. *)
Record SmallVector (T : Type) (STATIC_AMOUNT : nat) : Type := SV {
  arr_ : list (option T);
  vec_ : option (vector T);
  size_ : nat;
}.
Arguments SV {T STATIC_AMOUNT} arr_ vec_ size_.
Arguments arr_ {T STATIC_AMOUNT} s.
Arguments vec_ {T STATIC_AMOUNT} s.
Arguments size_ {T STATIC_AMOUNT} s.

Section Methods.
Context {T : Type} `{ElemType T} {STATIC_AMOUNT : nat}.
Local Abbreviation SVec := (SmallVector T STATIC_AMOUNT).

Definition set_arr_ (a : list (option T)) : M SVec unit :=
  let* s := get in put (SV a (vec_ s) (size_ s)).
Definition set_vec_ (v : option (vector T)) : M SVec unit :=
  let* s := get in put (SV (arr_ s) v (size_ s)).
Definition set_size_ (n : nat) : M SVec unit :=
  let* s := get in put (SV (arr_ s) (vec_ s) n).

(** [vec_->op(...)]: a call on the engaged optional. *)
Definition vec_call {A} (op : vec_op T A) : M SVec A :=
  let* s := get in
  match vec_ s with
  | None => undefined
  | Some v =>
      match op v with
      | VUndefined => undefined
      | VThrow e => throw e
      | VReturn a v' evs => set_vec_ (Some v') ;; log evs ;; ret a
      end
  end.

(** *** The inline buffer *)

(** [get_arr_element(i)], read as the source of a copy or a move. *)
Definition get_arr_element (i : nat) : M SVec T :=
  let* a := gets arr_ in
  match a !! i with
  | Some (Some v) => ret v
  | _ => undefined
  end.

(** [new (get_arr_element_ptr(i)) T(...)] with resulting value [v]. *)
Definition construct_at (i : nat) (how : source) (v : T) : M SVec unit :=
  let* a := gets arr_ in
  if i <? length a
  then set_arr_ (<[i := Some v]> a) ;; log [construct_event how (Inline i)]
  else undefined.

(** [get_arr_element_ptr(i)->~T()]. *)
Definition destroy_at (i : nat) : M SVec unit :=
  let* a := gets arr_ in
  match a !! i with
  | Some (Some _) => set_arr_ (<[i := None]> a) ;; log [Destruct (Inline i)]
  | _ => undefined
  end.

(** The object in slot [i], holding [v] before, has been moved from. *)
Definition mark_moved (i : nat) (v : T) : M SVec unit :=
  let* a := gets arr_ in set_arr_ (<[i := Some (moved_from v)]> a).

(** [new (dst) T(std::move( *src))] between two inline slots. *)
Definition move_construct_at (dst src : nat) : M SVec unit :=
  let* v := get_arr_element src in
  construct_at dst (ByMove (Inline src)) v ;;
  mark_moved src v.

(** *** Storage mode *)

Definition is_vector (s : SVec) : bool :=
  match vec_ s with Some _ => true | None => false end.

Definition is_array (s : SVec) : bool := negb (is_vector s).

Definition get_static_size (s : SVec) : nat := STATIC_AMOUNT.

Definition spillover (capacity : nat) : M SVec unit :=
  let* s := get in
  assert (negb (is_vector s)) ;;
  assert (STATIC_AMOUNT <=? capacity) ;;
  set_vec_ (Some (Vector [] 0)) ;;
  vec_call (vec_reserve vector_max_size capacity) ;;
  for_up 0 (size_ s `min` STATIC_AMOUNT) (λ i,
    let* v := get_arr_element i in
    vec_call (vec_push_back (ByMove (Inline i)) v) ;;
    mark_moved i v ;;
    destroy_at i).

(** *** Element access *)

(** The object at [begin() + i] of the active storage, if there is one. *)
Definition element (s : SVec) (i : nat) : option T :=
  match vec_ s with
  | Some v => elems v !! i
  | None => mjoin (arr_ s !! i)
  end.

(** [operator[](i)]. *)
Definition operator_index (i : nat) : M SVec T :=
  let* s := get in
  match element s i with
  | Some x => ret x
  | None => undefined
  end.

(** [front()] and [back()]. *)
Definition front : M SVec T := operator_index 0.
Definition back : M SVec T :=
  let* s := get in operator_index (size_t_sub (size_ s) 1).

(** [at(i)]. *)
Definition at_ (i : nat) : M SVec T :=
  let* s := get in
  if size_ s <=? i then throw out_of_range else operator_index i.

(** [begin() + i] read as an rvalue: the value is handed out and the object
    stays behind in its moved-from state. *)
Definition move_out (i : nat) : M SVec T :=
  let* s := get in
  match vec_ s with
  | Some v =>
      match elems v !! i with
      | Some x =>
          set_vec_ (Some (Vector (<[i := moved_from x]> (elems v)) (vcapacity v))) ;;
          ret x
      | None => undefined
      end
  | None => let* x := get_arr_element i in mark_moved i x ;; ret x
  end.

(** *** References to elements *)

Definition buffer_of (s : SVec) : buffer :=
  match vec_ s with
  | None => InlineBuffer
  | Some v => HeapBuffer (vcapacity v)
  end.

(** Where the object lives that [r] names, [b] being the buffer of the
    container when the reference was bound. *)
Definition ref_place (b : buffer) (r : ref T) : place :=
  match r with
  | Outside _ => Caller
  | Element i =>
      match b with InlineBuffer => Inline i | HeapBuffer _ => Heap end
  end.

(** The way [T(std::forward<Args>(args)...)] constructs: an argument that
    names an element is an lvalue, which is copied. *)
Definition args_source (b : buffer) (r : ref T) : source :=
  match r with
  | Outside _ => FromArgs
  | Element _ => ByCopy (ref_place b r)
  end.

(** Reading through a pointer to offset [i] of the buffer [b]: when the
    container no longer uses that buffer (it has spilled, or its vector has
    reallocated), the pointer dangles. *)
Definition deref (b : buffer) (i : nat) : M SVec T :=
  let* s := get in
  if buffer_eqb (buffer_of s) b then operator_index i else undefined.

(** Reading a [const T&] or an lvalue argument. *)
Definition read (b : buffer) (r : ref T) : M SVec T :=
  match r with
  | Outside v => ret v
  | Element i => deref b i
  end.

(** Reading a [T&&] argument, which leaves the object moved from.  The
    container's own code reads its argument in inline mode only; in spilled
    mode the argument is passed on to the vector, which may assume that an
    rvalue is not one of its own elements ([res.on.arguments]). *)
Definition move_from (b : buffer) (r : ref T) : M SVec T :=
  match r with
  | Outside v => ret v
  | Element i =>
      let* s := get in
      match b, buffer_of s with
      | InlineBuffer, InlineBuffer =>
          let* x := get_arr_element i in mark_moved i x ;; ret x
      | _, _ => undefined
      end
  end.

(** *** Capacity *)

Definition empty (s : SVec) : bool := size_ s =? 0.
Definition size (s : SVec) : nat := size_ s.
Definition max_size : N := T_max.

Definition reserve (size : nat) : M SVec unit :=
  let* s := get in
  if size <=? STATIC_AMOUNT then ret tt
  else if negb (is_vector s) then spillover size
  else vec_call (vec_reserve vector_max_size size).

Definition capacity (s : SVec) : nat :=
  match vec_ s with
  | None => STATIC_AMOUNT
  | Some v => vcapacity v
  end.

Definition shrink_to_fit : M SVec unit :=
  let* s := get in
  if is_vector s then vec_call vec_shrink_to_fit else ret tt.

(** *** Modifiers *)

Definition clear : M SVec unit :=
  let* s := get in
  (if is_vector s then vec_call vec_clear
   else for_down 0 (size_ s) (λ i, destroy_at (i - 1))) ;;
  set_size_ 0.

(** [insert(pos, T&&)] and [emplace(pos, args...)] have the same body up to
    the way the new element is constructed ([how]); [idx] is
    [pos - cbegin()], and [value] reads the argument, which happens where
    the new element is constructed: after the elements have been shifted
    or spilled. *)
Definition insert_from (how : source) (idx : nat) (value : M SVec T)
    : M SVec nat :=
  let* n := gets size_ in
  set_size_ (n + 1) ;;
  let* s := get in
  if negb (is_vector s) && (size_ s <=? STATIC_AMOUNT) then
    for_down idx (size_t_sub (size_ s) 1 - idx) (λ i,
      move_construct_at i (i - 1) ;;
      destroy_at (i - 1)) ;;
    let* v := value in
    construct_at idx how v ;;
    ret idx
  else
    (if negb (is_vector s) then spillover (size_ s) else ret tt) ;;
    let* v := value in
    vec_call (vec_insert idx how v).

(** The same with an argument that is no element of the container and
    holds [value]. *)
Definition insert_with (how : source) (idx : nat) (value : T) : M SVec nat :=
  insert_from how idx (ret value).

(** [insert(const_iterator pos, T &&value)]. *)
Definition insert (idx : nat) (value : ref T) : M SVec nat :=
  let* b := gets buffer_of in
  insert_from (ByMove (ref_place b value)) idx (move_from b value).

(** [insert(const_iterator pos, const T &value)]: [insert(pos, T(value))];
    the temporary is built from the argument before anything moves. *)
Definition insert_copy (idx : nat) (value : ref T) : M SVec nat :=
  let* b := gets buffer_of in
  let* v := read b value in
  log [CopyConstruct Temp (ref_place b value)] ;;
  let* it := insert_with (ByMove Temp) idx v in
  log [Destruct Temp] ;;
  ret it.

(** [emplace(pos, args...)]. *)
Definition emplace (idx : nat) (args : ref T) : M SVec nat :=
  let* b := gets buffer_of in
  insert_from (args_source b args) idx (read b args).

(** [erase(const_iterator pos)]. *)
Definition erase (idx : nat) : M SVec nat :=
  let* s := get in
  if is_vector s then
    let* it := vec_call (vec_erase idx) in
    set_size_ (size_t_sub (size_ s) 1) ;;
    ret it
  else
    destroy_at idx ;;
    for_up (idx + 1) (size_ s - (idx + 1)) (λ i,
      move_construct_at (i - 1) i ;;
      destroy_at i) ;;
    set_size_ (size_t_sub (size_ s) 1) ;;
    let* n := gets size_ in
    if idx =? n then ret n else ret idx.

(** [erase(const_iterator first, const_iterator last)]. *)
Definition erase_range (first_idx last_idx : nat) : M SVec nat :=
  let* s := get in
  if is_vector s then
    let* it := vec_call (vec_erase_range first_idx last_idx) in
    set_size_ (size_t_sub (size_ s) (size_t_sub last_idx first_idx)) ;;
    ret it
  else
    let diff := size_t_sub last_idx first_idx in
    for_up first_idx (last_idx - first_idx) destroy_at ;;
    for_up last_idx (size_ s - last_idx) (λ i,
      move_construct_at (size_t_sub i diff) i ;;
      destroy_at i) ;;
    set_size_ (size_t_sub (size_ s) (size_t_sub last_idx first_idx)) ;;
    let* n := gets size_ in
    if last_idx =? n then ret n else ret last_idx.

(** The same function in the older revision kept in [vec.hpp]: its second
    loop starts at [last_idx + 1]. *)
Definition erase_range_old (first_idx last_idx : nat) : M SVec nat :=
  let* s := get in
  if is_vector s then
    let* it := vec_call (vec_erase_range first_idx last_idx) in
    set_size_ (size_t_sub (size_ s) (size_t_sub last_idx first_idx)) ;;
    ret it
  else
    let diff := size_t_sub last_idx first_idx in
    for_up first_idx (last_idx - first_idx) destroy_at ;;
    for_up (last_idx + 1) (size_ s - (last_idx + 1)) (λ i,
      move_construct_at (size_t_sub i diff) i ;;
      destroy_at i) ;;
    set_size_ (size_t_sub (size_ s) (size_t_sub last_idx first_idx)) ;;
    let* n := gets size_ in
    if last_idx =? n then ret n else ret last_idx.

(** [push_back(T&&)], [push_back(const T&)] and [emplace_back(args...)]
    have the same body up to the way the new element is constructed;
    [val] reads the argument, which happens where the new element is
    constructed: after the spill, if there is one. *)
Definition push_back_from (how : source) (val : M SVec T) : M SVec unit :=
  let* s := get in
  (if negb (is_vector s) then
     if STATIC_AMOUNT <=? size_ s then
       spillover (size_ s + 1) ;;
       let* v := val in
       vec_call (vec_push_back how v)
     else
       let* v := val in
       construct_at (size_ s) how v
   else
     let* v := val in
     vec_call (vec_push_back how v)) ;;
  let* n := gets size_ in
  set_size_ (n + 1).

(** The same with an argument that is no element of the container and
    holds [val]. *)
Definition push_back_with (how : source) (val : T) : M SVec unit :=
  push_back_from how (ret val).

(** [push_back(T &&val)]. *)
Definition push_back_move (val : ref T) : M SVec unit :=
  let* b := gets buffer_of in
  push_back_from (ByMove (ref_place b val)) (move_from b val).

(** [push_back(const T &val)]. *)
Definition push_back (val : ref T) : M SVec unit :=
  let* b := gets buffer_of in
  push_back_from (ByCopy (ref_place b val)) (read b val).

(** [emplace_back(args...)]. *)
Definition emplace_back (args : ref T) : M SVec unit :=
  let* b := gets buffer_of in
  push_back_from (args_source b args) (read b args).

(** [pop_back()] is [erase(cend() - 1)]; on an empty container [cend() - 1]
    points before the buffer. *)
Definition pop_back : M SVec unit :=
  let* n := gets size_ in
  if n =? 0 then undefined else erase (n - 1) ;; ret tt.

(** The two overloads of [resize] differ in the call that appends. *)
Definition resize_with (append_one : M SVec unit) (count : nat) : M SVec unit :=
  let* s := get in
  if count =? size_ s then ret tt
  else if (max_size <? N.of_nat count)%N then throw length_error
  else if count <? size_ s then erase_range count (size_ s) ;; ret tt
  else
    reserve count ;;
    for_up (size_ s) (count - size_ s) (λ _, append_one).

(** [resize(count, value)]: every [push_back(value)] of the loop gets the
    reference that [resize] was called with. *)
Definition resize_value (count : nat) (value : ref T) : M SVec unit :=
  let* b := gets buffer_of in
  resize_with (push_back_from (ByCopy (ref_place b value)) (read b value))
    count.

(** [resize(count)]. *)
Definition resize (count : nat) : M SVec unit :=
  resize_with (emplace_back (Outside T_default)) count.

(** *** Construction and destruction *)

(** The object before a constructor body runs: the buffer is raw storage,
    [vec_] is default-initialised and [size_] is 0. *)
Definition fresh : SVec := SV (replicate STATIC_AMOUNT None) None 0.

(** [SmallVector()]. *)
Definition SmallVector_default : M SVec unit := ret tt.

(** [SmallVector(size_t count)]. *)
Definition SmallVector_count (count : nat) : M SVec unit :=
  reserve count ;;
  for_up 0 count (λ _, emplace_back (Outside T_default)).

(** [SmallVector(size_t count)] of the older revision kept in [vec.hpp]:
    it appends with [push_back(T())]. *)
Definition SmallVector_count_old (count : nat) : M SVec unit :=
  reserve count ;;
  for_up 0 count (λ _,
    log [Construct Temp] ;;
    push_back_with (ByMove Temp) T_default ;;
    log [Destruct Temp]).

(** [SmallVector(size_t count, const T &value)]; [value] cannot be an
    element of the container that is being constructed. *)
Definition SmallVector_fill (count : nat) (value : T) : M SVec unit :=
  reserve count ;;
  for_up 0 count (λ _, push_back (Outside value)).

(** [std::copy(first, last, std::back_inserter( *this))] from a range of
    values that is not part of a container. *)
Fixpoint copy_back (init : list T) : M SVec unit :=
  match init with
  | [] => ret tt
  | x :: init' => push_back (Outside x) ;; copy_back init'
  end.

(** A sequence of [push_back] and [emplace_back] calls, each with its way
    of constructing the new element. *)
Fixpoint pushes (vals : list (source * T)) : M SVec unit :=
  match vals with
  | [] => ret tt
  | (how, val) :: vals' => push_back_with how val ;; pushes vals'
  end.

(** [SmallVector(std::initializer_list<T> init)]. *)
Definition SmallVector_list (init : list T) : M SVec unit :=
  reserve (length init) ;;
  copy_back init.

(** The destruction of the data members after a destructor body: the
    engaged optional destroys its vector, which destroys its elements and
    releases the allocation. *)
Definition destroy_members : M SVec unit :=
  let* s := get in
  match vec_ s with
  | Some v => log (replicate (length (elems v)) (Destruct Heap)) ;; set_vec_ None
  | None => ret tt
  end.

(** [~SmallVector() { clear(); }]. *)
Definition destructor : M SVec unit := clear ;; destroy_members.

(** [~SmallVector() {}] of the older revision kept in [vec.hpp]. *)
Definition destructor_old : M SVec unit := destroy_members.

End Methods.

(** ** Operations on two containers

    [append], [swap] and the comparison take a second container by
    reference, which may be the object itself.  Objects therefore live in a
    store, addressed by [nat]; a member function of one object runs on the
    store through [at_obj]. *)

Section Store.
Context {T : Type} `{ElemType T} {STATIC_AMOUNT : nat}.
Local Abbreviation SVec := (SmallVector T STATIC_AMOUNT).
Local Abbreviation store := (gmap nat (SmallVector T STATIC_AMOUNT)).

Definition at_obj {A} (a : nat) (m : M SVec A) : M store A := λ w,
  match obj w !! a with
  | None => Fault undefined_behaviour
  | Some o =>
      match m (Machine o (trace w)) with
      | Done r s' => Done r (Machine (<[a := obj s']> (obj w)) (trace s'))
      | Throw e s' => Throw e (Machine (<[a := obj s']> (obj w)) (trace s'))
      | Fault f => Fault f
      end
  end.

(** [append(SmallVector<T> &&other)].  [std::move(first, last, out)] walks
    the pointers from [other.begin()] to [other.end()], both taken after
    the reservation, and pushes each element as an rvalue. *)
Definition append_move (this other : nat) : M store unit :=
  if this =? other then ret tt
  else
    let* other_size := at_obj other (gets size) in
    if other_size =? 0 then ret tt
    else
      let* n := at_obj this (gets size_) in
      at_obj this (reserve (n + other_size)) ;;
      let* last := at_obj other (gets size_) in
      for_up 0 last (λ i,
        let* v := at_obj other (move_out i) in
        at_obj this (push_back_move (Outside v))) ;;
      at_obj other clear.

(** [push_back( *it)] on the object at [this], for the pointer [it] to
    offset [i] of the buffer [first] of the object at [other].  When
    [other] is another object, the pointer names an object outside the
    container that is pushed to; when it is the object itself, the pointer
    names one of its own elements. *)
Definition push_back_of (this other : nat) (first : buffer) (i : nat)
    : M store unit :=
  if this =? other then
    at_obj this
      (push_back_from (ByCopy (ref_place first (Element i : ref T)))
         (deref first i))
  else
    let* v := at_obj other (deref first i) in
    at_obj this (push_back (Outside v)).

(** [append(const SmallVector<T> &other)]: [std::copy(first, last, out)]
    walks the pointers from [other.begin()] to [other.end()], both taken
    once, after the reservation, and pushes what each of them points to.
    There is no test for [this == &other]. *)
Definition append (this other : nat) : M store unit :=
  let* other_size := at_obj other (gets size) in
  if other_size =? 0 then ret tt
  else
    let* n := at_obj this (gets size_) in
    at_obj this (reserve (n + other_size)) ;;
    let* first := at_obj other (gets buffer_of) in
    let* last := at_obj other (gets size_) in
    for_up 0 last (push_back_of this other first).

(** [swap(SmallVector &other)]: the three members are exchanged; the
    buffers are exchanged as bytes, no element is constructed or
    destroyed. *)
Definition swap (this other : nat) : M store unit :=
  let* a := at_obj this get in
  let* b := at_obj other get in
  at_obj this (put (SV (arr_ b) (vec_ b) (size_ b))) ;;
  at_obj other (put (SV (arr_ a) (vec_ a) (size_ a))).

(** [operator=(const SmallVector &other) = default]: the members are
    assigned one by one; the buffer is copied as bytes. *)
Definition copy_assign (this other : nat) : M store unit :=
  let* b := at_obj other get in
  at_obj this (
    let* a := get in
    log (optional_vec_assign_events (vec_ a) (vec_ b)) ;;
    put (SV (arr_ b) (optional_vec_assign (vec_ a) (vec_ b)) (size_ b))).

(** The member functions that modify one container (and, for [append],
    read or empty a second one).  [swap] and the assignment are not among
    them. *)
Inductive mutator : Type :=
| Push_back (val : ref T)
| Push_back_move (val : ref T)
| Emplace_back (args : ref T)
| Insert (idx : nat) (val : ref T)
| Insert_copy (idx : nat) (val : ref T)
| Emplace (idx : nat) (args : ref T)
| Erase (idx : nat)
| Erase_range (first_idx last_idx : nat)
| Pop_back
| Clear
| Resize (count : nat)
| Resize_value (count : nat) (val : ref T)
| Reserve (n : nat)
| Shrink_to_fit
| Append (other : nat)
| Append_move (other : nat).

(** A call of a mutator on the object at [this], its result discarded. *)
Definition call (this : nat) (m : mutator) : M store unit :=
  match m with
  | Push_back val => at_obj this (push_back val)
  | Push_back_move val => at_obj this (push_back_move val)
  | Emplace_back args => at_obj this (emplace_back args)
  | Insert idx val => at_obj this (insert idx val) ;; ret tt
  | Insert_copy idx val => at_obj this (insert_copy idx val) ;; ret tt
  | Emplace idx args => at_obj this (emplace idx args) ;; ret tt
  | Erase idx => at_obj this (erase idx) ;; ret tt
  | Erase_range first_idx last_idx =>
      at_obj this (erase_range first_idx last_idx) ;; ret tt
  | Pop_back => at_obj this pop_back
  | Clear => at_obj this clear
  | Resize count => at_obj this (resize count)
  | Resize_value count val => at_obj this (resize_value count val)
  | Reserve n => at_obj this (reserve n)
  | Shrink_to_fit => at_obj this shrink_to_fit
  | Append other => append this other
  | Append_move other => append_move this other
  end.

(** A sequence of calls on the same object. *)
Fixpoint calls (this : nat) (ms : list mutator) : M store unit :=
  match ms with
  | [] => ret tt
  | m :: ms' => call this m ;; calls this ms'
  end.

End Store.
Arguments mutator T : clear implicits.

(** ** Comparison *)

Section Comparison.
Context {T : Type} `{ElemType T}.

(** [std::equal(begin(), end(), other.begin())] from offset [i] on, [n]
    positions to go; it stops at the first mismatch.  [None] is a read of
    raw storage. *)
Fixpoint equal_from {N1 N2} (a : SmallVector T N1) (b : SmallVector T N2)
    (i n : nat) : option bool :=
  match n with
  | 0 => Some true
  | S n' =>
      match element a i, element b i with
      | Some x, Some y =>
          if T_eqb x y then equal_from a b (S i) n' else Some false
      | _, _ => None
      end
  end.

(** [operator==(const SmallVector<T> &other) const]. *)
Definition operator_eq {N1 N2} (a : SmallVector T N1) (b : SmallVector T N2)
    : option bool :=
  if negb (size_ a =? size b) then Some false
  else equal_from a b 0 (size_ a).

(** [operator!=(const SmallVector<T> &other) const]. *)
Definition operator_ne {N1 N2} (a : SmallVector T N1) (b : SmallVector T N2)
    : option bool :=
  negb <$> operator_eq a b.

(** The comparison of two sequences as the specification words it: the
    lengths match and the elements at every index compare equal. *)
Definition elementwise_equal (l1 l2 : list T) : bool :=
  (length l1 =? length l2) && forallb (λ p, T_eqb p.1 p.2) (zip l1 l2).

End Comparison.

(** ** Well-formed containers and their contents *)

Section Abstraction.
Context {T : Type} {STATIC_AMOUNT : nat}.
Local Abbreviation SVec := (SmallVector T STATIC_AMOUNT).

Definition is_live (o : option T) : bool :=
  match o with Some _ => true | None => false end.

(** The representation invariant of section 3 of the specification: the
    buffer has [STATIC_AMOUNT] slots; inline, exactly the first [size_]
    slots are live; spilled, the vector holds the [size_] elements and no
    slot is live. *)
Definition wfb (s : SVec) : bool :=
  (length (arr_ s) =? STATIC_AMOUNT) &&
  match vec_ s with
  | None =>
      (size_ s <=? STATIC_AMOUNT) &&
      forallb is_live (take (size_ s) (arr_ s)) &&
      forallb (λ o, negb (is_live o)) (drop (size_ s) (arr_ s))
  | Some v =>
      (length (elems v) =? size_ s) &&
      (size_ s <=? vcapacity v) &&
      forallb (λ o, negb (is_live o)) (arr_ s)
  end.

Definition wf (s : SVec) : Prop := wfb s = true.

(** The live elements, in order. *)
Definition contents (s : SVec) : list T :=
  match vec_ s with
  | Some v => elems v
  | None => omap id (take (size_ s) (arr_ s))
  end.

(** The value of the object that a reference names when the call is
    made. *)
Definition referent (s : SVec) (r : ref T) : option T :=
  match r with
  | Outside v => Some v
  | Element i => contents s !! i
  end.

(** The buffer whose slot [p] holds [f p]. *)
Definition tabulate (f : nat → option T) : list (option T) :=
  f <$> seq 0 STATIC_AMOUNT.

(** An inline container with the given elements. *)
Definition inline_of (l : list T) : SVec :=
  SV ((Some <$> l) ++ replicate (STATIC_AMOUNT - length l) None) None (length l).

(** A spilled container with the given elements and capacity. *)
Definition spilled_of (l : list T) (cap : nat) : SVec :=
  SV (replicate STATIC_AMOUNT None) (Some (Vector l cap)) (length l).

End Abstraction.

(** The inline buffer is part of the object, and an object has at most
    [PTRDIFF_MAX] bytes, the bound from which the [max_size()] of
    [std::vector<T>] is computed as well: [STATIC_AMOUNT] is at most that
    [max_size()], and reaches it only when the buffer leaves less than
    [sizeof(T)] of those bytes unused.  The properties below are about the
    instantiations with [STATIC_AMOUNT] below the [max_size()] of the
    vector, for which the spill of a full inline container, a request for
    [STATIC_AMOUNT + 1] elements, is one that the vector accepts. *)
Class InlineFits (T : Type) `{ElemType T} (STATIC_AMOUNT : nat) : Prop :=
  inline_fits : (N.of_nat STATIC_AMOUNT < vector_max_size)%N.

(** A request within the inline capacity or within [max_size()] of the
    vector: the requests that [reserve] accepts. *)
Definition fits {T} `{ElemType T} (STATIC_AMOUNT n : nat) : bool :=
  (n <=? STATIC_AMOUNT) || (N.of_nat n <=? vector_max_size)%N.

(** ** Element types used in the examples

    [vector_max_size] is [PTRDIFF_MAX / sizeof(T)], the [max_size()] of
    libstdc++ on a 64-bit target. *)

(** [int]: a moved-from [int] keeps its value. *)
#[export] Instance int_elem : ElemType Z := {|
  T_default := 0%Z;
  moved_from := id;
  T_eqb := Z.eqb;
  T_max := 2147483647%N;
  vector_max_size := 2305843009213693951%N;
|}.

(** [signed char]: [std::numeric_limits<signed char>::max()] is 127. *)
Definition signed_char_elem : ElemType Z := {|
  T_default := 0%Z;
  moved_from := id;
  T_eqb := Z.eqb;
  T_max := 127%N;
  vector_max_size := 9223372036854775807%N;
|}.

(** [long long]: [max_size()], which is
    [std::numeric_limits<long long>::max()], is above the [max_size()] of
    the vector. *)
Definition long_long_elem : ElemType Z := {|
  T_default := 0%Z;
  moved_from := id;
  T_eqb := Z.eqb;
  T_max := 9223372036854775807%N;
  vector_max_size := 1152921504606846975%N;
|}.

(** The [Tracker] of the tests carries no data that matters here;
    [max_size()] cannot be instantiated for it and [T_max] is unused. *)
#[export] Instance tracker_elem : ElemType unit := {|
  T_default := tt;
  moved_from := id;
  T_eqb := λ _ _, true;
  T_max := 0%N;
  vector_max_size := 2305843009213693951%N;
|}.

(** For a concrete element type and inline capacity the bound is
    computed. *)
#[export] Hint Extern 0 (@InlineFits ?T ?H ?n) =>
  (tryif first [has_evar T | has_evar H | has_evar n] then fail
   else (unfold InlineFits; vm_compute; reflexivity)) : typeclass_instances.

(** Running a member function on an object, from an empty trace. *)
Definition run {X A} (m : M X A) (x : X) : outcome (machine X) A :=
  m (Machine x []).

(** The object left by a run, if it ended normally. *)
Definition result {X A} (o : outcome (machine X) A) : option X :=
  match o with Done _ s => Some (obj s) | _ => None end.

(** The events of a spill-over that migrates the first [n] slots. *)
Definition spill_events (n : nat) : list event :=
  flat_map (λ i, [MoveConstruct Heap (Inline i); Destruct (Inline i)]) (seq 0 n).

(** The inline slots that the events of a run read or destruct. *)
Definition slots_touched (evs : list event) : list nat :=
  flat_map (λ e, slots_read e ++ slots_destructed e) evs.

(** ** Events of the inline loops *)

(** The events of [erase(first, last)] on an inline container of [n]
    elements: the range is destroyed, then every later element is moved
    down and its source destroyed. *)
Definition erase_range_events (first_idx last_idx n : nat) : list event :=
  flat_map (λ i, [Destruct (Inline i)]) (seq first_idx (last_idx - first_idx))
  ++ flat_map (λ i, [MoveConstruct (Inline (i - (last_idx - first_idx)))
                       (Inline i);
                     Destruct (Inline i)])
       (seq last_idx (n - last_idx)).

(** The events of [clear()] on an inline container of [n] elements: the
    slots are destroyed from the last to the first. *)
Definition clear_events (n : nat) : list event :=
  flat_map (λ j, [Destruct (Inline (j - 1))]) (rev (seq 1 n)).

(** The events of [erase(pos)] at offset [idx] of an inline container of
    [n] elements. *)
Definition erase_events (idx n : nat) : list event :=
  Destruct (Inline idx)
  :: flat_map (λ i, [MoveConstruct (Inline (i - 1)) (Inline i);
                     Destruct (Inline i)])
       (seq (idx + 1) (n - (idx + 1))).

(** The events of the shifting loop of [insert]/[emplace] at offset [idx]
    of an inline container of [n] elements. *)
Definition insert_shift_events (idx n : nat) : list event :=
  flat_map (λ j, [MoveConstruct (Inline (idx + j)) (Inline (idx + j - 1));
                  Destruct (Inline (idx + j - 1))])
    (rev (seq 1 (n - idx))).

(** ** Predicates on member functions *)

Section Predicates.
Context {T : Type} {STATIC_AMOUNT : nat}.
Local Abbreviation SVec := (SmallVector T STATIC_AMOUNT).
Local Abbreviation store := (gmap nat (SmallVector T STATIC_AMOUNT)).

(** A member function keeps the vector: run on a spilled object, it leaves
    a spilled object, whether it returns or throws. *)
Definition keeps_vector {A} (m : M SVec A) : Prop :=
  ∀ s, is_vector (obj s) = true →
    match m s with
    | Done _ s' | Throw _ s' => is_vector (obj s') = true
    | Fault _ => True
    end.

(** The same for functions on the store: every spilled object of the store
    is still there, and spilled, afterwards. *)
Definition stays_spilled (w w' : store) : Prop :=
  ∀ a o, w !! a = Some o → is_vector o = true →
    ∃ o', w' !! a = Some o' ∧ is_vector o' = true.

Definition keeps_store {A} (m : M store A) : Prop :=
  ∀ w, match m w with
       | Done _ w' | Throw _ w' => stays_spilled (obj w) (obj w')
       | Fault _ => True
       end.

End Predicates.

(** ** Admissible calls and their accounts *)

Section Admissible.
Context {T : Type} `{ElemType T} {STATIC_AMOUNT : nat}.
Local Abbreviation SVec := (SmallVector T STATIC_AMOUNT).
Local Abbreviation store := (gmap nat (SmallVector T STATIC_AMOUNT)).

Definition is_outside (r : ref T) : bool :=
  match r with Outside _ => true | Element _ => false end.

(** What a call on the object [o] at [this] requires of its arguments
    here: a position is a valid iterator of the container; a range is a
    non-empty valid range; [pop_back] needs an element; an element
    argument is an object outside the container (for [insert(pos, const
    T&)], which copies its argument first, it may also be an element); a
    requested capacity or length is one that [reserve] accepts; and the
    argument of [append] is an object of the store, another one for the
    copying overload, whose elements together with those of [o] make a
    request that [reserve] accepts. *)
Definition precondition (w : store) (this : nat) (o : SVec) (m : mutator T)
    : bool :=
  match m with
  | Push_back val | Push_back_move val | Emplace_back val => is_outside val
  | Insert idx val | Emplace idx val => (idx <=? size_ o) && is_outside val
  | Insert_copy idx val =>
      (idx <=? size_ o) &&
      match val with Outside _ => true | Element i => i <? size_ o end
  | Erase idx => idx <? size_ o
  | Erase_range first_idx last_idx =>
      (first_idx <? last_idx) && (last_idx <=? size_ o)
  | Pop_back => 0 <? size_ o
  | Resize count | Reserve count => fits STATIC_AMOUNT count
  | Resize_value count val => fits STATIC_AMOUNT count && is_outside val
  | Append other =>
      negb (this =? other) &&
      match w !! other with
      | Some x => fits STATIC_AMOUNT (size_ o + size_ x)
      | None => false
      end
  | Append_move other =>
      (this =? other) ||
      match w !! other with
      | Some x => fits STATIC_AMOUNT (size_ o + size_ x)
      | None => false
      end
  | Clear | Shrink_to_fit => true
  end.

(** A sequence of calls on the object at [this], each within its
    precondition in the state it meets; the sequence ends at the first
    exception. *)
Fixpoint admissible (this : nat) (ms : list (mutator T)) (s : machine store)
    : bool :=
  match ms with
  | [] => true
  | m :: ms' =>
      match obj s !! this with
      | None => false
      | Some o =>
          precondition (obj s) this o m &&
          match call this m s with
          | Done _ s' => admissible this ms' s'
          | _ => true
          end
      end
  end.

(** The number of elements that the containers of a store hold. *)
Definition live (w : store) : nat := map_fold (λ _ o n, size_ o + n) 0 w.

(** The outcome of a run from the store [w] and the trace [tr] that returns
    or throws, leaves the same objects, all well-formed, and whose
    constructor and destructor calls account for the change in the number
    of elements. *)
Definition accounted {A} (w : store) (tr : list event)
    (r : outcome (machine store) A) : Prop :=
  match r with
  | Done _ s' | Throw _ s' =>
      (∀ k x, obj s' !! k = Some x → wf x) ∧
      dom (obj s') = dom w ∧
      ∃ evs, trace s' = tr ++ evs ∧
             constructions evs + live w = destructor_count evs + live (obj s')
  | Fault _ => False
  end.

End Admissible.

(** * Properties *)

(** ** The monad and its loops *)

Section Monad_facts.
Context {X : Type}.

Lemma bind_Done {A B} (m : M X A) (k : A → M X B) s a s' :
  m s = Done a s' → bind m k s = k a s'.
Proof. intros E. unfold bind. by rewrite E. Qed.

Lemma bind_Throw {A B} (m : M X A) (k : A → M X B) s e s' :
  m s = Throw e s' → bind m k s = Throw e s'.
Proof. intros E. unfold bind. by rewrite E. Qed.

Lemma bind_Fault {A B} (m : M X A) (k : A → M X B) s f :
  m s = Fault f → bind m k s = Fault f.
Proof. intros E. unfold bind. by rewrite E. Qed.

Lemma bind_ret_l {A B} (a : A) (k : A → M X B) : bind (ret a) k = k a.
Proof. reflexivity. Qed.

(** An upward loop whose iteration [i] takes object [O i] to [O (S i)] and
    logs [ev i]. *)
Lemma for_up_states (O : nat → X) (ev : nat → list event) body n :
  ∀ lo tr,
  (∀ i tr', lo ≤ i < lo + n →
     body i (Machine (O i) tr') = Done tt (Machine (O (S i)) (tr' ++ ev i))) →
  for_up lo n body (Machine (O lo) tr)
  = Done tt (Machine (O (lo + n)) (tr ++ flat_map ev (seq lo n))).
Proof.
  induction n as [|n IH]; intros lo tr Hstep; simpl.
  - by rewrite Nat.add_0_r, app_nil_r.
  - erewrite bind_Done; [|apply Hstep; lia].
    rewrite IH; [|intros; apply Hstep; lia].
    by rewrite <- app_assoc, Nat.add_succ_r.
Qed.

(** A downward loop: with [j] iterations to go the object is [O j]. *)
Lemma for_down_states (O : nat → X) (ev : nat → list event) body lo n :
  ∀ tr,
  (∀ j tr', j < n →
     body (lo + S j) (Machine (O (S j)) tr')
     = Done tt (Machine (O j) (tr' ++ ev (S j)))) →
  for_down lo n body (Machine (O n) tr)
  = Done tt (Machine (O 0) (tr ++ flat_map ev (rev (seq 1 n)))).
Proof.
  induction n as [|n IH]; intros tr Hstep.
  - simpl. by rewrite app_nil_r.
  - cbn [for_down]. erewrite bind_Done; [|apply Hstep; lia].
    rewrite IH; [|intros; apply Hstep; lia].
    rewrite seq_S, rev_app_distr. simpl. by rewrite <- app_assoc.
Qed.

(** A loop whose body takes the invariant of [i] to that of [S i] ends
    normally with the invariant of its bound. *)
Lemma for_up_invariant (P : nat → machine X → Prop) body n :
  ∀ lo s,
  P lo s →
  (∀ i s, lo ≤ i < lo + n → P i s →
     ∃ s', body i s = Done tt s' ∧ P (S i) s') →
  ∃ s', for_up lo n body s = Done tt s' ∧ P (lo + n) s'.
Proof.
  induction n as [|n IH]; intros lo s HP Hstep; simpl.
  - exists s. by rewrite Nat.add_0_r.
  - destruct (Hstep lo s) as (s1 & E1 & HP1); [lia|done|].
    destruct (IH (S lo) s1 HP1) as (s2 & E2 & HP2).
    { intros; apply Hstep; [lia|done]. }
    exists s2. rewrite Nat.add_succ_r. split; [|done].
    by erewrite bind_Done.
Qed.

End Monad_facts.

(** ** Counting events *)

Section Counting.
Implicit Types (evs : list event) (q : event → bool).

Lemma count_events_app q evs1 evs2 :
  count_events q (evs1 ++ evs2) = count_events q evs1 + count_events q evs2.
Proof. unfold count_events. by rewrite List.filter_app, length_app. Qed.

Lemma count_events_flat_map q (f : nat → event) (xs : list nat) :
  count_events q (flat_map (λ i, [f i]) xs)
  = length (List.filter (λ i, q (f i)) xs).
Proof.
  unfold count_events. induction xs as [|i xs IH]; simpl; [done|].
  destruct (q (f i)); simpl; by rewrite IH.
Qed.

Lemma count_events_all q (f : nat → event) (xs : list nat) :
  (∀ i, q (f i) = true) →
  count_events q (flat_map (λ i, [f i]) xs) = length xs.
Proof.
  intros Hp. rewrite count_events_flat_map.
  induction xs as [|i xs IH]; simpl; [done|]. by rewrite Hp, <- IH.
Qed.

Lemma count_events_none q (f : nat → event) (xs : list nat) :
  (∀ i, q (f i) = false) →
  count_events q (flat_map (λ i, [f i]) xs) = 0.
Proof.
  intros Hp. rewrite count_events_flat_map.
  induction xs as [|i xs IH]; simpl; [done|]. by rewrite Hp.
Qed.

Lemma count_events_replicate q n e :
  count_events q (replicate n e) = if q e then n else 0.
Proof.
  unfold count_events. induction n as [|n IH]; simpl.
  - by destruct (q e).
  - destruct (q e); simpl; by rewrite IH.
Qed.

Lemma constructions_app evs1 evs2 :
  constructions (evs1 ++ evs2) = constructions evs1 + constructions evs2.
Proof.
  unfold constructions, constructor_count, copy_count, move_count.
  rewrite !count_events_app. lia.
Qed.

Lemma destructor_count_app evs1 evs2 :
  destructor_count (evs1 ++ evs2)
  = destructor_count evs1 + destructor_count evs2.
Proof. apply count_events_app. Qed.

Lemma count_events_pairs q (f g : nat → event) (xs : list nat) :
  count_events q (flat_map (λ i, [f i; g i]) xs)
  = count_events q (flat_map (λ i, [f i]) xs)
    + count_events q (flat_map (λ i, [g i]) xs).
Proof.
  unfold count_events. induction xs as [|i xs IH]; simpl; [done|].
  destruct (q (f i)), (q (g i)); simpl; rewrite IH; lia.
Qed.

Lemma tally_spill_events n :
  constructions (spill_events n) = n ∧ destructor_count (spill_events n) = n.
Proof.
  unfold constructions, constructor_count, copy_count, move_count,
    destructor_count, spill_events.
  rewrite !count_events_pairs.
  repeat first [ rewrite count_events_all by done
               | rewrite count_events_none by done ].
  rewrite length_seq. lia.
Qed.

Lemma tally_relocate k :
  constructions (relocate k) = k ∧ destructor_count (relocate k) = k.
Proof.
  unfold constructions, constructor_count, copy_count, move_count,
    destructor_count, relocate.
  rewrite !count_events_app, !count_events_replicate. simpl. lia.
Qed.

Lemma tally_construct_event how dst :
  constructions [construct_event how dst] = 1 ∧
  destructor_count [construct_event how dst] = 0.
Proof. by destruct how. Qed.

End Counting.



(** ** Buffers, well-formed containers, contents *)

Section Buffer_facts.
Context {T : Type} {STATIC_AMOUNT : nat}.
Local Abbreviation SVec := (SmallVector T STATIC_AMOUNT).
Local Abbreviation tab := (@tabulate T STATIC_AMOUNT).
Implicit Types (l : list T) (f g : nat → option T) (s : SVec).

Lemma tabulate_length f : length (tab f) = STATIC_AMOUNT.
Proof. unfold tabulate. by rewrite length_fmap, length_seq. Qed.

Lemma tabulate_lookup f p :
  tab f !! p = if decide (p < STATIC_AMOUNT) then Some (f p) else None.
Proof.
  unfold tabulate. rewrite list_lookup_fmap.
  case_decide.
  - by rewrite lookup_seq_lt.
  - by rewrite lookup_seq_ge by lia.
Qed.

Lemma tabulate_lookup_lt f p : p < STATIC_AMOUNT → tab f !! p = Some (f p).
Proof. intros. rewrite tabulate_lookup. by case_decide. Qed.

Lemma tabulate_ext f g :
  (∀ p, p < STATIC_AMOUNT → f p = g p) → tab f = tab g.
Proof.
  intros E. apply list_eq. intros p. rewrite !tabulate_lookup.
  case_decide; [|done]. by rewrite E.
Qed.

Lemma tabulate_insert f i x :
  <[i := x]> (tab f) = tab (λ p, if decide (p = i) then x else f p).
Proof.
  apply list_eq. intros p.
  destruct (decide (i = p)) as [->|Hne].
  - destruct (decide (p < STATIC_AMOUNT)).
    + rewrite list_lookup_insert_eq by by rewrite tabulate_length.
      rewrite tabulate_lookup_lt by done. by case_decide.
    + rewrite list_insert_ge by (rewrite tabulate_length; lia).
      rewrite !tabulate_lookup. by case_decide.
  - rewrite list_lookup_insert_ne by done.
    rewrite !tabulate_lookup. case_decide; [|done].
    case_decide; [congruence|done].
Qed.

Lemma tabulate_dead : tab (λ _, None) = replicate STATIC_AMOUNT None.
Proof.
  apply list_eq. intros p. rewrite tabulate_lookup.
  case_decide.
  - by rewrite lookup_replicate_2.
  - symmetry. apply lookup_replicate_None. lia.
Qed.

(** The buffer of an inline container, slot by slot. *)
Lemma inline_buffer l :
  length l ≤ STATIC_AMOUNT →
  (Some <$> l) ++ replicate (STATIC_AMOUNT - length l) None
  = tab (λ p, l !! p).
Proof.
  intros Hl. apply list_eq. intros p. rewrite tabulate_lookup.
  destruct (decide (p < length l)) as [Hp|Hp].
  - rewrite lookup_app_l by by rewrite length_fmap.
    rewrite list_lookup_fmap. rewrite decide_True by lia.
    by destruct (lookup_lt_is_Some_2 l p Hp) as [x ->].
  - rewrite lookup_app_r by (rewrite length_fmap; lia).
    rewrite length_fmap. rewrite (lookup_ge_None_2 l p) by lia.
    case_decide.
    + rewrite lookup_replicate_2 by lia. done.
    + apply lookup_replicate_None. lia.
Qed.

Lemma inline_of_tabulate l :
  length l ≤ STATIC_AMOUNT →
  (inline_of l : SVec) = SV (tab (λ p, l !! p)) None (length l).
Proof. intros. unfold inline_of. by rewrite inline_buffer. Qed.

Lemma spilled_of_tabulate l cap :
  (spilled_of l cap : SVec)
  = SV (tab (λ _, None)) (Some (Vector l cap)) (length l).
Proof. unfold spilled_of. by rewrite tabulate_dead. Qed.

Lemma all_live_fmap (xs : list (option T)) :
  forallb is_live xs = true → xs = Some <$> omap id xs.
Proof.
  induction xs as [|[x|] xs IH]; simpl; intros E; [done| |done].
  f_equal. by apply IH.
Qed.

Lemma all_dead_replicate (xs : list (option T)) :
  forallb (λ o, negb (is_live o)) xs = true →
  xs = replicate (length xs) None.
Proof.
  induction xs as [|[x|] xs IH]; simpl; intros E; [done|done|].
  f_equal. by apply IH.
Qed.

Lemma omap_id_fmap_Some l : omap id (Some <$> l) = l.
Proof. induction l as [|x l IH]; csimpl; [done|]. by rewrite IH. Qed.

Lemma forallb_fmap_Some l : forallb is_live (Some <$> l) = true.
Proof. by induction l. Qed.

Lemma forallb_replicate_None n :
  forallb (λ o : option T, negb (is_live o)) (replicate n None) = true.
Proof. by induction n. Qed.

(** Every well-formed container is one of the two normal forms. *)
Lemma wf_normal_form s :
  wf s →
  (∃ l, length l ≤ STATIC_AMOUNT ∧ s = inline_of l) ∨
  (∃ l cap, length l ≤ cap ∧ s = spilled_of l cap).
Proof.
  destruct s as [arr [v|] sz]; unfold wf, wfb; simpl;
    rewrite !andb_true_iff; intros (Harr & (Ha & Hb) & Hc).
  - right. destruct v as [l cap]. simpl in *.
    apply Nat.eqb_eq in Harr, Ha. apply Nat.leb_le in Hb.
    exists l, cap. split; [lia|]. unfold spilled_of. subst sz.
    f_equal. rewrite <- Harr. by apply all_dead_replicate.
  - left.
    apply Nat.eqb_eq in Harr. apply Nat.leb_le in Ha.
    exists (omap id (take sz arr)).
    assert (Hlen : length (omap id (take sz arr)) = sz).
    { rewrite <- (length_fmap Some), <- all_live_fmap by done.
      rewrite length_take. lia. }
    split; [lia|]. unfold inline_of. rewrite Hlen. f_equal.
    rewrite <- all_live_fmap by done.
    rewrite <- (take_drop sz arr) at 1. f_equal.
    rewrite (all_dead_replicate (drop sz arr)) by done.
    by rewrite length_drop, Harr.
Qed.

Lemma wf_inline_of l : length l ≤ STATIC_AMOUNT → wf (inline_of l : SVec).
Proof.
  intros Hl. unfold wf, wfb, inline_of. simpl.
  rewrite length_app, length_fmap, length_replicate.
  rewrite take_app_length' by by rewrite length_fmap.
  rewrite drop_app_length' by by rewrite length_fmap.
  rewrite forallb_fmap_Some, forallb_replicate_None.
  rewrite !andb_true_r. apply andb_true_intro. split.
  - apply Nat.eqb_eq. lia.
  - by apply Nat.leb_le.
Qed.

Lemma wf_spilled_of l cap : length l ≤ cap → wf (spilled_of l cap : SVec).
Proof.
  intros Hl. unfold wf, wfb, spilled_of. simpl.
  rewrite length_replicate, forallb_replicate_None, !Nat.eqb_refl. simpl.
  rewrite andb_true_r. by apply Nat.leb_le.
Qed.

Lemma contents_inline_of l : contents (inline_of l : SVec) = l.
Proof.
  unfold contents, inline_of. simpl.
  rewrite take_app_length' by by rewrite length_fmap.
  apply omap_id_fmap_Some.
Qed.

Lemma contents_spilled_of l cap : contents (spilled_of l cap : SVec) = l.
Proof. done. Qed.

Lemma wf_size s : wf s → size_ s = length (contents s).
Proof.
  intros [(l & _ & ->)|(l & cap & _ & ->)]%wf_normal_form.
  - by rewrite contents_inline_of.
  - done.
Qed.

(** In a well-formed container the object at offset [i] is the [i]-th
    element. *)
Lemma element_inline_of l i : element (inline_of l : SVec) i = l !! i.
Proof.
  unfold element, inline_of. simpl.
  destruct (decide (i < length l)) as [Hi|Hi].
  - rewrite lookup_app_l by by rewrite length_fmap.
    rewrite list_lookup_fmap. by destruct (l !! i).
  - rewrite lookup_app_r by (rewrite length_fmap; lia).
    rewrite (lookup_ge_None_2 l i) by lia.
    destruct (replicate _ _ !! _) as [o|] eqn:E; [|done].
    by apply lookup_replicate_1 in E as [-> _].
Qed.

Lemma element_contents s i : wf s → element s i = contents s !! i.
Proof.
  intros [(l & _ & ->)|(l & cap & _ & ->)]%wf_normal_form.
  - by rewrite element_inline_of, contents_inline_of.
  - done.
Qed.

End Buffer_facts.

(** ** The primitive steps on explicit states *)

Section Primitive_facts.
Context {T : Type} `{ElemType T} {STATIC_AMOUNT : nat}.
Local Abbreviation SVec := (SmallVector T STATIC_AMOUNT).
Local Abbreviation tab := (@tabulate T STATIC_AMOUNT).
Implicit Types (l : list T) (f g : nat → option T) (s : SVec)
  (vec : option (vector T)) (tr : list event).

Lemma set_size_run n (o : SVec) tr :
  set_size_ n (Machine o tr) = Done tt (Machine (SV (arr_ o) (vec_ o) n) tr).
Proof. done. Qed.

Lemma set_vec_run v (o : SVec) tr :
  set_vec_ v (Machine o tr) = Done tt (Machine (SV (arr_ o) v (size_ o)) tr).
Proof. done. Qed.

Lemma vec_call_run {A} (op : vec_op T A) arr v sz tr a v' evs :
  op v = VReturn a v' evs →
  vec_call op (Machine (SV arr (Some v) sz : SVec) tr)
  = Done a (Machine (SV arr (Some v') sz) (tr ++ evs)).
Proof. intros E. unfold vec_call, bind, get. simpl. by rewrite E. Qed.

Lemma vec_call_throw {A} (op : vec_op T A) arr v sz tr e :
  op v = VThrow e →
  vec_call op (Machine (SV arr (Some v) sz : SVec) tr)
  = Throw e (Machine (SV arr (Some v) sz) tr).
Proof. intros E. unfold vec_call, bind, get. simpl. by rewrite E. Qed.

(** The vector's [reserve] for a request that it accepts. *)
Lemma vec_reserve_accepted n (v : vector T) :
  (N.of_nat n ≤ vector_max_size)%N →
  vec_reserve vector_max_size n v
  = if vcapacity v <? n
    then VReturn tt (Vector (elems v) n) (relocate (length (elems v)))
    else VReturn tt v [].
Proof.
  intros Hn. unfold vec_reserve.
  by destruct (N.ltb_spec vector_max_size (N.of_nat n)); [lia|].
Qed.

Lemma vec_reserve_refused n (v : vector T) :
  (vector_max_size < N.of_nat n)%N →
  vec_reserve vector_max_size n v = VThrow length_error.
Proof.
  intros Hn. unfold vec_reserve.
  by destruct (N.ltb_spec vector_max_size (N.of_nat n)); [|lia].
Qed.

Lemma get_arr_element_tab f vec sz tr i v :
  i < STATIC_AMOUNT → f i = Some v →
  get_arr_element i (Machine (SV (tab f) vec sz : SVec) tr)
  = Done v (Machine (SV (tab f) vec sz) tr).
Proof.
  intros Hi Hv. unfold get_arr_element, bind, gets. simpl.
  by rewrite tabulate_lookup_lt, Hv.
Qed.

Lemma construct_at_tab f vec sz tr i how v :
  i < STATIC_AMOUNT →
  construct_at i how v (Machine (SV (tab f) vec sz : SVec) tr)
  = Done tt (Machine
      (SV (tab (λ p, if decide (p = i) then Some v else f p)) vec sz)
      (tr ++ [construct_event how (Inline i)])).
Proof.
  intros Hi. unfold construct_at, bind, gets. simpl.
  rewrite tabulate_length.
  destruct (Nat.ltb_spec i STATIC_AMOUNT); [|lia].
  by rewrite tabulate_insert.
Qed.

Lemma destroy_at_tab f vec sz tr i v :
  i < STATIC_AMOUNT → f i = Some v →
  destroy_at i (Machine (SV (tab f) vec sz : SVec) tr)
  = Done tt (Machine
      (SV (tab (λ p, if decide (p = i) then None else f p)) vec sz)
      (tr ++ [Destruct (Inline i)])).
Proof.
  intros Hi Hv. unfold destroy_at, bind, gets. simpl.
  rewrite tabulate_lookup_lt, Hv by done.
  by rewrite tabulate_insert.
Qed.

Lemma mark_moved_tab f vec sz tr i v :
  mark_moved i v (Machine (SV (tab f) vec sz : SVec) tr)
  = Done tt (Machine
      (SV (tab (λ p, if decide (p = i) then Some (moved_from v) else f p))
          vec sz) tr).
Proof. unfold mark_moved, bind, gets. simpl. by rewrite tabulate_insert. Qed.

(** One step of a shifting loop: the object of slot [src] is moved to slot
    [dst] and its source is destroyed. *)
Lemma shift_step_tab f vec sz tr dst src v :
  src < STATIC_AMOUNT → dst < STATIC_AMOUNT → f src = Some v →
  (move_construct_at dst src ;; destroy_at src)
    (Machine (SV (tab f) vec sz : SVec) tr)
  = Done tt (Machine
      (SV (tab (λ p, if decide (p = src) then None
                     else if decide (p = dst) then Some v else f p)) vec sz)
      (tr ++ [MoveConstruct (Inline dst) (Inline src); Destruct (Inline src)])).
Proof.
  intros Hs Hd Hv. unfold move_construct_at.
  erewrite bind_Done; [|erewrite bind_Done; [|by apply get_arr_element_tab]].
  2: { erewrite bind_Done; [|by apply construct_at_tab]. apply mark_moved_tab. }
  erewrite destroy_at_tab; [|done|by rewrite decide_True].
  rewrite <- app_assoc. simpl. do 2 f_equal. f_equal.
  apply tabulate_ext. intros p _. by repeat case_decide.
Qed.

End Primitive_facts.

(** ** Spill-over *)

Section Spillover_facts.
Context {T : Type} `{ElemType T} {STATIC_AMOUNT : nat}.
Local Abbreviation SVec := (SmallVector T STATIC_AMOUNT).
Local Abbreviation tab := (@tabulate T STATIC_AMOUNT).
Implicit Types (l : list T) (f g : nat → option T) (tr : list event).

(** [spillover] on an inline object whose first [min size_ STATIC_AMOUNT]
    slots hold the elements [l]: the elements arrive in the vector in
    order, their slots become raw storage, the other slots are not
    touched. *)
Lemma spillover_run f l sz cap tr :
  length l = sz `min` STATIC_AMOUNT →
  (∀ i, i < length l → f i = l !! i) →
  STATIC_AMOUNT ≤ cap → (N.of_nat cap ≤ vector_max_size)%N →
  spillover cap (Machine (SV (tab f) None sz : SVec) tr)
  = Done tt (Machine
      (SV (tab (λ p, if decide (p < length l) then None else f p))
          (Some (Vector l cap)) sz)
      (tr ++ spill_events (length l))).
Proof.
  intros Hlen Hf Hcap Hmax. unfold spillover.
  erewrite bind_Done; [|reflexivity]. cbn [obj size_ is_vector vec_ negb assert].
  erewrite bind_Done; [|reflexivity].
  destruct (Nat.leb_spec STATIC_AMOUNT cap); [|lia]. cbn [assert].
  erewrite bind_Done; [|reflexivity].
  erewrite bind_Done; [|apply set_vec_run]. cbn [arr_ size_].
  erewrite bind_Done.
  2: { apply (vec_call_run _ _ _ _ _ tt (Vector [] cap) []).
       rewrite vec_reserve_accepted by done. simpl.
       destruct (Nat.ltb_spec 0 cap); [done|by replace cap with 0 by lia]. }
  rewrite app_nil_r, <- Hlen.
  pose (O := λ i, SV (tab (λ p, if decide (p < i) then None else f p))
                     (Some (Vector (take i l) cap)) sz : SVec).
  assert (E0 : SV (tab f) (Some (Vector [] cap)) sz = O 0).
  { unfold O. rewrite take_0.
    rewrite (tabulate_ext f (λ p, if decide (p < 0) then None else f p));
      [done|].
    intros p _. case_decide; [lia|done]. }
  rewrite E0.
  rewrite (for_up_states O
    (λ i, [MoveConstruct Heap (Inline i); Destruct (Inline i)])).
  - unfold O, spill_events. simpl. by rewrite firstn_all.
  - intros i tr' Hi. simpl in Hi. unfold O.
    destruct (lookup_lt_is_Some_2 l i) as [v Hv]; [lia|].
    erewrite bind_Done.
    2: { apply (get_arr_element_tab _ _ _ _ _ v); [lia|].
         rewrite decide_False by lia. rewrite Hf by lia. done. }
    erewrite bind_Done.
    2: { apply (vec_call_run _ _ _ _ _ tt (Vector (take (S i) l) cap)
                  [MoveConstruct Heap (Inline i)]).
         unfold vec_push_back. simpl. rewrite length_take.
         destruct (Nat.ltb_spec (i `min` length l) cap); [|lia].
         by rewrite (take_S_r _ _ v). }
    erewrite bind_Done; [|apply mark_moved_tab].
    erewrite destroy_at_tab; [|lia|by rewrite decide_True].
    rewrite <- app_assoc. simpl. do 2 f_equal. f_equal.
    apply tabulate_ext. intros p _. repeat case_decide; done || lia.
Qed.

End Spillover_facts.

Section Spillover_claim.
Context {T : Type} `{ElemType T} {STATIC_AMOUNT : nat}.
Context `{!InlineFits T STATIC_AMOUNT}.
Local Abbreviation SVec := (SmallVector T STATIC_AMOUNT).
Local Abbreviation tab := (@tabulate T STATIC_AMOUNT).
Implicit Types (l : list T) (tr : list event).

Lemma buffer_tabulate (arr : list (option T)) :
  length arr = STATIC_AMOUNT → arr = tab (λ p, mjoin (arr !! p)).
Proof.
  intros Hlen. apply list_eq. intros p. rewrite tabulate_lookup.
  case_decide.
  - destruct (lookup_lt_is_Some_2 arr p) as [o Ho]; [lia|]. by rewrite Ho.
  - apply lookup_ge_None_2. lia.
Qed.

Lemma slots_touched_spill_events n :
  slots_touched (spill_events n) = flat_map (λ i, [i; i]) (seq 0 n).
Proof.
  unfold slots_touched, spill_events.
  generalize 0. induction n as [|n IH]; intros lo; simpl; [done|].
  by rewrite IH.
Qed.

Lemma spill_events_slots_bounded n :
  Forall (λ i, i < n) (slots_touched (spill_events n)).
Proof.
  rewrite slots_touched_spill_events. apply Forall_forall. intros i Hi.
  apply list_elem_of_In, in_flat_map in Hi as (j & Hj & Hi).
  apply in_seq in Hj. simpl in Hi. destruct Hi as [<-|[<-|[]]]; lia.
Qed.

(** [spillover] on any inline object whose first [min size_ STATIC_AMOUNT]
    slots are live, holding [l]. *)
Lemma spillover_spec (o : SVec) l capacity tr :
  vec_ o = None → length (arr_ o) = STATIC_AMOUNT →
  STATIC_AMOUNT ≤ capacity → (N.of_nat capacity ≤ vector_max_size)%N →
  take (size_ o `min` STATIC_AMOUNT) (arr_ o) = Some <$> l →
  spillover capacity (Machine o tr)
  = Done tt (Machine
      (SV (replicate (length l) None ++ drop (length l) (arr_ o))
          (Some (Vector l capacity)) (size_ o))
      (tr ++ spill_events (length l))).
Proof.
  destruct o as [arr vec sz]. simpl. intros -> Harr Hcap Hmax Hl.
  assert (Hlen : length l = sz `min` STATIC_AMOUNT).
  { rewrite <- (length_fmap Some), <- Hl, length_take. lia. }
  rewrite (buffer_tabulate arr Harr) at 1.
  rewrite (spillover_run _ l); [|done| |done|done].
  - do 2 f_equal. f_equal. apply list_eq. intros p.
    rewrite tabulate_lookup.
    destruct (decide (p < length l)).
    + rewrite lookup_app_l by by rewrite length_replicate.
      rewrite lookup_replicate_2 by done.
      by rewrite ?decide_True by lia.
    + rewrite lookup_app_r by (rewrite length_replicate; lia).
      rewrite lookup_drop, length_replicate.
      replace (length l + (p - length l)) with p by lia.
      rewrite ?decide_False by done.
      case_decide.
      * destruct (lookup_lt_is_Some_2 arr p) as [o Ho]; [lia|]. by rewrite Ho.
      * symmetry. apply lookup_ge_None_2. lia.
  - intros i Hi.
    assert (E : arr !! i = Some <$> l !! i).
    { rewrite <- list_lookup_fmap, <- Hl, lookup_take_lt by lia. done. }
    rewrite E. by destruct (l !! i).
Qed.

(** [spillover] with a capacity that the vector refuses: the optional is
    engaged, the vector throws, and nothing else has happened. *)
Lemma spillover_refused (o : SVec) capacity tr :
  vec_ o = None → STATIC_AMOUNT ≤ capacity →
  (vector_max_size < N.of_nat capacity)%N →
  spillover capacity (Machine o tr)
  = Throw length_error
      (Machine (SV (arr_ o) (Some (Vector [] 0)) (size_ o)) tr).
Proof.
  destruct o as [arr vec sz]. simpl. intros -> Hcap Hmax. unfold spillover.
  erewrite bind_Done; [|reflexivity]. cbn [obj size_ is_vector vec_ negb assert].
  erewrite bind_Done; [|reflexivity].
  destruct (Nat.leb_spec STATIC_AMOUNT capacity); [|lia]. cbn [assert].
  erewrite bind_Done; [|reflexivity].
  erewrite bind_Done; [|apply set_vec_run]. cbn [arr_ size_].
  erewrite bind_Throw; [done|].
  apply vec_call_throw. by apply vec_reserve_refused.
Qed.

(** The spill of a full inline container asks for one element more than
    the inline capacity. *)
Lemma spill_fits : (N.of_nat (STATIC_AMOUNT + 1) ≤ vector_max_size)%N.
Proof. pose proof (inline_fits (T:=T) (STATIC_AMOUNT:=STATIC_AMOUNT)). lia. Qed.

(** [insert]/[emplace] into a full inline container: the length is
    incremented first, then the [STATIC_AMOUNT] elements spill over, then
    the vector inserts. *)
Lemma insert_with_full how idx value l tr :
  length l = STATIC_AMOUNT → idx ≤ STATIC_AMOUNT →
  ∃ evs,
    insert_with how idx value (Machine (inline_of l : SVec) tr)
    = Done idx
        (Machine (spilled_of (take idx l ++ value :: drop idx l)
                    (STATIC_AMOUNT + 1))
           (tr ++ spill_events STATIC_AMOUNT ++ evs)) ∧
    (slots_read (construct_event how Heap) = [] → slots_touched evs = []).
Proof.
  intros Hl Hidx.
  exists (if idx =? length l then [construct_event how Heap]
          else vec_insert_events how).
  split.
  - rewrite inline_of_tabulate by lia. rewrite spilled_of_tabulate.
    unfold insert_with, insert_from.
    erewrite bind_Done; [|reflexivity]. cbn [obj size_].
    erewrite bind_Done; [|apply set_size_run]. cbn [arr_ vec_].
    erewrite bind_Done; [|reflexivity]. cbn [obj size_ is_vector vec_ negb].
    destruct (Nat.leb_spec (length l + 1) STATIC_AMOUNT); [lia|].
    cbn [andb].
    erewrite bind_Done;
      [|apply (spillover_run _ l);
        [lia|done|lia|rewrite Hl; apply spill_fits]].
    rewrite bind_ret_l.
    erewrite (vec_call_run _ _ _ _ _ idx
                (Vector (take idx l ++ value :: drop idx l) (length l + 1))).
    2: { unfold vec_insert. cbn [elems vcapacity].
         destruct (Nat.ltb_spec (length l) idx); [lia|].
         destruct (Nat.ltb_spec (length l) (length l + 1)); [|lia].
         reflexivity. }
    rewrite <- app_assoc, Hl. do 2 f_equal. f_equal.
    + apply tabulate_ext. intros p Hp. by rewrite decide_True by lia.
    + rewrite length_app, length_take. simpl. rewrite length_drop. lia.
  - intros Hhow. destruct (idx =? length l).
    + unfold slots_touched. simpl. rewrite Hhow. by destruct how.
    + destruct how as [|src|src]; [done| |done].
      unfold slots_touched. simpl. simpl in Hhow. by rewrite Hhow.
Qed.

(** C10.  Whenever [spillover] runs on an inline object whose first
    [min size_ STATIC_AMOUNT] slots are live, it reads and destructs
    inline slots below both [size_] and [STATIC_AMOUNT] only, moves exactly
    the elements of those slots into the vector, in order, and leaves the
    other slots alone.  (With a capacity above the vector's [max_size()]
    the vector refuses the reservation: [spillover] throws before its
    loop and has touched no slot.)  So when [insert] or [emplace] has
    incremented [size_] to [STATIC_AMOUNT + 1] before the spill, the
    [STATIC_AMOUNT] original elements are migrated and the whole call
    yields the elements with the new one at its index. *)
Theorem spillover_touches_live_slots_only (o : SVec) l capacity tr :
  vec_ o = None → length (arr_ o) = STATIC_AMOUNT →
  STATIC_AMOUNT ≤ capacity →
  take (size_ o `min` STATIC_AMOUNT) (arr_ o) = Some <$> l →
  ((N.of_nat capacity ≤ vector_max_size)%N →
   ∃ evs,
     spillover capacity (Machine o tr)
     = Done tt (Machine
         (SV (replicate (length l) None ++ drop (length l) (arr_ o))
             (Some (Vector l capacity)) (size_ o))
         (tr ++ evs)) ∧
     Forall (λ i, i < size_ o ∧ i < STATIC_AMOUNT) (slots_touched evs)) ∧
  ((vector_max_size < N.of_nat capacity)%N →
   spillover capacity (Machine o tr)
   = Throw length_error
       (Machine (SV (arr_ o) (Some (Vector [] 0)) (size_ o)) tr)) ∧
  (size_ o = STATIC_AMOUNT + 1 →
   length l = STATIC_AMOUNT ∧
   ∀ idx value, idx ≤ STATIC_AMOUNT →
     ∃ evs1 evs2,
       insert idx (Outside value) (Machine (inline_of l : SVec) tr)
       = Done idx
           (Machine (spilled_of (take idx l ++ value :: drop idx l)
                       (STATIC_AMOUNT + 1))
              (tr ++ evs1)) ∧
       emplace idx (Outside value) (Machine (inline_of l : SVec) tr)
       = Done idx
           (Machine (spilled_of (take idx l ++ value :: drop idx l)
                       (STATIC_AMOUNT + 1))
              (tr ++ evs2)) ∧
       Forall (λ i, i < STATIC_AMOUNT) (slots_touched evs1) ∧
       Forall (λ i, i < STATIC_AMOUNT) (slots_touched evs2)).
Proof.
  intros Hvec Harr Hcap Hl.
  assert (Hlen : length l = size_ o `min` STATIC_AMOUNT).
  { rewrite <- (length_fmap Some), <- Hl, length_take. lia. }
  split_and!.
  - intros Hmax.
    exists (spill_events (length l)). split; [by apply spillover_spec|].
    eapply Forall_impl; [apply spill_events_slots_bounded|].
    simpl. intros i Hi. lia.
  - by apply spillover_refused.
  - intros Hsz. split; [lia|]. intros idx value Hidx.
    destruct (insert_with_full (ByMove Caller) idx value l tr)
      as (e1 & E1 & He1); [lia|done|].
    destruct (insert_with_full FromArgs idx value l tr)
      as (e2 & E2 & He2); [lia|done|].
    exists (spill_events STATIC_AMOUNT ++ e1),
           (spill_events STATIC_AMOUNT ++ e2).
    split_and!; [done|done| |].
    all: unfold slots_touched; rewrite flat_map_app; apply Forall_app;
      split; [apply spill_events_slots_bounded|].
    + fold (slots_touched e1). by rewrite He1.
    + fold (slots_touched e2). by rewrite He2.
Qed.

End Spillover_claim.

(** ** Appending one element *)

Section Push_back_facts.
Context {T : Type} `{ElemType T} {STATIC_AMOUNT : nat}.
Context `{!InlineFits T STATIC_AMOUNT}.
Local Abbreviation SVec := (SmallVector T STATIC_AMOUNT).
Local Abbreviation tab := (@tabulate T STATIC_AMOUNT).
Implicit Types (l : list T) (f g : nat → option T) (tr : list event).

Lemma lookup_snoc l (x : T) p :
  (l ++ [x]) !! p = if decide (p = length l) then Some x else l !! p.
Proof.
  case_decide as Hp.
  - subst. by rewrite list_lookup_middle.
  - destruct (decide (p < length l)).
    + by rewrite lookup_app_l.
    + rewrite !lookup_ge_None_2; [done|lia|rewrite length_app; simpl; lia].
Qed.

(** Inline with room: the element is constructed in the next free slot and
    nothing else happens. *)
Lemma push_back_inline how x l tr :
  length l < STATIC_AMOUNT →
  push_back_with how x (Machine (inline_of l : SVec) tr)
  = Done tt (Machine (inline_of (l ++ [x]))
               (tr ++ [construct_event how (Inline (length l))])).
Proof.
  intros Hl. rewrite !inline_of_tabulate by (rewrite ?length_app; simpl; lia).
  unfold push_back_with, push_back_from.
  erewrite bind_Done; [|reflexivity]. cbn [obj size_ is_vector vec_ negb].
  destruct (Nat.leb_spec STATIC_AMOUNT (length l)); [lia|].
  erewrite bind_Done; [|by apply construct_at_tab].
  erewrite bind_Done; [|reflexivity]. cbn [obj size_].
  rewrite set_size_run. cbn [arr_ vec_]. rewrite length_app. simpl.
  do 2 f_equal. f_equal. apply tabulate_ext. intros p _.
  by rewrite lookup_snoc.
Qed.

(** Inline and full: the elements spill over and the new one follows them
    into the vector. *)
Lemma push_back_full how x l tr :
  length l = STATIC_AMOUNT →
  push_back_with how x (Machine (inline_of l : SVec) tr)
  = Done tt (Machine (spilled_of (l ++ [x]) (STATIC_AMOUNT + 1))
               (tr ++ spill_events STATIC_AMOUNT ++ [construct_event how Heap])).
Proof.
  intros Hl. rewrite inline_of_tabulate by lia. rewrite spilled_of_tabulate.
  unfold push_back_with, push_back_from.
  erewrite bind_Done; [|reflexivity]. cbn [obj size_ is_vector vec_ negb].
  destruct (Nat.leb_spec STATIC_AMOUNT (length l)); [|lia].
  erewrite bind_Done.
  2: { erewrite bind_Done;
         [|apply (spillover_run _ l);
           [lia|done|lia|rewrite Hl; apply spill_fits]].
       apply (vec_call_run _ _ _ _ _ tt
                (Vector (l ++ [x]) (length l + 1))
                [construct_event how Heap]).
       unfold vec_push_back. simpl.
       destruct (Nat.ltb_spec (length l) (length l + 1)); [done|lia]. }
  erewrite bind_Done; [|reflexivity]. cbn [obj size_].
  rewrite set_size_run. cbn [arr_ vec_].
  rewrite length_app, Hl, <- app_assoc. simpl.
  do 2 f_equal. f_equal. apply tabulate_ext. intros p _.
  case_decide; [done|]. apply lookup_ge_None_2. lia.
Qed.

(** Spilled: the vector appends, growing if it is full. *)
Lemma push_back_spilled how x l cap tr :
  push_back_with how x (Machine (spilled_of l cap : SVec) tr)
  = Done tt (Machine
      (spilled_of (l ++ [x])
         (if length l <? cap then cap else length l + length l `max` 1))
      (tr ++ if length l <? cap then [construct_event how Heap]
             else construct_event how Heap :: relocate (length l))).
Proof.
  unfold push_back_with, push_back_from, spilled_of.
  erewrite bind_Done; [|reflexivity]. cbn [obj size_ is_vector vec_ negb].
  erewrite bind_Done.
  2: { apply (vec_call_run _ _ _ _ _ tt
         (Vector (l ++ [x])
            (if length l <? cap then cap else length l + length l `max` 1))
         (if length l <? cap then [construct_event how Heap]
          else construct_event how Heap :: relocate (length l))).
       unfold vec_push_back. cbn [elems vcapacity].
       destruct (length l <? cap); reflexivity. }
  erewrite bind_Done; [|reflexivity]. cbn [obj size_].
  rewrite set_size_run. cbn [arr_ vec_]. rewrite length_app. simpl.
  destruct (length l <? cap); reflexivity.
Qed.

(** On any well-formed container: the element is appended, the container
    stays well formed, it stays inline exactly if there was room, and one
    more object is alive than before. *)
Lemma push_back_with_spec how x (o : SVec) tr :
  wf o →
  ∃ o' evs,
    push_back_with how x (Machine o tr) = Done tt (Machine o' (tr ++ evs)) ∧
    wf o' ∧ contents o' = contents o ++ [x] ∧
    is_array o' = is_array o && (length (contents o) <? STATIC_AMOUNT) ∧
    constructions evs = destructor_count evs + 1.
Proof.
  intros [(l & Hl & ->)|(l & cap & Hl & ->)]%wf_normal_form.
  - destruct (decide (length l < STATIC_AMOUNT)).
    + eexists _, _. split; [by apply push_back_inline|].
      rewrite !contents_inline_of. split_and!; [|done| |].
      * apply wf_inline_of. rewrite length_app. simpl. lia.
      * by destruct (Nat.ltb_spec (length l) STATIC_AMOUNT); [|lia].
      * by destruct how.
    + eexists _, _. split; [apply push_back_full; lia|].
      rewrite contents_inline_of. split_and!; [|done| |].
      * apply wf_spilled_of. rewrite length_app. simpl. lia.
      * by destruct (Nat.ltb_spec (length l) STATIC_AMOUNT); [lia|].
      * rewrite constructions_app, destructor_count_app.
        destruct (tally_spill_events STATIC_AMOUNT) as [-> ->].
        destruct (tally_construct_event how Heap) as [-> ->]. lia.
  - eexists _, _. split; [apply push_back_spilled|].
    split_and!; [|done|done|].
    + apply wf_spilled_of. rewrite length_app. simpl.
      destruct (Nat.ltb_spec (length l) cap); lia.
    + destruct (length l <? cap); [by destruct how|].
      change (construct_event how Heap :: relocate (length l))
        with ([construct_event how Heap] ++ relocate (length l)).
      rewrite constructions_app, destructor_count_app.
      destruct (tally_relocate (length l)) as [-> ->].
      destruct (tally_construct_event how Heap) as [-> ->]. lia.
Qed.

Lemma fresh_inline_of : (fresh : SVec) = inline_of [].
Proof. unfold fresh, inline_of. simpl. by rewrite Nat.sub_0_r. Qed.

Lemma wf_fresh : wf (fresh : SVec).
Proof. rewrite fresh_inline_of. apply wf_inline_of. simpl. lia. Qed.

Lemma is_array_inline_of l : is_array (inline_of l : SVec) = true.
Proof. done. Qed.

Lemma wf_is_array_length (o : SVec) :
  wf o → is_array o = true → length (contents o) ≤ STATIC_AMOUNT.
Proof.
  intros [(l & Hl & ->)|(l & cap & Hl & ->)]%wf_normal_form; [|done].
  by rewrite contents_inline_of.
Qed.

(** A sequence of pushes appends its values in order; the container is
    inline afterwards exactly if it was inline before and everything
    fits. *)
Lemma pushes_spec vals :
  ∀ (o : SVec) tr, wf o →
  ∃ o' evs,
    pushes vals (Machine o tr) = Done tt (Machine o' (tr ++ evs)) ∧
    wf o' ∧ contents o' = contents o ++ vals.*2 ∧
    is_array o'
    = is_array o &&
      bool_decide (length (contents o) + length vals ≤ STATIC_AMOUNT) ∧
    constructions evs = destructor_count evs + length vals.
Proof.
  induction vals as [|[how x] vals IH]; intros o tr Hwf.
  - exists o, []. rewrite !app_nil_r. split_and!; [done..| |done].
    destruct (is_array o) eqn:Ha; [|done]. simpl.
    rewrite bool_decide_eq_true_2; [done|].
    apply wf_is_array_length in Ha; [|done]. simpl. lia.
  - destruct (push_back_with_spec how x o tr Hwf)
      as (o1 & evs1 & E1 & Hwf1 & Hc1 & Ha1 & Ht1).
    destruct (IH o1 (tr ++ evs1) Hwf1)
      as (o2 & evs2 & E2 & Hwf2 & Hc2 & Ha2 & Ht2).
    exists o2, (evs1 ++ evs2). cbn [pushes].
    erewrite bind_Done by done. rewrite E2, app_assoc.
    split_and!; [done|done| | |].
    + rewrite Hc2, Hc1, <- app_assoc. done.
    + rewrite Ha2, Ha1, Hc1, length_app. clear. simpl.
      destruct (is_array o); [|done]. simpl.
      destruct (Nat.ltb_spec (length (contents o)) STATIC_AMOUNT); simpl.
      * apply bool_decide_ext. lia.
      * symmetry. apply bool_decide_eq_false_2. lia.
    + rewrite constructions_app, destructor_count_app. simpl. lia.
Qed.

End Push_back_facts.

(** ** The default inline capacity *)

Section Static_size.
Import StaticSize.
Local Open Scope Z_scope.

Lemma size_t_mul_small a b : 0 ≤ a * b < 2 ^ 64 → size_t_mul a b = a * b.
Proof. intros. unfold size_t_mul. by apply Z.mod_small. Qed.

(** C8 as stated fails: for a type of 2^61 + 1024 bytes the product
    [FALLBACK_SIZE * size_of_t] wraps to 8192, which passes for a buffer
    within the budget; the capacity is 8, where the larger of 1 and
    [10240 / size_of_t] is 1. *)
Lemma calculate_static_size_wraps :
  let size_of_t := 2 ^ 61 + 1024 in
  64 < size_of_t ∧ 10240 < 8 * size_of_t ∧
  Z.max 1 (10240 / size_of_t) = 1 ∧
  size_t_mul 8 size_of_t = 8192 ∧
  calculate_static_size size_of_t = Some 8.
Proof. by vm_compute. Qed.

(** C8, amended.  For an element type of [size_of_t] bytes (below 2^61, so
    that the byte count [8 * size_of_t] is representable) the default
    inline capacity is [64 / size_of_t] when the type fits in a cache line of 64
    bytes; otherwise it is 8, unless [8 * size_of_t] exceeds the budget of
    10240 bytes, in which case it is the larger of 1 and
    [10240 / size_of_t]. *)
Theorem calculate_static_size_spec (size_of_t : Z) :
  0 < size_of_t < 2 ^ 61 →
  calculate_static_size size_of_t
  = Some (if size_of_t <=? 64 then 64 / size_of_t
          else if 8 * size_of_t <=? 10240 then 8
          else Z.max 1 (10240 / size_of_t)).
Proof.
  intros Hs. unfold calculate_static_size.
  destruct (Z.eqb_spec size_of_t 0) as [|_]; [lia|].
  unfold CACHE_LINE_SIZE_BYTES, FALLBACK_SIZE, MAX_SIZE_BYTES.
  destruct (size_of_t <=? 64); [done|].
  rewrite size_t_mul_small by lia.
  destruct (8 * size_of_t <=? 10240); [done|].
  f_equal.
  assert (0 ≤ 10240 / size_of_t) by (apply Z.div_pos; lia).
  destruct (Z.eqb_spec (10240 / size_of_t) 0); lia.
Qed.

Lemma calculate_static_size_spec_witness :
  0 < 4 < 2 ^ 61 ∧ calculate_static_size 4 = Some 16.
Proof. split; [lia|]. apply (calculate_static_size_spec 4). lia. Defined.

End Static_size.

(** ** The storage mode is never taken back *)

Section One_way.
Context {T : Type} `{ElemType T} {STATIC_AMOUNT : nat}.
Context `{!InlineFits T STATIC_AMOUNT}.
Local Abbreviation SVec := (SmallVector T STATIC_AMOUNT).
Local Abbreviation store := (gmap nat (SmallVector T STATIC_AMOUNT)).
Local Abbreviation keeps_vector :=
  (keeps_vector (T:=T) (STATIC_AMOUNT:=STATIC_AMOUNT)).
Local Abbreviation keeps_store :=
  (keeps_store (T:=T) (STATIC_AMOUNT:=STATIC_AMOUNT)).
Local Abbreviation stays_spilled :=
  (stays_spilled (T:=T) (STATIC_AMOUNT:=STATIC_AMOUNT)).

Lemma keeps_bind {A B} (m : M SVec A) (k : A → M SVec B) :
  keeps_vector m → (∀ a, keeps_vector (k a)) → keeps_vector (bind m k).
Proof.
  intros Hm Hk s Hs. unfold bind. specialize (Hm s Hs).
  destruct (m s) as [a s'| |]; [|done|done]. by apply Hk.
Qed.

Lemma keeps_ret {A} (a : A) : keeps_vector (ret a : M SVec A).
Proof. by intros s Hs. Qed.

Lemma keeps_get : keeps_vector (get : M SVec SVec).
Proof. by intros s Hs. Qed.

Lemma keeps_gets {A} (f : SVec → A) : keeps_vector (gets f).
Proof. by intros s Hs. Qed.

Lemma keeps_log evs : keeps_vector (log evs : M SVec unit).
Proof. by intros s Hs. Qed.

Lemma keeps_throw {A} e : keeps_vector (throw e : M SVec A).
Proof. by intros s Hs. Qed.

Lemma keeps_undefined {A} : keeps_vector (undefined : M SVec A).
Proof. by intros s Hs. Qed.

Lemma keeps_assert b : keeps_vector (assert b : M SVec unit).
Proof. by destruct b; intros s Hs. Qed.

Lemma keeps_set_arr_ a : keeps_vector (set_arr_ a : M SVec _).
Proof. by intros s Hs. Qed.

Lemma keeps_set_size_ n : keeps_vector (set_size_ n : M SVec _).
Proof. by intros s Hs. Qed.

Lemma keeps_set_vec_ v : keeps_vector (set_vec_ (Some v) : M SVec _).
Proof. by intros s Hs. Qed.

Lemma keeps_for_up lo n (body : nat → M SVec unit) :
  (∀ i, keeps_vector (body i)) → keeps_vector (for_up lo n body).
Proof.
  intros Hb. revert lo. induction n as [|n IH]; intros lo; simpl.
  - apply keeps_ret.
  - apply keeps_bind; [apply Hb|intros _; apply IH].
Qed.

Lemma keeps_for_down lo n (body : nat → M SVec unit) :
  (∀ i, keeps_vector (body i)) → keeps_vector (for_down lo n body).
Proof.
  intros Hb. induction n as [|n IH]; simpl.
  - apply keeps_ret.
  - apply keeps_bind; [apply Hb|intros _; apply IH].
Qed.

(** Decomposes a goal [keeps_vector m] along the structure of [m]. *)
Ltac keeps_step :=
  first
    [ apply keeps_ret | apply keeps_get | apply keeps_gets | apply keeps_log
    | apply keeps_throw | apply keeps_undefined | apply keeps_assert
    | apply keeps_set_arr_ | apply keeps_set_size_ | apply keeps_set_vec_
    | apply keeps_bind; [|intros ?]
    | apply keeps_for_up; intros ?
    | apply keeps_for_down; intros ?
    | match goal with
      | |- keeps_vector (match ?x with _ => _ end) => destruct x
      end ].

Ltac keeps := repeat keeps_step.

Create HintDb keeps discriminated.

Lemma keeps_vec_call {A} (op : vec_op T A) : keeps_vector (vec_call op : M SVec _).
Proof. unfold vec_call. keeps. Qed.

Lemma keeps_get_arr_element i : keeps_vector (get_arr_element i : M SVec _).
Proof. unfold get_arr_element. keeps. Qed.

Lemma keeps_construct_at i how v : keeps_vector (construct_at i how v : M SVec _).
Proof. unfold construct_at. keeps. Qed.

Lemma keeps_destroy_at i : keeps_vector (destroy_at i : M SVec _).
Proof. unfold destroy_at. keeps. Qed.

Lemma keeps_mark_moved i v : keeps_vector (mark_moved i v : M SVec _).
Proof. unfold mark_moved. keeps. Qed.

#[local] Hint Resolve keeps_vec_call keeps_get_arr_element keeps_construct_at
  keeps_destroy_at keeps_mark_moved : keeps.

Lemma keeps_move_construct_at dst src :
  keeps_vector (move_construct_at dst src).
Proof. unfold move_construct_at. keeps; auto with keeps. Qed.

Lemma keeps_spillover capacity : keeps_vector (spillover capacity : M SVec _).
Proof. unfold spillover. keeps; auto with keeps. Qed.

#[local] Hint Resolve keeps_move_construct_at keeps_spillover : keeps.

Lemma keeps_operator_index i : keeps_vector (operator_index i : M SVec _).
Proof. unfold operator_index. keeps; auto with keeps. Qed.

Lemma keeps_move_out i : keeps_vector (move_out i : M SVec _).
Proof. unfold move_out. keeps; auto with keeps. Qed.

Lemma keeps_reserve n : keeps_vector (reserve n : M SVec _).
Proof. unfold reserve. keeps; auto with keeps. Qed.

Lemma keeps_shrink_to_fit : keeps_vector (shrink_to_fit : M SVec _).
Proof. unfold shrink_to_fit. keeps; auto with keeps. Qed.

Lemma keeps_clear : keeps_vector (clear : M SVec _).
Proof. unfold clear. keeps; auto with keeps. Qed.

Lemma keeps_deref b i : keeps_vector (deref b i : M SVec _).
Proof. unfold deref. keeps; auto using keeps_operator_index. Qed.

Lemma keeps_read b r : keeps_vector (read b r : M SVec _).
Proof. destruct r; simpl; [apply keeps_ret|apply keeps_deref]. Qed.

Lemma keeps_move_from b r : keeps_vector (move_from b r : M SVec _).
Proof. destruct r; simpl; keeps; auto with keeps. Qed.

Lemma keeps_push_back_from how val :
  keeps_vector val → keeps_vector (push_back_from how val : M SVec _).
Proof. intros Hval. unfold push_back_from. keeps; auto with keeps. Qed.

Lemma keeps_push_back_with how val : keeps_vector (push_back_with how val : M SVec _).
Proof. apply keeps_push_back_from, keeps_ret. Qed.

Lemma keeps_insert_from how idx val :
  keeps_vector val → keeps_vector (insert_from how idx val : M SVec _).
Proof. intros Hval. unfold insert_from. keeps; auto with keeps. Qed.

Lemma keeps_insert_with how idx val : keeps_vector (insert_with how idx val : M SVec _).
Proof. apply keeps_insert_from, keeps_ret. Qed.

Lemma keeps_insert_copy idx val : keeps_vector (insert_copy idx val : M SVec _).
Proof.
  unfold insert_copy. keeps; auto using keeps_insert_with, keeps_read.
Qed.

Lemma keeps_erase idx : keeps_vector (erase idx : M SVec _).
Proof. unfold erase. keeps; auto with keeps. Qed.

Lemma keeps_erase_range first_idx last_idx :
  keeps_vector (erase_range first_idx last_idx).
Proof. unfold erase_range. keeps; auto with keeps. Qed.

Lemma keeps_pop_back : keeps_vector (pop_back : M SVec _).
Proof. unfold pop_back. keeps; auto using keeps_erase. Qed.

Lemma keeps_resize_with append_one count :
  keeps_vector append_one → keeps_vector (resize_with append_one count).
Proof.
  intros Ha. unfold resize_with.
  keeps; auto using keeps_erase_range, keeps_reserve.
Qed.

Lemma keeps_push_back val : keeps_vector (push_back val : M SVec _).
Proof.
  unfold push_back. keeps; auto using keeps_read, keeps_move_from with keeps.
Qed.

Lemma keeps_push_back_move val : keeps_vector (push_back_move val : M SVec _).
Proof.
  unfold push_back_move.
  keeps; auto using keeps_read, keeps_move_from with keeps.
Qed.

Lemma keeps_emplace_back val : keeps_vector (emplace_back val : M SVec _).
Proof.
  unfold emplace_back.
  keeps; auto using keeps_read, keeps_move_from with keeps.
Qed.

Lemma keeps_insert idx val : keeps_vector (insert idx val : M SVec _).
Proof.
  unfold insert. keeps; auto using keeps_read, keeps_move_from with keeps.
Qed.

Lemma keeps_emplace idx val : keeps_vector (emplace idx val : M SVec _).
Proof.
  unfold emplace. keeps; auto using keeps_read, keeps_move_from with keeps.
Qed.

Lemma keeps_resize count : keeps_vector (resize count : M SVec _).
Proof. apply keeps_resize_with, keeps_emplace_back. Qed.

Lemma keeps_resize_value count val : keeps_vector (resize_value count val : M SVec _).
Proof.
  unfold resize_value. apply keeps_bind; [apply keeps_gets|intros b].
  apply keeps_resize_with, keeps_push_back_from, keeps_read.
Qed.

Lemma stays_spilled_refl w : stays_spilled w w.
Proof. intros a o Ho Hv. eauto. Qed.

Lemma stays_spilled_trans w1 w2 w3 :
  stays_spilled w1 w2 → stays_spilled w2 w3 → stays_spilled w1 w3.
Proof.
  intros H12 H23 a o Ho Hv.
  destruct (H12 a o Ho Hv) as (o2 & Ho2 & Hv2). eauto.
Qed.

Lemma keeps_store_ret {A} (a : A) : keeps_store (ret a : M store A).
Proof. intros w. apply stays_spilled_refl. Qed.

Lemma keeps_store_bind {A B} (m : M store A) (k : A → M store B) :
  keeps_store m → (∀ a, keeps_store (k a)) → keeps_store (bind m k).
Proof.
  intros Hm Hk w. unfold bind. specialize (Hm w).
  destruct (m w) as [a w1| |]; [|done|done].
  specialize (Hk a w1).
  destruct (k a w1); [| |done]; by eapply stays_spilled_trans.
Qed.

Lemma keeps_store_for_up lo n (body : nat → M store unit) :
  (∀ i, keeps_store (body i)) → keeps_store (for_up lo n body).
Proof.
  intros Hb. revert lo. induction n as [|n IH]; intros lo; simpl.
  - apply keeps_store_ret.
  - apply keeps_store_bind; [apply Hb|intros _; apply IH].
Qed.

Lemma keeps_store_at_obj {A} a (m : M SVec A) :
  keeps_vector m → keeps_store (at_obj a m).
Proof.
  intros Hm w. unfold at_obj.
  destruct (obj w !! a) as [o|] eqn:Ho; [|done].
  specialize (Hm (Machine o (trace w))). simpl in Hm.
  destruct (m _) as [r s'|e s'|]; [| |done]; simpl.
  all: intros b ob Hob Hv; destruct (decide (a = b)) as [->|Hne];
    [rewrite lookup_insert_eq; eexists; split; [done|];
     apply Hm; congruence
    |rewrite lookup_insert_ne by done; eauto].
Qed.

Ltac keeps_store_step :=
  first
    [ apply keeps_store_ret
    | apply keeps_store_at_obj
    | apply keeps_store_bind; [|intros ?]
    | apply keeps_store_for_up; intros ?
    | match goal with
      | |- keeps_store (match ?x with _ => _ end) => destruct x
      end ].

Lemma keeps_store_append this other : keeps_store (append this other).
Proof.
  unfold append, push_back_of. repeat keeps_store_step;
    auto using keeps_gets, keeps_reserve, keeps_deref, keeps_push_back,
      keeps_push_back_from.
Qed.

Lemma keeps_store_append_move this other :
  keeps_store (append_move this other).
Proof.
  unfold append_move. repeat keeps_store_step;
    auto using keeps_gets, keeps_reserve, keeps_move_out,
      keeps_push_back_move, keeps_clear.
Qed.

Lemma keeps_store_call this m : keeps_store (call this m).
Proof.
  destruct m; simpl;
    try apply keeps_store_append; try apply keeps_store_append_move;
    repeat keeps_store_step;
    auto using keeps_push_back, keeps_push_back_move, keeps_emplace_back,
      keeps_insert, keeps_insert_copy, keeps_emplace, keeps_erase,
      keeps_erase_range, keeps_pop_back, keeps_clear, keeps_resize,
      keeps_resize_value, keeps_reserve, keeps_shrink_to_fit.
Qed.

Lemma keeps_store_calls this ms : keeps_store (calls this ms).
Proof.
  induction ms as [|m ms IH]; simpl.
  - apply keeps_store_ret.
  - apply keeps_store_bind; [apply keeps_store_call|done].
Qed.

(** C3, amended.  Starting from a default-constructed container, after any
    sequence of [push_back]/[emplace_back] calls the container holds the
    pushed values, and it is in inline mode ([is_array] true, [is_vector]
    false) exactly if their number is at most [STATIC_AMOUNT]: the push that
    makes the length exceed [STATIC_AMOUNT] switches to spilled mode.  Once
    spilled, the container stays spilled under every sequence of
    [push_back], [emplace_back], [insert], [emplace], [erase], [pop_back],
    [clear], [resize], [reserve], [shrink_to_fit] and [append] calls,
    whether the last call returns or throws.  ([swap] and the assignment
    are not covered: they take the storage mode of the other
    container.) *)
Theorem storage_mode_one_way :
  (∀ vals : list (source * T),
     ∃ o tr,
       run (pushes vals) (fresh : SVec) = Done tt (Machine o tr) ∧
       contents o = vals.*2 ∧ size_ o = length vals ∧
       is_array o = bool_decide (length vals ≤ STATIC_AMOUNT) ∧
       is_vector o = negb (is_array o)) ∧
  (∀ (w : store) tr this ms o,
     w !! this = Some o → is_vector o = true →
     match calls this ms (Machine w tr) with
     | Done _ w' | Throw _ w' =>
         ∃ o', obj w' !! this = Some o' ∧
               is_vector o' = true ∧ is_array o' = false
     | Fault _ => True
     end).
Proof.
  split.
  - intros vals.
    destruct (pushes_spec vals (fresh : SVec) [] wf_fresh)
      as (o & evs & E & Hwf & Hc & Ha & _).
    exists o, evs. rewrite fresh_inline_of, contents_inline_of in *.
    simpl in *. split_and!; [done|done| |done|].
    + by rewrite (wf_size o), Hc, length_fmap.
    + unfold is_array. by rewrite negb_involutive.
  - intros w tr this ms o Ho Hv.
    pose proof (keeps_store_calls this ms (Machine w tr)) as Hk.
    destruct (calls this ms _) as [r w'|e w'|]; [| |done].
    all: destruct (Hk this o Ho Hv) as (o' & Ho' & Hv'); exists o';
      unfold is_array; by rewrite Hv'.
Qed.

End One_way.

(** ** Clearing, construction and destruction *)

Section Lifetime_facts.
Context {T : Type} `{ElemType T} {STATIC_AMOUNT : nat}.
Context `{!InlineFits T STATIC_AMOUNT}.
Local Abbreviation SVec := (SmallVector T STATIC_AMOUNT).
Local Abbreviation tab := (@tabulate T STATIC_AMOUNT).
Implicit Types (l : list T) (tr evs : list event) (q : event → bool).

Lemma clear_inline l tr :
  length l ≤ STATIC_AMOUNT →
  clear (Machine (inline_of l : SVec) tr)
  = Done tt (Machine fresh (tr ++ clear_events (length l))).
Proof.
  intros Hl. rewrite inline_of_tabulate by done. unfold clear.
  erewrite bind_Done; [|reflexivity]. cbn [obj size_ is_vector vec_].
  pose (O := λ j, SV (tab (λ p, if decide (p < j) then l !! p else None))
                     None (length l) : SVec).
  assert (E0 : SV (tab (λ p, l !! p)) None (length l) = O (length l)).
  { unfold O. f_equal. apply tabulate_ext. intros p _.
    case_decide; [done|]. apply lookup_ge_None_2. lia. }
  rewrite E0.
  erewrite bind_Done.
  2: { apply (for_down_states O (λ j, [Destruct (Inline (j - 1))])).
       intros j tr' Hj. unfold O.
       destruct (lookup_lt_is_Some_2 l j) as [v Hv]; [lia|].
       replace (0 + S j - 1) with j by lia.
       replace (S j - 1) with j by lia.
       erewrite (destroy_at_tab _ _ _ _ _ v);
         [|lia|rewrite decide_True by lia; done].
       do 2 f_equal. f_equal. apply tabulate_ext. intros p _.
       repeat case_decide; done || lia. }
  rewrite set_size_run. unfold O, fresh, clear_events. cbn [arr_ vec_].
  do 2 f_equal. f_equal. rewrite <- tabulate_dead.
  apply tabulate_ext. intros p _. case_decide; [lia|done].
Qed.

Lemma clear_spilled l cap tr :
  clear (Machine (spilled_of l cap : SVec) tr)
  = Done tt (Machine (spilled_of [] cap)
               (tr ++ replicate (length l) (Destruct Heap))).
Proof. reflexivity. Qed.

(** [clear()] empties any well-formed container and keeps its mode. *)
Lemma clear_spec (o : SVec) tr :
  wf o →
  ∃ o' evs,
    clear (Machine o tr) = Done tt (Machine o' (tr ++ evs)) ∧
    wf o' ∧ contents o' = [] ∧ size_ o' = 0 ∧
    is_vector o' = is_vector o ∧
    constructions evs = 0 ∧ destructor_count evs = length (contents o).
Proof.
  intros [(l & Hl & ->)|(l & cap & Hl & ->)]%wf_normal_form.
  - eexists _, _. split; [by apply clear_inline|].
    rewrite contents_inline_of.
    split_and!; [apply wf_fresh|done|done|done| |].
    + unfold constructions, constructor_count, copy_count, move_count,
        clear_events.
      by rewrite !count_events_none.
    + unfold destructor_count, clear_events.
      rewrite count_events_all by done. by rewrite length_rev, length_seq.
  - eexists _, _. split; [apply clear_spilled|].
    split_and!; [apply wf_spilled_of; simpl; lia|done..| |].
    + unfold constructions, constructor_count, copy_count, move_count.
      by rewrite !count_events_replicate.
    + unfold destructor_count. by rewrite count_events_replicate.
Qed.

(** The destructor of a well-formed container leaves raw storage and no
    vector; it destroys as many objects as the container holds and
    constructs none. *)
Lemma destructor_spec (o : SVec) tr :
  wf o →
  ∃ evs,
    destructor (Machine o tr) = Done tt (Machine fresh (tr ++ evs)) ∧
    constructions evs = 0 ∧ destructor_count evs = length (contents o).
Proof.
  intros [(l & Hl & ->)|(l & cap & Hl & ->)]%wf_normal_form.
  - exists (clear_events (length l)). unfold destructor.
    erewrite bind_Done; [|by apply clear_inline].
    rewrite contents_inline_of. split_and!; [done| |].
    + unfold constructions, constructor_count, copy_count, move_count,
        clear_events.
      by rewrite !count_events_none.
    + unfold destructor_count, clear_events.
      rewrite count_events_all by done. by rewrite length_rev, length_seq.
  - exists (replicate (length l) (Destruct Heap)). unfold destructor.
    erewrite bind_Done; [|by apply clear_spilled].
    split_and!.
    + unfold destroy_members, spilled_of, fresh, bind, get, log, set_vec_, put.
      simpl. by rewrite app_nil_r.
    + unfold constructions, constructor_count, copy_count, move_count.
      by rewrite !count_events_replicate.
    + unfold destructor_count. by rewrite count_events_replicate.
Qed.



(** [reserve] beyond the inline capacity on an empty inline container. *)
Lemma reserve_fresh n tr :
  STATIC_AMOUNT < n → (N.of_nat n ≤ vector_max_size)%N →
  reserve n (Machine (fresh : SVec) tr)
  = Done tt (Machine (spilled_of [] n) tr).
Proof.
  intros Hn Hmax. unfold reserve.
  erewrite bind_Done; [|reflexivity].
  destruct (Nat.leb_spec n STATIC_AMOUNT); [lia|].
  cbn [obj fresh is_vector vec_ negb].
  unfold fresh. rewrite <- tabulate_dead.
  rewrite (spillover_run _ []); [|done|simpl; lia|lia|done].
  rewrite spilled_of_tabulate. simpl. rewrite app_nil_r.
  do 2 f_equal.
Qed.

Lemma reserve_small n (s : machine SVec) :
  n ≤ STATIC_AMOUNT → reserve n s = Done tt s.
Proof.
  intros Hn. unfold reserve. erewrite bind_Done; [|reflexivity].
  by destruct (Nat.leb_spec n STATIC_AMOUNT); [|lia].
Qed.

(** A request that the vector refuses is above the inline capacity. *)
Lemma refused_above_inline n :
  (vector_max_size < N.of_nat n)%N → STATIC_AMOUNT < n.
Proof. pose proof (inline_fits (T:=T) (STATIC_AMOUNT:=STATIC_AMOUNT)). lia. Qed.

(** [reserve] with a request that the vector refuses.  A spilled container
    is left as it was; in an inline one [spillover] has already engaged
    the optional when the vector throws, and the elements stay behind in
    the inline buffer. *)
Lemma reserve_refused n (o : SVec) tr :
  (vector_max_size < N.of_nat n)%N →
  reserve n (Machine o tr)
  = Throw length_error
      (Machine (if is_vector o then o
                else SV (arr_ o) (Some (Vector [] 0)) (size_ o)) tr).
Proof.
  intros Hmax. pose proof (refused_above_inline n Hmax) as Hn.
  unfold reserve. erewrite bind_Done; [|reflexivity].
  destruct (Nat.leb_spec n STATIC_AMOUNT); [lia|]. cbn [obj].
  destruct o as [arr [v|] sz]; cbn [is_vector vec_ negb].
  - apply vec_call_throw. by apply vec_reserve_refused.
  - apply spillover_refused; [done|lia|done].
Qed.

(** A growing [resize] that [max_size()] allows and the vector refuses
    ends in the [reserve]. *)
Lemma resize_with_refused append_one count (o : SVec) tr :
  size_ o < count → (N.of_nat count ≤ max_size)%N →
  (vector_max_size < N.of_nat count)%N →
  resize_with append_one count (Machine o tr)
  = Throw length_error
      (Machine (if is_vector o then o
                else SV (arr_ o) (Some (Vector [] 0)) (size_ o)) tr).
Proof.
  intros Hgrow Hmax Hvmax. unfold resize_with.
  erewrite bind_Done; [|reflexivity]. cbn [obj].
  destruct (Nat.eqb_spec count (size_ o)); [lia|].
  destruct (N.ltb_spec max_size (N.of_nat count)); [lia|].
  destruct (Nat.ltb_spec count (size_ o)); [lia|].
  erewrite bind_Throw; [done|]. by apply reserve_refused.
Qed.



End Lifetime_facts.

(** ** Erasing a range *)

Section Erase_facts.
Context {T : Type} `{ElemType T} {STATIC_AMOUNT : nat}.
Context `{!InlineFits T STATIC_AMOUNT}.
Local Abbreviation SVec := (SmallVector T STATIC_AMOUNT).
Local Abbreviation tab := (@tabulate T STATIC_AMOUNT).
Implicit Types (l : list T) (f g : nat → option T) (tr : list event).

Lemma size_t_sub_le a b : b ≤ a → size_t_sub a b = a - b.
Proof.
  intros. unfold size_t_sub. by destruct (Nat.leb_spec b a); [|lia].
Qed.

Lemma lookup_take_drop l first last p :
  first ≤ last → last ≤ length l →
  (take first l ++ drop last l) !! p
  = if decide (p < first) then l !! p else l !! (p + (last - first)).
Proof.
  intros Hfl Hll. case_decide.
  - rewrite lookup_app_l by (rewrite length_take; lia).
    by rewrite lookup_take_lt.
  - rewrite lookup_app_r by (rewrite length_take; lia).
    rewrite lookup_drop, length_take. f_equal. lia.
Qed.

(** [erase(first, last)] on an inline container, for a non-empty valid
    range: the elements of the range are gone and the others keep their
    order; the returned offset is [last_idx]. *)
Lemma erase_range_inline l first_idx last_idx tr :
  first_idx < last_idx → last_idx ≤ length l → length l ≤ STATIC_AMOUNT →
  erase_range first_idx last_idx (Machine (inline_of l : SVec) tr)
  = Done last_idx
      (Machine (inline_of (take first_idx l ++ drop last_idx l))
         (tr ++ erase_range_events first_idx last_idx (length l))).
Proof.
  intros Hfl Hll HlN.
  assert (Hlen : length (take first_idx l ++ drop last_idx l)
                 = length l - (last_idx - first_idx)).
  { rewrite length_app, length_take, length_drop. lia. }
  rewrite !inline_of_tabulate by lia. rewrite Hlen.
  unfold erase_range.
  erewrite bind_Done; [|reflexivity]. cbn [obj size_ is_vector vec_].
  rewrite !size_t_sub_le by lia.
  set (diff := last_idx - first_idx).
  (* the loop that destroys the range *)
  pose (O1 := λ i, SV (tab (λ p, if decide (first_idx ≤ p < i) then None
                                 else l !! p)) None (length l) : SVec).
  assert (E1 : SV (tab (λ p, l !! p)) None (length l) = O1 first_idx).
  { unfold O1.
    rewrite (tabulate_ext (λ p, l !! p)
               (λ p, if decide (first_idx ≤ p < first_idx) then None
                     else l !! p)); [done|].
    intros p _. case_decide; [lia|done]. }
  rewrite E1.
  erewrite bind_Done.
  2: { apply (for_up_states O1 (λ i, [Destruct (Inline i)])).
       intros i tr' Hi. unfold O1.
       destruct (lookup_lt_is_Some_2 l i) as [v Hv]; [lia|].
       erewrite (destroy_at_tab _ _ _ _ _ v);
         [|lia|rewrite decide_False by lia; done].
       do 2 f_equal. f_equal. apply tabulate_ext. intros p _.
       repeat case_decide; done || lia. }
  replace (first_idx + diff) with last_idx by (unfold diff; lia).
  (* the loop that moves the tail down *)
  pose (O2 := λ i, SV (tab (λ p,
                  if decide (p < first_idx) then l !! p
                  else if decide (p < i - diff) then l !! (p + diff)
                  else if decide (p < i) then None
                  else l !! p)) None (length l) : SVec).
  assert (E2 : O1 last_idx = O2 last_idx).
  { unfold O1, O2. f_equal. apply tabulate_ext. intros p _.
    repeat case_decide; done || lia. }
  rewrite E2.
  erewrite bind_Done.
  2: { apply (for_up_states O2
         (λ i, [MoveConstruct (Inline (i - diff)) (Inline i);
                Destruct (Inline i)])).
       intros i tr' Hi. unfold O2.
       destruct (lookup_lt_is_Some_2 l i) as [v Hv]; [lia|].
       rewrite size_t_sub_le by (unfold diff; lia).
       erewrite (shift_step_tab _ _ _ _ _ _ v);
         [|lia|lia|repeat (rewrite decide_False by (unfold diff; lia)); done].
       do 2 f_equal. f_equal. apply tabulate_ext. intros p _.
       unfold diff.
       repeat case_decide; try done; try lia.
       all: try (rewrite <- Hv; f_equal; lia). }
  erewrite bind_Done; [|apply set_size_run]. cbn [arr_ vec_].
  erewrite bind_Done; [|reflexivity]. cbn [obj size_].
  assert (Hret : (if last_idx =? length l - diff
                  then ret (length l - diff) else ret last_idx)
                 = (ret last_idx : M SVec nat)).
  { by destruct (Nat.eqb_spec last_idx (length l - diff)) as [<-|]. }
  rewrite Hret. unfold ret, erase_range_events. rewrite <- app_assoc.
  do 2 f_equal. f_equal. apply tabulate_ext. intros p _.
  rewrite lookup_take_drop by lia. fold diff.
  replace (last_idx + (length l - last_idx)) with (length l) by lia.
  repeat case_decide; try done; try lia.
  - symmetry. apply lookup_ge_None_2. lia.
  - rewrite (lookup_ge_None_2 l p) by lia.
    symmetry. apply lookup_ge_None_2. lia.
Qed.

(** [erase(pos)] on an inline container: the element is gone, the later
    ones have moved down by one, and the returned offset is that of the
    element that followed ([end()] if none did). *)
Lemma erase_inline l idx tr :
  idx < length l → length l ≤ STATIC_AMOUNT →
  erase idx (Machine (inline_of l : SVec) tr)
  = Done idx
      (Machine (inline_of (take idx l ++ drop (S idx) l))
         (tr ++ erase_events idx (length l))).
Proof.
  intros Hi HlN.
  assert (Hlen : length (take idx l ++ drop (S idx) l) = length l - 1).
  { rewrite length_app, length_take, length_drop. lia. }
  rewrite !inline_of_tabulate by lia. rewrite Hlen.
  unfold erase.
  erewrite bind_Done; [|reflexivity]. cbn [obj size_ is_vector vec_].
  rewrite !size_t_sub_le by lia.
  destruct (lookup_lt_is_Some_2 l idx Hi) as [v0 Hv0].
  erewrite bind_Done; [|by apply (destroy_at_tab _ _ _ _ _ v0); [lia|]].
  pose (O := λ i, SV (tab (λ p,
                 if decide (p < idx) then l !! p
                 else if decide (p < i - 1) then l !! (p + 1)
                 else if decide (p < i) then None
                 else l !! p)) None (length l) : SVec).
  assert (E0 : SV (tab (λ p, if decide (p = idx) then None else l !! p))
                  None (length l) = O (idx + 1)).
  { unfold O. f_equal. apply tabulate_ext. intros p _.
    repeat case_decide; done || lia. }
  cbv beta. rewrite E0.
  erewrite bind_Done.
  2: { apply (for_up_states O
         (λ i, [MoveConstruct (Inline (i - 1)) (Inline i);
                Destruct (Inline i)])).
       intros i tr' Hi'. unfold O.
       destruct (lookup_lt_is_Some_2 l i) as [v Hv]; [lia|].
       erewrite (shift_step_tab _ _ _ _ _ _ v);
         [|lia|lia|repeat (rewrite decide_False by lia); done].
       do 2 f_equal. f_equal. apply tabulate_ext. intros p _.
       repeat case_decide; try done; try lia.
       all: try (rewrite <- Hv; f_equal; lia). }
  erewrite bind_Done; [|apply set_size_run]. cbn [arr_ vec_].
  erewrite bind_Done; [|reflexivity]. cbn [obj size_].
  assert (Hret : (if idx =? length l - 1
                  then ret (length l - 1) else ret idx)
                 = (ret idx : M SVec nat)).
  { by destruct (Nat.eqb_spec idx (length l - 1)) as [<-|]. }
  rewrite Hret. unfold ret, erase_events. rewrite <- app_assoc.
  do 2 f_equal. f_equal. apply tabulate_ext. intros p _.
  rewrite lookup_take_drop by lia.
  replace (idx + 1 + (length l - (idx + 1))) with (length l) by lia.
  replace (S idx - idx) with 1 by lia.
  repeat case_decide; try done; try lia.
  all: rewrite ?(lookup_ge_None_2 l p) by lia;
    symmetry; apply lookup_ge_None_2; lia.
Qed.

(** [insert]/[emplace] into an inline container with room: the elements
    from the offset on move up by one, from the back, and the new element
    is constructed in the gap. *)
Lemma insert_with_inline how idx value l tr :
  idx ≤ length l → length l < STATIC_AMOUNT →
  insert_with how idx value (Machine (inline_of l : SVec) tr)
  = Done idx
      (Machine (inline_of (take idx l ++ value :: drop idx l))
         (tr ++ insert_shift_events idx (length l)
             ++ [construct_event how (Inline idx)])).
Proof.
  intros Hi HlN.
  assert (Hlen : length (take idx l ++ value :: drop idx l) = length l + 1).
  { rewrite length_app, length_take. simpl. rewrite length_drop. lia. }
  rewrite !inline_of_tabulate by lia. rewrite Hlen.
  unfold insert_with, insert_from.
  erewrite bind_Done; [|reflexivity]. cbn [obj size_].
  erewrite bind_Done; [|apply set_size_run]. cbn [arr_ vec_].
  erewrite bind_Done; [|reflexivity]. cbn [obj size_ is_vector vec_ negb].
  destruct (Nat.leb_spec (length l + 1) STATIC_AMOUNT); [|lia]. cbn [andb].
  rewrite size_t_sub_le by lia.
  replace (length l + 1 - 1 - idx) with (length l - idx) by lia.
  pose (O := λ j, SV (tab (λ p,
                 if decide (p < idx + j) then l !! p
                 else if decide (p = idx + j) then None
                 else l !! (p - 1))) None (length l + 1) : SVec).
  assert (E0 : SV (tab (λ p, l !! p)) None (length l + 1)
               = O (length l - idx)).
  { unfold O. f_equal. apply tabulate_ext. intros p _.
    repeat case_decide; try done.
    all: first [ apply lookup_ge_None_2; lia
               | symmetry; apply lookup_ge_None_2; lia
               | rewrite !lookup_ge_None_2 by lia; done ]. }
  rewrite E0.
  erewrite bind_Done.
  2: { apply (for_down_states O
         (λ j, [MoveConstruct (Inline (idx + j)) (Inline (idx + j - 1));
                Destruct (Inline (idx + j - 1))])).
       intros j tr' Hj. unfold O.
       destruct (lookup_lt_is_Some_2 l (idx + j)) as [v Hv]; [lia|].
       replace (idx + S j - 1) with (idx + j) by lia.
       erewrite (shift_step_tab _ _ _ _ _ _ v);
         [|lia|lia|rewrite decide_True by lia; done].
       do 2 f_equal. f_equal. apply tabulate_ext. intros p _.
       repeat case_decide; try done; try lia.
       all: try (rewrite <- Hv; f_equal; lia). }
  rewrite bind_ret_l.
  erewrite bind_Done; [|by apply construct_at_tab; lia].
  unfold ret, insert_shift_events. rewrite <- !app_assoc.
  do 2 f_equal. f_equal. apply tabulate_ext. intros p _.
  destruct (decide (p < idx)).
  - rewrite lookup_app_l by (rewrite length_take; lia).
    rewrite lookup_take_lt by done.
    repeat case_decide; done || lia.
  - rewrite lookup_app_r by (rewrite length_take; lia).
    rewrite length_take. replace (idx `min` length l) with idx by lia.
    destruct (decide (p = idx)) as [->|].
    + by rewrite Nat.sub_diag.
    + replace (p - idx) with (S (p - idx - 1)) by lia. simpl.
      rewrite lookup_drop.
      repeat case_decide; try done; try lia.
      f_equal. lia.
Qed.

End Erase_facts.

(** ** Appending a container *)

Section Append_facts.
Context {T : Type} `{ElemType T} {STATIC_AMOUNT : nat}.
Context `{!InlineFits T STATIC_AMOUNT}.
Local Abbreviation SVec := (SmallVector T STATIC_AMOUNT).
Local Abbreviation store := (gmap nat (SmallVector T STATIC_AMOUNT)).
Local Abbreviation tab := (@tabulate T STATIC_AMOUNT).
Implicit Types (l : list T) (tr : list event) (o X Y : SVec) (w : store).

(** [reserve] with a request that the vector accepts keeps the elements of
    a well-formed container. *)
Lemma reserve_spec n o tr :
  wf o → (N.of_nat n ≤ vector_max_size)%N →
  ∃ o' evs,
    reserve n (Machine o tr) = Done tt (Machine o' (tr ++ evs)) ∧
    wf o' ∧ contents o' = contents o.
Proof.
  intros Hwf Hmax. destruct (decide (n ≤ STATIC_AMOUNT)) as [Hn|Hn].
  { exists o, []. rewrite app_nil_r. split; [by apply reserve_small|done]. }
  destruct (wf_normal_form o Hwf) as [(l & Hl & ->)|(l & cap & Hl & ->)].
  - exists (spilled_of l n), (spill_events (length l)).
    split; [|split; [apply wf_spilled_of; lia|by rewrite contents_inline_of]].
    rewrite inline_of_tabulate by done.
    unfold reserve. erewrite bind_Done; [|reflexivity].
    destruct (Nat.leb_spec n STATIC_AMOUNT); [lia|].
    cbn [obj is_vector vec_ negb].
    rewrite (spillover_run _ l); [|lia|done|lia|done].
    rewrite spilled_of_tabulate. do 2 f_equal. f_equal.
    apply tabulate_ext. intros p _. case_decide; [done|].
    apply lookup_ge_None_2. lia.
  - exists (spilled_of l (if cap <? n then n else cap)),
           (if cap <? n then relocate (length l) else []).
    split; [|split; [|done]].
    + unfold spilled_of, reserve. erewrite bind_Done; [|reflexivity].
      destruct (Nat.leb_spec n STATIC_AMOUNT); [lia|].
      cbn [obj is_vector vec_ negb].
      apply vec_call_run. rewrite vec_reserve_accepted by done. simpl.
      by destruct (cap <? n).
    + apply wf_spilled_of. destruct (Nat.ltb_spec cap n); lia.
Qed.

Lemma operator_index_spec i x o tr :
  wf o → contents o !! i = Some x →
  operator_index i (Machine o tr) = Done x (Machine o tr).
Proof.
  intros Hwf Hx. unfold operator_index.
  erewrite bind_Done; [|reflexivity]. simpl.
  by rewrite element_contents, Hx.
Qed.

(** Moving out of an element leaves it in place, moved from. *)
Lemma move_out_spec i x o tr :
  wf o → contents o !! i = Some x →
  ∃ o',
    move_out i (Machine o tr) = Done x (Machine o' tr) ∧
    wf o' ∧ contents o' = <[i := moved_from x]> (contents o).
Proof.
  intros [(l & Hl & ->)|(l & cap & Hl & ->)]%wf_normal_form.
  - rewrite contents_inline_of. intros Hx.
    exists (inline_of (<[i := moved_from x]> l)).
    assert (Hi : i < length l) by by eapply lookup_lt_Some.
    split; [|split;
      [apply wf_inline_of; by rewrite length_insert
      |by rewrite contents_inline_of]].
    rewrite !inline_of_tabulate by by rewrite ?length_insert.
    unfold move_out. erewrite bind_Done; [|reflexivity]. cbn [obj vec_].
    erewrite bind_Done; [|by apply (get_arr_element_tab _ _ _ _ _ x); [lia|]].
    erewrite bind_Done; [|apply mark_moved_tab].
    unfold ret. rewrite length_insert. do 2 f_equal. f_equal.
    apply tabulate_ext. intros p _. rewrite list_lookup_insert.
    repeat case_decide; try done; try lia; naive_solver.
  - rewrite contents_spilled_of. intros Hx.
    exists (spilled_of (<[i := moved_from x]> l) cap).
    split; [|split; [apply wf_spilled_of; by rewrite length_insert|done]].
    unfold move_out, spilled_of, bind, get. simpl. rewrite Hx. simpl.
    by rewrite length_insert.
Qed.

Lemma at_obj_Done {A} a (m : M SVec A) w tr o r o' tr' :
  w !! a = Some o →
  m (Machine o tr) = Done r (Machine o' tr') →
  at_obj a m (Machine w tr) = Done r (Machine (<[a := o']> w) tr').
Proof. intros Ho E. unfold at_obj. simpl. by rewrite Ho, E. Qed.

Lemma at_obj_gets {A} a (f : SVec → A) w tr o :
  w !! a = Some o →
  at_obj a (gets f) (Machine w tr) = Done (f o) (Machine w tr).
Proof.
  intros Ho. erewrite at_obj_Done; [|done|reflexivity].
  by rewrite insert_id.
Qed.

Lemma buffer_eqb_refl b : buffer_eqb b b = true.
Proof. destruct b; simpl; [done|apply Nat.eqb_refl]. Qed.

(** A pointer into the buffer that the container uses reads the element at
    its offset. *)
Lemma deref_spec i x o tr :
  wf o → contents o !! i = Some x →
  deref (buffer_of o) i (Machine o tr) = Done x (Machine o tr).
Proof.
  intros Hwf Hx. unfold deref. erewrite bind_Done; [|reflexivity].
  cbn [obj]. rewrite buffer_eqb_refl. by apply operator_index_spec.
Qed.

(** The calls with an argument that is no element of the container. *)
Lemma push_back_outside (v : T) :
  push_back (Outside v) = (push_back_with (ByCopy Caller) v : M SVec unit).
Proof. reflexivity. Qed.

Lemma push_back_move_outside (v : T) :
  push_back_move (Outside v)
  = (push_back_with (ByMove Caller) v : M SVec unit).
Proof. reflexivity. Qed.

Lemma emplace_back_outside (v : T) :
  emplace_back (Outside v) = (push_back_with FromArgs v : M SVec unit).
Proof. reflexivity. Qed.

Lemma insert_outside idx (v : T) :
  insert idx (Outside v) = (insert_with (ByMove Caller) idx v : M SVec nat).
Proof. reflexivity. Qed.

Lemma emplace_outside idx (v : T) :
  emplace idx (Outside v) = (insert_with FromArgs idx v : M SVec nat).
Proof. reflexivity. Qed.

Lemma resize_value_outside count (v : T) :
  resize_value count (Outside v)
  = (resize_with (push_back_with (ByCopy Caller) v) count : M SVec unit).
Proof. reflexivity. Qed.

(** [append(const SmallVector&)] from a different container, when the
    vector accepts the reservation: the elements of [other] are
    appended. *)
Lemma append_spec this other w tr Y X :
  this ≠ other →
  w !! this = Some Y → w !! other = Some X → wf Y → wf X →
  size_ X = 0 ∨ (N.of_nat (size_ Y + size_ X) ≤ vector_max_size)%N →
  ∃ Y' tr',
    append this other (Machine w tr)
    = Done tt (Machine (<[this := Y']> w) tr') ∧
    wf Y' ∧ contents Y' = contents Y ++ contents X.
Proof.
  intros Hne HY HX HwfY HwfX Hmax. unfold append.
  erewrite bind_Done; [|by apply at_obj_gets]. unfold size.
  destruct (Nat.eqb_spec (size_ X) 0) as [H0|Hpos].
  { exists Y, tr. rewrite insert_id by done. split; [done|]. split; [done|].
    rewrite (wf_size X) in H0 by done.
    apply length_zero_iff_nil in H0. by rewrite H0, app_nil_r. }
  destruct Hmax as [?|Hmax]; [done|].
  erewrite bind_Done; [|by apply at_obj_gets].
  destruct (reserve_spec (size_ Y + size_ X) Y tr HwfY Hmax)
    as (Y1 & e1 & E1 & HwfY1 & Hc1).
  erewrite bind_Done; [|by eapply at_obj_Done].
  erewrite bind_Done; [|by apply at_obj_gets; rewrite lookup_insert_ne].
  erewrite bind_Done; [|by apply at_obj_gets; rewrite lookup_insert_ne].
  pose (P := λ i (s : machine store),
    ∃ Yi, obj s = <[this := Yi]> w ∧ wf Yi ∧
          contents Yi = contents Y ++ take i (contents X)).
  destruct (for_up_invariant P (push_back_of this other (buffer_of X))
    (size_ X) 0 (Machine (<[this := Y1]> w) (tr ++ e1))) as (s' & E & HP).
  { exists Y1. by rewrite take_0, app_nil_r. }
  { intros i [wi tri] Hi (Yi & Hwi & HwfYi & HcYi).
    simpl in *. subst wi.
    destruct (lookup_lt_is_Some_2 (contents X) i) as [x Hx].
    { rewrite <- wf_size by done. lia. }
    unfold push_back_of. destruct (Nat.eqb_spec this other); [done|].
    erewrite bind_Done.
    2: { erewrite at_obj_Done; [|by rewrite lookup_insert_ne|].
         2: { by apply deref_spec. }
         by rewrite insert_id by by rewrite lookup_insert_ne. }
    rewrite push_back_outside.
    destruct (push_back_with_spec (ByCopy Caller) x Yi tri HwfYi)
      as (Y2 & e2 & E2 & HwfY2 & HcY2 & _).
    erewrite at_obj_Done; [|by rewrite lookup_insert_eq|exact E2].
    rewrite insert_insert_eq.
    eexists. split; [done|]. exists Y2. cbn [obj].
    split_and!; [done..|].
    rewrite HcY2, HcYi, <- app_assoc. by erewrite take_S_r. }
  destruct HP as (Yn & Hwn & HwfYn & HcYn).
  destruct s' as [wn trn]. simpl in *. subst wn.
  exists Yn, trn. split; [exact E|].
  split; [done|]. rewrite HcYn.
  rewrite (wf_size X) by done. by rewrite firstn_all.
Qed.

(** [append(SmallVector&&)] from a different container: its elements are
    appended and it is left empty. *)
Lemma append_move_spec this other w tr Y X :
  this ≠ other →
  w !! this = Some Y → w !! other = Some X → wf Y → wf X →
  size_ X = 0 ∨ (N.of_nat (size_ Y + size_ X) ≤ vector_max_size)%N →
  ∃ Y' X' tr',
    append_move this other (Machine w tr)
    = Done tt (Machine (<[other := X']> (<[this := Y']> w)) tr') ∧
    wf Y' ∧ contents Y' = contents Y ++ contents X ∧
    wf X' ∧ contents X' = [] ∧ size_ X' = 0.
Proof.
  intros Hne HY HX HwfY HwfX Hmax. unfold append_move.
  destruct (Nat.eqb_spec this other) as [|_]; [done|].
  erewrite bind_Done; [|by apply at_obj_gets]. unfold size.
  destruct (Nat.eqb_spec (size_ X) 0) as [H0|Hpos].
  { exists Y, X, tr. rewrite (insert_id w this Y), insert_id by done.
    split; [done|]. rewrite (wf_size X) in H0 by done.
    pose proof H0 as H0'. apply length_zero_iff_nil in H0'.
    rewrite (wf_size X) by done. rewrite H0'.
    by rewrite app_nil_r. }
  destruct Hmax as [?|Hmax]; [done|].
  erewrite bind_Done; [|by apply at_obj_gets].
  destruct (reserve_spec (size_ Y + size_ X) Y tr HwfY Hmax)
    as (Y1 & e1 & E1 & HwfY1 & Hc1).
  erewrite bind_Done; [|by eapply at_obj_Done].
  erewrite bind_Done;
    [|apply at_obj_gets; by rewrite lookup_insert_ne by done].
  pose (P := λ i (s : machine store),
    ∃ Yi Xi, obj s = <[other := Xi]> (<[this := Yi]> w) ∧
             wf Yi ∧ wf Xi ∧
             contents Yi = contents Y ++ take i (contents X) ∧
             ∀ j, i ≤ j → contents Xi !! j = contents X !! j).
  destruct (for_up_invariant P
    (λ i, let* v := at_obj other (move_out i) in
          at_obj this (push_back_move (Outside v)))
    (size_ X) 0 (Machine (<[this := Y1]> w) (tr ++ e1))) as (s' & E & HP).
  { exists Y1, X. rewrite take_0, app_nil_r. simpl.
    rewrite (insert_id (<[this := Y1]> w) other X)
      by by rewrite lookup_insert_ne.
    done. }
  { intros i [wi tri] Hi (Yi & Xi & Hwi & HwfYi & HwfXi & HcYi & HcXi).
    simpl in *. subst wi.
    destruct (lookup_lt_is_Some_2 (contents X) i) as [x Hx].
    { rewrite <- wf_size by done. lia. }
    destruct (move_out_spec i x Xi tri HwfXi) as (X2 & E2 & HwfX2 & HcX2).
    { rewrite HcXi by lia. done. }
    erewrite bind_Done;
      [|by eapply at_obj_Done; [apply lookup_insert_eq|exact E2]].
    rewrite insert_insert_eq.
    destruct (push_back_with_spec (ByMove Caller) x Yi tri HwfYi)
      as (Y2 & e2 & E3 & HwfY2 & HcY2 & _).
    erewrite at_obj_Done; [| |exact E3].
    2: { rewrite lookup_insert_ne by done. apply lookup_insert_eq. }
    eexists. split; [done|]. exists Y2, X2. cbn [obj].
    split_and!; [|done|done| |].
    - rewrite (insert_insert_ne _ this other) by done.
      by rewrite insert_insert_eq.
    - rewrite HcY2, HcYi, <- app_assoc. by erewrite take_S_r.
    - intros j Hj. rewrite HcX2, list_lookup_insert_ne by lia.
      apply HcXi. lia. }
  destruct HP as (Yn & Xn & Hwn & HwfYn & HwfXn & HcYn & _).
  destruct s' as [wn trn]. simpl in *. subst wn.
  erewrite bind_Done; [|exact E].
  destruct (clear_spec Xn trn HwfXn)
    as (X' & e' & E' & HwfX' & HcX' & HsX' & _).
  erewrite at_obj_Done; [|apply lookup_insert_eq|exact E'].
  rewrite insert_insert_eq.
  exists Yn, X', (trn ++ e'). split_and!; [done|done| |done..].
  rewrite HcYn, (wf_size X) by done. by rewrite firstn_all.
Qed.

(** Both overloads of [append] with a non-empty [other] whose elements,
    together with those of the target, are more than the vector accepts:
    the reservation throws; [other] has not been touched. *)
Lemma append_refused this other w tr Y X :
  this ≠ other → w !! this = Some Y → w !! other = Some X →
  0 < size_ X → (vector_max_size < N.of_nat (size_ Y + size_ X))%N →
  ∃ Y',
    append_move this other (Machine w tr)
    = Throw length_error (Machine (<[this := Y']> w) tr) ∧
    append this other (Machine w tr)
    = Throw length_error (Machine (<[this := Y']> w) tr) ∧
    <[this := Y']> w !! other = Some X ∧
    is_vector Y' = true.
Proof.
  intros Hne HY HX Hpos Hmax.
  pose proof (reserve_refused (size_ Y + size_ X) Y tr Hmax) as E.
  eexists. split_and!.
  - unfold append_move. destruct (Nat.eqb_spec this other); [done|].
    erewrite bind_Done; [|by apply at_obj_gets]. unfold size.
    destruct (Nat.eqb_spec (size_ X) 0); [lia|].
    erewrite bind_Done; [|by apply at_obj_gets].
    erewrite bind_Throw; [done|].
    unfold at_obj. cbn [obj trace]. by rewrite HY, E.
  - unfold append.
    erewrite bind_Done; [|by apply at_obj_gets]. unfold size.
    destruct (Nat.eqb_spec (size_ X) 0); [lia|].
    erewrite bind_Done; [|by apply at_obj_gets].
    erewrite bind_Throw; [done|].
    unfold at_obj. cbn [obj trace]. by rewrite HY, E.
  - by rewrite lookup_insert_ne.
  - cbn [obj]. by destruct (is_vector Y) eqn:Hv.
Qed.

(** C5.  For two different well-formed containers [Y] and [X] of a store,
    [append(move of X)] on [Y] leaves [Y] with its elements followed by
    those of [X], in order, and [X] with length 0; [append(copy of X)]
    gives [Y] the same elements and leaves [X], like every other object of
    the store, as it was.  (Two containers whose elements together are
    more than a vector can hold are not concatenated: the reservation is
    refused with a length error, and [X] is as it was.) *)
Theorem append_concatenates this other w tr Y X :
  this ≠ other →
  w !! this = Some Y → w !! other = Some X → wf Y → wf X →
  (size_ X = 0 ∨ (N.of_nat (size_ Y + size_ X) ≤ vector_max_size)%N →
   (∃ Y' X' tr',
      append_move this other (Machine w tr)
      = Done tt (Machine (<[other := X']> (<[this := Y']> w)) tr') ∧
      contents Y' = contents Y ++ contents X ∧
      size_ Y' = size_ Y + size_ X ∧
      size_ X' = 0 ∧ contents X' = []) ∧
   (∃ Y' tr',
      append this other (Machine w tr)
      = Done tt (Machine (<[this := Y']> w) tr') ∧
      contents Y' = contents Y ++ contents X ∧
      size_ Y' = size_ Y + size_ X ∧
      <[this := Y']> w !! other = Some X)) ∧
  (0 < size_ X → (vector_max_size < N.of_nat (size_ Y + size_ X))%N →
   ∃ Y',
     append_move this other (Machine w tr)
     = Throw length_error (Machine (<[this := Y']> w) tr) ∧
     append this other (Machine w tr)
     = Throw length_error (Machine (<[this := Y']> w) tr) ∧
     <[this := Y']> w !! other = Some X).
Proof.
  intros Hne HY HX HwfY HwfX. split.
  - intros Hmax. split.
    + destruct (append_move_spec this other w tr Y X)
        as (Y' & X' & tr' & E & HwfY' & HcY' & HwfX' & HcX' & HsX'); [done..|].
      exists Y', X', tr'. split_and!; [done|done| |done|done].
      rewrite (wf_size Y'), HcY', length_app by done.
      by rewrite <- !wf_size.
    + destruct (append_spec this other w tr Y X)
        as (Y' & tr' & E & HwfY' & HcY'); [done..|].
      exists Y', tr'. split_and!; [done|done| |by rewrite lookup_insert_ne].
      rewrite (wf_size Y'), HcY', length_app by done.
      by rewrite <- !wf_size.
  - intros Hpos Hmax.
    destruct (append_refused this other w tr Y X)
      as (Y' & E1 & E2 & HX' & _); [done..|].
    by exists Y'.
Qed.

End Append_facts.

(** ** The container as a sequence

    On well-formed containers, in either storage mode, the structural
    operations act on the contents as the corresponding list operations.
    The lemmas below give, for each modifier, the resulting contents, the
    storage mode and the capacity, and the tally of the constructor and
    destructor calls. *)

(** *** Tallies of the inline loops *)

Section Loop_tallies.

Lemma tally_erase_range_events first_idx last_idx n :
  constructions (erase_range_events first_idx last_idx n) = n - last_idx ∧
  destructor_count (erase_range_events first_idx last_idx n)
  = (last_idx - first_idx) + (n - last_idx).
Proof.
  unfold constructions, constructor_count, copy_count, move_count,
    destructor_count, erase_range_events.
  rewrite !count_events_app, !count_events_pairs.
  repeat first [ rewrite count_events_all by done
               | rewrite count_events_none by done ].
  rewrite !length_seq. lia.
Qed.

Lemma tally_erase_events idx n :
  constructions (erase_events idx n) = n - (idx + 1) ∧
  destructor_count (erase_events idx n) = 1 + (n - (idx + 1)).
Proof.
  unfold erase_events.
  change (Destruct (Inline idx) :: ?l) with ([Destruct (Inline idx)] ++ l).
  unfold constructions, constructor_count, copy_count, move_count,
    destructor_count.
  rewrite !count_events_app, !count_events_pairs.
  repeat first [ rewrite count_events_all by done
               | rewrite count_events_none by done ].
  rewrite !length_seq. simpl. lia.
Qed.

Lemma tally_insert_shift_events idx n :
  constructions (insert_shift_events idx n) = n - idx ∧
  destructor_count (insert_shift_events idx n) = n - idx.
Proof.
  unfold constructions, constructor_count, copy_count, move_count,
    destructor_count, insert_shift_events.
  rewrite !count_events_pairs.
  repeat first [ rewrite count_events_all by done
               | rewrite count_events_none by done ].
  rewrite !length_rev, !length_seq. lia.
Qed.

Lemma tally_clear_events n :
  constructions (clear_events n) = 0 ∧ destructor_count (clear_events n) = n.
Proof.
  unfold constructions, constructor_count, copy_count, move_count,
    destructor_count, clear_events.
  repeat first [ rewrite count_events_all by done
               | rewrite count_events_none by done ].
  rewrite !length_rev, !length_seq. lia.
Qed.

Lemma tally_destructs n p :
  constructions (replicate n (Destruct p)) = 0 ∧
  destructor_count (replicate n (Destruct p)) = n.
Proof.
  unfold constructions, constructor_count, copy_count, move_count,
    destructor_count.
  by rewrite !count_events_replicate.
Qed.

End Loop_tallies.

(** *** The effect of each modifier on a well-formed container *)

Section Effects.
Context {T : Type} `{ElemType T} {STATIC_AMOUNT : nat}.
Context `{!InlineFits T STATIC_AMOUNT}.
Local Abbreviation SVec := (SmallVector T STATIC_AMOUNT).
Implicit Types (l : list T) (tr : list event) (o : SVec).

Lemma capacity_inline_of l : capacity (inline_of l : SVec) = STATIC_AMOUNT.
Proof. done. Qed.

Lemma capacity_spilled_of l cap : capacity (spilled_of l cap : SVec) = cap.
Proof. done. Qed.

Lemma wf_size_le_capacity o : wf o → size_ o ≤ capacity o.
Proof.
  intros [(l & Hl & ->)|(l & cap & Hl & ->)]%wf_normal_form;
    unfold capacity; simpl; lia.
Qed.

(** The vector's [insert]/[emplace] at a valid offset. *)
Lemma vec_insert_spec idx how x l cap :
  idx ≤ length l →
  ∃ cap' evs,
    vec_insert idx how x (Vector l cap)
    = VReturn idx (Vector (take idx l ++ x :: drop idx l) cap') evs ∧
    cap ≤ cap' ∧ length l + 1 ≤ cap' ∧
    constructions evs = destructor_count evs + 1.
Proof.
  intros Hidx. unfold vec_insert. cbn [elems vcapacity].
  destruct (Nat.ltb_spec (length l) idx); [lia|].
  destruct (Nat.ltb_spec (length l) cap).
  - eexists _, _. split; [reflexivity|]. split; [lia|]. split; [lia|].
    destruct (idx =? length l); by destruct how.
  - eexists _, _. split; [reflexivity|]. split; [lia|]. split; [lia|].
    change (?e :: relocate ?n) with ([e] ++ relocate n).
    rewrite constructions_app, destructor_count_app.
    destruct (tally_relocate (length l)) as [-> ->].
    destruct (tally_construct_event how Heap) as [-> ->]. lia.
Qed.

Lemma length_inserted idx x l :
  idx ≤ length l → length (take idx l ++ x :: drop idx l) = length l + 1.
Proof.
  intros. rewrite length_app, length_take. simpl. rewrite length_drop. lia.
Qed.

(** [insert]/[emplace] into a full inline container, with the tally of its
    events. *)
Lemma insert_with_full_tally how idx value l tr :
  length l = STATIC_AMOUNT → idx ≤ STATIC_AMOUNT →
  ∃ cap evs,
    insert_with how idx value (Machine (inline_of l : SVec) tr)
    = Done idx
        (Machine (spilled_of (take idx l ++ value :: drop idx l) cap)
           (tr ++ evs)) ∧
    length l + 1 ≤ cap ∧
    constructions evs = destructor_count evs + 1.
Proof.
  intros Hl Hidx.
  destruct (vec_insert_spec idx how value l (length l + 1))
    as (cap' & evs & Hop & _ & Hcap & Hn); [lia|].
  exists cap', (spill_events (length l) ++ evs). split_and!; [|done|].
  - rewrite inline_of_tabulate by lia. rewrite spilled_of_tabulate.
    unfold insert_with, insert_from.
    erewrite bind_Done; [|reflexivity]. cbn [obj size_].
    erewrite bind_Done; [|apply set_size_run]. cbn [arr_ vec_].
    erewrite bind_Done; [|reflexivity]. cbn [obj size_ is_vector vec_ negb].
    destruct (Nat.leb_spec (length l + 1) STATIC_AMOUNT); [lia|].
    cbn [andb].
    erewrite bind_Done;
      [|apply (spillover_run _ l);
        [lia|done|lia|rewrite Hl; apply spill_fits]].
    rewrite bind_ret_l.
    erewrite vec_call_run; [|exact Hop].
    rewrite <- app_assoc, length_inserted by lia. do 2 f_equal. f_equal.
    apply tabulate_ext. intros p Hp. by rewrite decide_True by lia.
  - rewrite constructions_app, destructor_count_app.
    destruct (tally_spill_events (length l)) as [-> ->]. lia.
Qed.

(** [insert]/[emplace] at a valid offset, in either mode. *)
Lemma insert_with_effect how idx value o tr :
  wf o → idx ≤ size_ o →
  ∃ o' evs,
    insert_with how idx value (Machine o tr)
    = Done idx (Machine o' (tr ++ evs)) ∧
    wf o' ∧
    contents o' = take idx (contents o) ++ value :: drop idx (contents o) ∧
    is_array o' = is_array o && (size_ o <? STATIC_AMOUNT) ∧
    constructions evs = destructor_count evs + 1.
Proof.
  intros Hwf.
  destruct (wf_normal_form o Hwf) as [(l & Hl & ->)|(l & cap & Hl & ->)];
    cbn [size_ inline_of spilled_of]; intros Hidx.
  - rewrite contents_inline_of.
    destruct (Nat.ltb_spec (length l) STATIC_AMOUNT).
    + eexists _, _. split; [by apply insert_with_inline|].
      rewrite contents_inline_of. split_and!; [|done|done|].
      * apply wf_inline_of. rewrite length_inserted; lia.
      * rewrite constructions_app, destructor_count_app.
        destruct (tally_insert_shift_events idx (length l)) as [-> ->].
        destruct (tally_construct_event how (Inline idx)) as [-> ->]. lia.
    + destruct (insert_with_full_tally how idx value l tr)
        as (cap & evs & E & Hcap & Hn); [lia..|].
      eexists _, _. split; [exact E|]. split_and!; [|done|done|done].
      apply wf_spilled_of. rewrite length_inserted; lia.
  - destruct (vec_insert_spec idx how value l cap)
      as (cap' & evs & Hop & _ & Hcap & Hn); [lia|].
    exists (spilled_of (take idx l ++ value :: drop idx l) cap'), evs.
    split_and!; [|apply wf_spilled_of; rewrite length_inserted; lia|done..].
    unfold insert_with, insert_from, spilled_of.
    erewrite bind_Done; [|reflexivity]. cbn [obj size_].
    erewrite bind_Done; [|apply set_size_run]. cbn [arr_ vec_].
    erewrite bind_Done; [|reflexivity].
    cbn [obj size_ is_vector vec_ negb andb].
    erewrite bind_Done; [|reflexivity]. rewrite bind_ret_l.
    erewrite vec_call_run; [|exact Hop]. by rewrite length_inserted by lia.
Qed.

Lemma length_erased first_idx last_idx l :
  first_idx ≤ last_idx → last_idx ≤ length l →
  length (take first_idx l ++ drop last_idx l)
  = length l - (last_idx - first_idx).
Proof. intros. rewrite length_app, length_take, length_drop. lia. Qed.

(** [erase(pos)] at a valid offset, in either mode. *)
Lemma erase_effect idx o tr :
  wf o → idx < size_ o →
  ∃ o' evs,
    erase idx (Machine o tr) = Done idx (Machine o' (tr ++ evs)) ∧
    wf o' ∧
    contents o' = take idx (contents o) ++ drop (S idx) (contents o) ∧
    is_vector o' = is_vector o ∧ capacity o' = capacity o ∧
    destructor_count evs = constructions evs + 1 ∧
    (is_array o = true → destructor_count evs = size_ o - idx) ∧
    (idx + 1 = size_ o → constructions evs = 0).
Proof.
  intros Hwf.
  destruct (wf_normal_form o Hwf) as [(l & Hl & ->)|(l & cap & Hl & ->)];
    cbn [size_ inline_of spilled_of]; intros Hidx.
  - eexists _, _. split; [by apply erase_inline|].
    rewrite !contents_inline_of.
    destruct (tally_erase_events idx (length l)) as [-> ->].
    split_and!; [|done|done|done|lia|lia|lia].
    apply wf_inline_of. rewrite length_erased; lia.
  - exists (spilled_of (take idx l ++ drop (S idx) l) cap), [Destruct Heap].
    split_and!; [|apply wf_spilled_of; rewrite length_erased; lia|done..].
    unfold erase, spilled_of.
    erewrite bind_Done; [|reflexivity]. cbn [obj size_ is_vector vec_].
    erewrite bind_Done.
    2: { apply (vec_call_run _ _ _ _ _ idx
                  (Vector (take idx l ++ drop (S idx) l) cap)
                  [Destruct Heap]).
         unfold vec_erase. cbn [elems vcapacity].
         destruct (Nat.ltb_spec idx (length l)); [|lia].
         by rewrite delete_take_drop. }
    erewrite bind_Done; [|apply set_size_run].
    rewrite size_t_sub_le by lia. rewrite length_erased by lia.
    by replace (length l - (S idx - idx)) with (length l - 1) by lia.
Qed.

(** [erase(first, last)] of a non-empty valid range, in either mode. *)
Lemma erase_range_effect first_idx last_idx o tr :
  wf o → first_idx < last_idx → last_idx ≤ size_ o →
  ∃ o' evs,
    erase_range first_idx last_idx (Machine o tr)
    = Done (if is_vector o then first_idx else last_idx)
        (Machine o' (tr ++ evs)) ∧
    wf o' ∧
    contents o'
    = take first_idx (contents o) ++ drop last_idx (contents o) ∧
    size_ o' = size_ o - (last_idx - first_idx) ∧
    is_vector o' = is_vector o ∧ capacity o' = capacity o ∧
    destructor_count evs = constructions evs + (last_idx - first_idx) ∧
    (is_array o = true → destructor_count evs = size_ o - first_idx).
Proof.
  intros Hwf.
  destruct (wf_normal_form o Hwf) as [(l & Hl & ->)|(l & cap & Hl & ->)];
    cbn [size_ inline_of spilled_of]; intros Hfl Hll.
  - eexists _, _. split; [by apply erase_range_inline|].
    rewrite !contents_inline_of. simpl.
    destruct (tally_erase_range_events first_idx last_idx (length l))
      as [-> ->].
    rewrite length_erased by lia.
    split_and!; [|done|lia|done|done|lia|lia].
    apply wf_inline_of. rewrite length_erased; lia.
  - exists (spilled_of (take first_idx l ++ drop last_idx l) cap),
           (replicate (last_idx - first_idx) (Destruct Heap)).
    destruct (tally_destructs (last_idx - first_idx) Heap) as [-> ->].
    split_and!;
      [|apply wf_spilled_of; rewrite length_erased; lia|done
       |simpl; rewrite length_erased; lia|done..].
    unfold erase_range, spilled_of.
    erewrite bind_Done; [|reflexivity]. cbn [obj size_ is_vector vec_].
    erewrite bind_Done.
    2: { apply (vec_call_run _ _ _ _ _ first_idx
                  (Vector (take first_idx l ++ drop last_idx l) cap)
                  (replicate (last_idx - first_idx) (Destruct Heap))).
         unfold vec_erase_range. cbn [elems vcapacity].
         destruct (Nat.leb_spec first_idx last_idx); [|lia].
         destruct (Nat.leb_spec last_idx (length l)); [|lia].
         done. }
    erewrite bind_Done; [|apply set_size_run].
    rewrite (size_t_sub_le last_idx first_idx) by lia.
    rewrite size_t_sub_le by lia. by rewrite length_erased by lia.
Qed.

(** [pop_back()] on a non-empty container. *)
Lemma pop_back_effect o tr :
  wf o → 0 < size_ o →
  ∃ o' evs,
    pop_back (Machine o tr) = Done tt (Machine o' (tr ++ evs)) ∧
    wf o' ∧ contents o' = take (size_ o - 1) (contents o) ∧
    is_vector o' = is_vector o ∧ capacity o' = capacity o ∧
    constructions evs = 0 ∧ destructor_count evs = 1.
Proof.
  intros Hwf Hpos.
  destruct (erase_effect (size_ o - 1) o tr Hwf)
    as (o' & evs & E & Hwf' & Hc & Hv & Hcap & Hd & _ & Hlast); [lia|].
  exists o', evs. unfold pop_back.
  erewrite bind_Done; [|reflexivity]. cbn [obj].
  destruct (Nat.eqb_spec (size_ o) 0); [lia|].
  erewrite bind_Done; [|exact E].
  rewrite Hlast in Hd by lia. rewrite Hlast by lia.
  split_and!; [done|done| |done..].
  rewrite Hc, (drop_ge (contents o)), app_nil_r; [done|].
  rewrite <- wf_size by done. lia.
Qed.

(** [shrink_to_fit()]. *)
Lemma shrink_to_fit_effect o tr :
  wf o →
  ∃ o' evs,
    shrink_to_fit (Machine o tr) = Done tt (Machine o' (tr ++ evs)) ∧
    wf o' ∧ contents o' = contents o ∧ is_vector o' = is_vector o ∧
    capacity o' ≤ capacity o ∧
    constructions evs = destructor_count evs ∧
    (is_array o = true → o' = o ∧ evs = []).
Proof.
  intros [(l & Hl & ->)|(l & cap & Hl & ->)]%wf_normal_form.
  - exists (inline_of l), []. rewrite app_nil_r.
    split_and!; [done|by apply wf_inline_of|done..].
  - exists (spilled_of l (length l)),
           (if length l =? cap then [] else relocate (length l)).
    split_and!; [|by apply wf_spilled_of|done|done|done| |done].
    + unfold shrink_to_fit, spilled_of.
      erewrite bind_Done; [|reflexivity]. cbn [obj is_vector vec_].
      apply vec_call_run. unfold vec_shrink_to_fit. cbn [elems vcapacity].
      by destruct (Nat.eqb_spec (length l) cap) as [<-|].
    + destruct (length l =? cap); [done|].
      by destruct (tally_relocate (length l)) as [-> ->].
Qed.

(** [reserve(n)] with a request that the vector accepts. *)
Lemma reserve_effect n o tr :
  wf o → (N.of_nat n ≤ vector_max_size)%N →
  ∃ o' evs,
    reserve n (Machine o tr) = Done tt (Machine o' (tr ++ evs)) ∧
    wf o' ∧ contents o' = contents o ∧
    is_vector o' = is_vector o || (STATIC_AMOUNT <? n) ∧
    capacity o ≤ capacity o' ∧
    (STATIC_AMOUNT < n ∨ is_array o = true → n ≤ capacity o') ∧
    constructions evs = destructor_count evs ∧
    (n ≤ capacity o → o' = o ∧ evs = []).
Proof.
  intros Hwf Hmax. destruct (Nat.ltb_spec STATIC_AMOUNT n) as [Hn|Hn].
  2: { exists o, []. rewrite app_nil_r, orb_false_r.
       split_and!; [by apply reserve_small|done..| |done|done].
       intros [?|Ha]; [lia|].
       unfold is_array, is_vector, capacity in *.
       by destruct (vec_ o). }
  rewrite orb_true_r.
  destruct (wf_normal_form o Hwf) as [(l & Hl & ->)|(l & cap & Hl & ->)].
  - exists (spilled_of l n), (spill_events (length l)).
    destruct (tally_spill_events (length l)) as [-> ->].
    split_and!;
      [|apply wf_spilled_of; lia|by rewrite contents_inline_of|done
       |unfold capacity; simpl; lia|done|done|unfold capacity; simpl; lia].
    rewrite inline_of_tabulate by done.
    unfold reserve. erewrite bind_Done; [|reflexivity].
    destruct (Nat.leb_spec n STATIC_AMOUNT); [lia|].
    cbn [obj is_vector vec_ negb].
    rewrite (spillover_run _ l); [|lia|done|lia|done].
    rewrite spilled_of_tabulate. do 2 f_equal. f_equal.
    apply tabulate_ext. intros p _. case_decide; [done|].
    apply lookup_ge_None_2. lia.
  - exists (spilled_of l (if cap <? n then n else cap)),
           (if cap <? n then relocate (length l) else []).
    split_and!; [| |done|done| | | |].
    + unfold spilled_of, reserve. erewrite bind_Done; [|reflexivity].
      destruct (Nat.leb_spec n STATIC_AMOUNT); [lia|].
      cbn [obj is_vector vec_ negb].
      apply vec_call_run. rewrite vec_reserve_accepted by done. simpl.
      by destruct (cap <? n).
    + apply wf_spilled_of. destruct (Nat.ltb_spec cap n); lia.
    + unfold capacity. simpl. destruct (Nat.ltb_spec cap n); lia.
    + unfold capacity. simpl. destruct (Nat.ltb_spec cap n); lia.
    + destruct (cap <? n); [|done].
      by destruct (tally_relocate (length l)) as [-> ->].
    + unfold capacity. simpl. intros Hc. by destruct (Nat.ltb_spec cap n); [lia|].
Qed.

(** [clear()]. *)
Lemma clear_effect o tr :
  wf o →
  ∃ o' evs,
    clear (Machine o tr) = Done tt (Machine o' (tr ++ evs)) ∧
    wf o' ∧ contents o' = [] ∧ size_ o' = 0 ∧
    is_vector o' = is_vector o ∧ capacity o' = capacity o ∧
    constructions evs = 0 ∧ destructor_count evs = size_ o ∧
    ∀ tr', clear (Machine o' tr') = Done tt (Machine o' tr').
Proof.
  intros [(l & Hl & ->)|(l & cap & Hl & ->)]%wf_normal_form.
  - eexists _, _. split; [by apply clear_inline|].
    destruct (tally_clear_events (length l)) as [-> ->].
    split_and!; [apply wf_fresh|done..|].
    intros tr'. rewrite fresh_inline_of, clear_inline by (simpl; lia).
    by rewrite app_nil_r, fresh_inline_of.
  - eexists _, _. split; [apply clear_spilled|].
    destruct (tally_destructs (length l) Heap) as [-> ->].
    split_and!; [apply wf_spilled_of; simpl; lia|done..|].
    intros tr'. rewrite clear_spilled. by rewrite app_nil_r.
Qed.

(** A push into a container with spare capacity constructs the new element
    and touches nothing else. *)
Lemma push_back_with_room how x o tr :
  wf o → size_ o < capacity o →
  ∃ o' dst,
    push_back_with how x (Machine o tr)
    = Done tt (Machine o' (tr ++ [construct_event how dst])) ∧
    wf o' ∧ contents o' = contents o ++ [x] ∧
    is_vector o' = is_vector o ∧ capacity o' = capacity o.
Proof.
  intros [(l & Hl & ->)|(l & cap & Hl & ->)]%wf_normal_form;
    unfold capacity; simpl; intros Hc.
  - eexists _, _. split; [by apply push_back_inline|].
    rewrite !contents_inline_of. split_and!; [|done..].
    apply wf_inline_of. rewrite length_app. simpl. lia.
  - eexists _, _. split.
    { rewrite push_back_spilled.
      destruct (Nat.ltb_spec (length l) cap); [|lia]. reflexivity. }
    split_and!; [|done..].
    apply wf_spilled_of. rewrite length_app. simpl. lia.
Qed.

End Effects.

(** ** Reported errors *)

Section Errors.
Context {T : Type} `{ElemType T} {STATIC_AMOUNT : nat}.
Context `{!InlineFits T STATIC_AMOUNT}.
Local Abbreviation SVec := (SmallVector T STATIC_AMOUNT).
Lemma at_out_of_range (s : machine SVec) i :
  size_ (obj s) ≤ i → at_ i s = Throw out_of_range s.
Proof.
  intros Hi. unfold at_. erewrite bind_Done; [|reflexivity].
  by destruct (Nat.leb_spec (size_ (obj s)) i); [|lia].
Qed.

Lemma at_in_range (s : machine SVec) i :
  wf (obj s) → i < size_ (obj s) →
  ∃ x, contents (obj s) !! i = Some x ∧ at_ i s = Done x s.
Proof.
  intros Hwf Hi.
  destruct (lookup_lt_is_Some_2 (contents (obj s)) i) as [x Hx].
  { by rewrite <- wf_size. }
  exists x. split; [done|]. unfold at_.
  erewrite bind_Done; [|reflexivity].
  destruct (Nat.leb_spec (size_ (obj s)) i); [lia|].
  unfold operator_index. erewrite bind_Done; [|reflexivity].
  by rewrite element_contents, Hx.
Qed.

(** C7.  On a well-formed container of length [L], in either storage mode,
    [at(i)] raises an exception if and only if [i >= L]; the exception is
    [out_of_range] and the container is as before; for [i < L] it returns
    the [i]-th element and leaves the container as it is.  In particular,
    on a non-empty container [at(L)] fails and [at(L - 1)] returns the last
    element. *)
Theorem at_spec (s : machine SVec) (i : nat) :
  wf (obj s) →
  ((∃ e s', at_ i s = Throw e s') ↔ size_ (obj s) ≤ i) ∧
  (size_ (obj s) ≤ i → at_ i s = Throw out_of_range s) ∧
  (i < size_ (obj s) →
     ∃ x, contents (obj s) !! i = Some x ∧ at_ i s = Done x s) ∧
  (0 < size_ (obj s) →
     at_ (size_ (obj s)) s = Throw out_of_range s ∧
     ∃ x, last (contents (obj s)) = Some x ∧
          at_ (size_ (obj s) - 1) s = Done x s).
Proof.
  intros Hwf. split_and!.
  - split.
    + intros (e & s' & E).
      destruct (decide (size_ (obj s) ≤ i)) as [|Hi]; [done|].
      destruct (at_in_range s i Hwf) as (x & _ & E'); [lia|congruence].
    + intros Hi. eexists _, _. by apply at_out_of_range.
  - apply at_out_of_range.
  - by apply at_in_range.
  - intros Hpos. split; [by apply at_out_of_range|].
    destruct (at_in_range s (size_ (obj s) - 1) Hwf) as (x & Hx & E); [lia|].
    exists x. split; [|done].
    rewrite last_lookup, <- Hx. f_equal. rewrite <- wf_size by done. lia.
Qed.

End Errors.

(** ** Comparison *)

Section Comparison_facts.
Context {T : Type} `{ElemType T}.
Implicit Types l : list T.

Lemma equal_from_lists {N1 N2} (a : SmallVector T N1) (b : SmallVector T N2)
    la lb :
  (∀ j, element a j = la !! j) → (∀ j, element b j = lb !! j) →
  ∀ n i, i + n ≤ length la → i + n ≤ length lb →
  equal_from a b i n
  = Some (forallb (λ p, T_eqb p.1 p.2)
            (zip (take n (drop i la)) (take n (drop i lb)))).
Proof.
  intros Ha Hb. induction n as [|n IH]; intros i Hla Hlb; [done|].
  destruct (lookup_lt_is_Some_2 la i) as [x Hx]; [lia|].
  destruct (lookup_lt_is_Some_2 lb i) as [y Hy]; [lia|].
  cbn [equal_from]. rewrite Ha, Hb, Hx, Hy.
  rewrite (drop_S la x i), (drop_S lb y i) by done. simpl.
  destruct (T_eqb x y); [|done]. simpl. apply IH; lia.
Qed.

Lemma elementwise_equal_true l1 l2 :
  elementwise_equal l1 l2 = true ↔
  length l1 = length l2 ∧
  ∀ i x y, l1 !! i = Some x → l2 !! i = Some y → T_eqb x y = true.
Proof.
  unfold elementwise_equal. rewrite andb_true_iff, Nat.eqb_eq.
  split; intros [Hlen Hall]; (split; [done|]).
  - revert l2 Hlen Hall. induction l1 as [|x1 l1 IH];
      intros [|x2 l2] Hlen Hall i x y Hx Hy; try done.
    simpl in Hall. apply andb_true_iff in Hall as [Hhd Htl].
    destruct i as [|i]; simpl in *.
    + congruence.
    + eapply (IH l2); eauto.
  - revert l2 Hlen Hall. induction l1 as [|x1 l1 IH];
      intros [|x2 l2] Hlen Hall; try done.
    simpl. apply andb_true_iff. split.
    + by apply (Hall 0).
    + apply IH; [simpl in Hlen; lia|].
      intros i x y Hx Hy. by apply (Hall (S i)).
Qed.

(** C9.  On well-formed containers [a == b] is the element-wise comparison
    of their contents: it holds if and only if the lengths are equal and
    the elements at every index compare equal.  The result depends on the
    contents only, not on the storage mode or the inline capacity of
    either side, and [a != b] is its negation. *)
Theorem operator_eq_spec {N1 N2}
    (a : SmallVector T N1) (b : SmallVector T N2) :
  wf a → wf b →
  operator_eq a b = Some (elementwise_equal (contents a) (contents b)) ∧
  operator_ne a b
  = Some (negb (elementwise_equal (contents a) (contents b))) ∧
  (operator_eq a b = Some true ↔
   size_ a = size_ b ∧
   ∀ i x y, contents a !! i = Some x → contents b !! i = Some y →
            T_eqb x y = true).
Proof.
  intros Ha Hb.
  assert (E : operator_eq a b
              = Some (elementwise_equal (contents a) (contents b))).
  { unfold operator_eq, elementwise_equal, size.
    rewrite !(wf_size a), !(wf_size b) by done.
    destruct (Nat.eqb_spec (length (contents a)) (length (contents b)))
      as [Hlen|Hlen]; [|done]. simpl.
    rewrite (equal_from_lists a b (contents a) (contents b));
      [|by intros; apply element_contents..|simpl; lia|simpl; lia].
    rewrite !drop_0, firstn_all, Hlen, firstn_all. done. }
  split_and!; [done|unfold operator_ne; by rewrite E|].
  rewrite E. rewrite !(wf_size a), !(wf_size b) by done.
  rewrite <- elementwise_equal_true. split; [by intros [= ->]|by intros ->].
Qed.

End Comparison_facts.

(** ** Concrete runs *)

Lemma storage_mode_one_way_witness :
  let v : SmallVector Z 2 := spilled_of [1; 2; 3]%Z 4 in
  let w : gmap nat (SmallVector Z 2) := {[ 0 := v ]} in
  w !! 0 = Some v ∧ is_vector v = true ∧
  match calls 0 [Clear; Shrink_to_fit; Push_back (Outside 5%Z); Erase 0]
          (Machine w []) with
  | Done _ w' | Throw _ w' =>
      ∃ o', obj w' !! 0 = Some o' ∧ is_vector o' = true ∧ is_array o' = false
  | Fault _ => True
  end.
Proof.
  split; [reflexivity|]. split; [reflexivity|].
  apply (proj2 storage_mode_one_way _ [] 0 _ (spilled_of [1; 2; 3]%Z 4));
    reflexivity.
Defined.

(** C3 as stated fails: a container that spilled on its ninth [push_back]
    is inline again after a [swap] with a default-constructed one, and
    also after the assignment of a default-constructed one. *)
Lemma swap_returns_to_inline :
  ∃ (v : SmallVector Z 8) w1 w2,
    result (run (pushes ((λ x, (ByCopy Caller, x)) <$>
                           [0; 1; 2; 3; 4; 5; 6; 7; 8]%Z)) fresh) = Some v ∧
    is_vector v = true ∧
    run (swap 0 1) (<[0 := v]> {[ 1 := fresh ]} : gmap nat _) = Done tt w1 ∧
    (∃ o', obj w1 !! 0 = Some o' ∧ is_array o' = true) ∧
    run (copy_assign 0 1) (<[0 := v]> {[ 1 := fresh ]} : gmap nat _)
    = Done tt w2 ∧
    (∃ o', obj w2 !! 0 = Some o' ∧ is_array o' = true).
Proof.
  eexists _, _, _. split_and!.
  - vm_compute. reflexivity.
  - reflexivity.
  - vm_compute. reflexivity.
  - eexists. split; [vm_compute; reflexivity|]. by vm_compute.
  - vm_compute. reflexivity.
  - eexists. split; [vm_compute; reflexivity|]. by vm_compute.
Qed.

(** C6 as stated fails, in both directions.  [SmallVector<signed char, 8>]
    has [max_size()] 127; holding 128 elements, [resize(128)] exceeds it
    and returns without an error.  And [SmallVector<long long, 8>] has
    [max_size()] 2^63 - 1, above the 2^60 - 1 of its vector: [resize(2^60)]
    on the inline [1, 2, 3] does not exceed [max_size()], yet the vector
    refuses the reservation, and the length error leaves the container
    modified: in spilled mode over an empty vector, its three elements out
    of reach. *)
Lemma resize_length_error_fails :
  (∃ o : SmallVector Z 8,
     result (run (SmallVector_fill (H:=signed_char_elem) 128 0%Z) fresh)
     = Some o ∧
     size_ o = 128 ∧
     (max_size (H:=signed_char_elem) < N.of_nat 128)%N ∧
     run (resize (H:=signed_char_elem) 128) o = Done tt (Machine o [])) ∧
  (let count := N.to_nat 1152921504606846976 in
   let o : SmallVector Z 8 := inline_of [1; 2; 3]%Z in
   (N.of_nat count ≤ max_size (H:=long_long_elem))%N ∧
   ∃ o' : SmallVector Z 8,
     run (resize (H:=long_long_elem) count) o
     = Throw length_error (Machine o' []) ∧
     is_vector o' = true ∧ is_vector o = false ∧
     size_ o' = 3 ∧ contents o' = []).
Proof.
  split.
  - eexists. split_and!.
    + vm_compute. reflexivity.
    + reflexivity.
    + reflexivity.
    + vm_compute. reflexivity.
  - intros count o.
    assert (Hmax : (N.of_nat count ≤ max_size (H:=long_long_elem))%N).
    { unfold count. rewrite N2Nat.id. discriminate. }
    assert (Hvmax :
      (@vector_max_size Z long_long_elem < N.of_nat count)%N).
    { unfold count. rewrite N2Nat.id. reflexivity. }
    assert (Hgrow : size_ o < count).
    { change (3 < count). unfold count. lia. }
    split; [exact Hmax|].
    exists (SV (arr_ o) (Some (Vector [] 0)) (size_ o)).
    split; [|by split_and!].
    exact (resize_with_refused (H:=long_long_elem) (STATIC_AMOUNT:=8)
             (emplace_back (Outside T_default)) count o []
             Hgrow Hmax Hvmax).
Qed.

Lemma at_spec_witness :
  let v : SmallVector Z 8 := inline_of [1; 2; 3; 4; 5]%Z in
  wf v ∧
  at_ 5 (Machine v []) = Throw out_of_range (Machine v []) ∧
  at_ 4 (Machine v []) = Done 5%Z (Machine v []).
Proof.
  assert (Hwf : wf (inline_of [1; 2; 3; 4; 5]%Z : SmallVector Z 8))
    by reflexivity.
  pose proof (at_spec (Machine (inline_of [1; 2; 3; 4; 5]%Z) []) 5 Hwf)
    as (_ & H5 & _ & _).
  split; [exact Hwf|]. split; [apply H5; simpl; lia|reflexivity].
Defined.

Lemma operator_eq_spec_witness :
  let a : SmallVector Z 8 := inline_of [1; 2; 3]%Z in
  let b : SmallVector Z 2 := spilled_of [1; 2; 3]%Z 4 in
  wf a ∧ wf b ∧ operator_eq a b = Some true ∧ operator_ne a b = Some false.
Proof.
  assert (Ha : wf (inline_of [1; 2; 3]%Z : SmallVector Z 8)) by reflexivity.
  assert (Hb : wf (spilled_of [1; 2; 3]%Z 4 : SmallVector Z 2))
    by reflexivity.
  destruct (operator_eq_spec _ _ Ha Hb) as (Heq & Hne & _).
  split; [exact Ha|]. split; [exact Hb|]. split; [exact Heq|exact Hne].
Defined.


(** The test of the repository: [{ SmallVector<Tracker> v(5); }] reports
    five constructions and five destructions. *)
Lemma tracker_construct_destroy :
  ∃ tr, (SmallVector_count 5 ;; destructor)%cxx
          (Machine (fresh : SmallVector unit 16) [])
        = Done tt (Machine fresh tr) ∧
        constructor_count tr = 5 ∧ destructor_count tr = 5 ∧
        move_count tr = 0 ∧ copy_count tr = 0.
Proof. eexists. split; [vm_compute; reflexivity|]. by vm_compute. Qed.

(** The older revision in [vec.hpp] constructs with [push_back(T())] and
    has an empty destructor body: the five temporaries are constructed and
    destroyed, the five elements moved into the buffer are never
    destroyed. *)
Lemma destructor_old_leaves_inline_elements :
  ∃ o tr, (SmallVector_count_old 5 ;; destructor_old)%cxx
            (Machine (fresh : SmallVector unit 16) [])
          = Done tt (Machine o tr) ∧
          contents o = [(); (); (); (); ()] ∧
          constructor_count tr = 5 ∧ move_count tr = 5 ∧
          destructor_count tr = 5.
Proof. eexists _, _. split; [vm_compute; reflexivity|]. by vm_compute. Qed.

(** C1.  The scenario of the specification: erasing the offsets [1, 3) of
    the inline container [0,1,2,3,4,5,6] leaves [0,3,4,5,6] and length 5,
    but the returned offset is 3, where the value 5 is; the first element
    after the removed range, the value 3, is at offset 1. *)
Theorem erase_range_scenario :
  let v : SmallVector Z 8 := inline_of [0; 1; 2; 3; 4; 5; 6]%Z in
  ∃ s',
    run (erase_range 1 3) v = Done 3 s' ∧
    obj s' = inline_of [0; 3; 4; 5; 6]%Z ∧
    contents (obj s') = [0; 3; 4; 5; 6]%Z ∧ size_ (obj s') = 5 ∧
    element (obj s') 3 = Some 5%Z ∧ element (obj s') 1 = Some 3%Z.
Proof. eexists. split; [vm_compute; reflexivity|]. by vm_compute. Qed.

(** The same call in the older revision in [vec.hpp], whose shifting loop
    starts one slot late: offset 1 is left as raw storage and the value 3
    is overwritten without having been moved or destroyed. *)
Lemma erase_range_old_scenario :
  let v : SmallVector Z 8 := inline_of [0; 1; 2; 3; 4; 5; 6]%Z in
  ∃ s',
    run (erase_range_old 1 3) v = Done 3 s' ∧
    arr_ (obj s')
    = [Some 0; None; Some 4; Some 5; Some 6; None; None; None]%Z ∧
    size_ (obj s') = 5 ∧ wfb (obj s') = false.
Proof. eexists. split; [vm_compute; reflexivity|]. by vm_compute. Qed.

Lemma spillover_touches_live_slots_only_witness :
  let o : SmallVector Z 5 := SV (Some <$> [0; 1; 2; 3; 4]%Z) None 6 in
  vec_ o = None ∧ length (arr_ o) = 5 ∧ 5 ≤ 6 ∧
  take (size_ o `min` 5) (arr_ o) = Some <$> [0; 1; 2; 3; 4]%Z ∧
  (N.of_nat 6 ≤ vector_max_size (T:=Z))%N ∧
  ∃ evs,
    spillover 6 (Machine o [])
    = Done tt (Machine
        (SV (replicate 5 None ++ drop 5 (arr_ o))
            (Some (Vector [0; 1; 2; 3; 4]%Z 6)) 6)
        ([] ++ evs)) ∧
    Forall (λ i, i < 6 ∧ i < 5) (slots_touched evs).
Proof.
  assert (H56 : 5 ≤ 6) by lia.
  assert (Hmax : (N.of_nat 6 ≤ vector_max_size (T:=Z))%N) by by vm_compute.
  split; [reflexivity|]. split; [reflexivity|]. split; [exact H56|].
  split; [reflexivity|]. split; [exact Hmax|].
  exact (proj1 (spillover_touches_live_slots_only
    (SV (Some <$> [0; 1; 2; 3; 4]%Z) None 6 : SmallVector Z 5)
    [0; 1; 2; 3; 4]%Z 6 [] eq_refl eq_refl H56 eq_refl) Hmax).
Defined.

Lemma append_concatenates_witness :
  let Y : SmallVector Z 8 := inline_of [1; 2; 3; 4]%Z in
  let X : SmallVector Z 8 := inline_of [5; 6; 7; 8]%Z in
  let w : gmap nat (SmallVector Z 8) := <[0 := Y]> {[ 1 := X ]} in
  0 ≠ 1 ∧ w !! 0 = Some Y ∧ w !! 1 = Some X ∧ wf Y ∧ wf X ∧
  (size_ X = 0 ∨ (N.of_nat (size_ Y + size_ X) ≤ vector_max_size)%N) ∧
  ∃ Y' X' tr',
    append_move 0 1 (Machine w [])
    = Done tt (Machine (<[1 := X']> (<[0 := Y']> w)) tr') ∧
    contents Y' = [1; 2; 3; 4; 5; 6; 7; 8]%Z ∧
    size_ Y' = 8 ∧ size_ X' = 0 ∧ contents X' = [].
Proof.
  assert (Hne : 0 ≠ 1) by lia.
  assert (Hmax : size_ (inline_of [5; 6; 7; 8]%Z : SmallVector Z 8) = 0 ∨
                 (N.of_nat (size_ (inline_of [1; 2; 3; 4]%Z : SmallVector Z 8)
                            + size_ (inline_of [5; 6; 7; 8]%Z : SmallVector Z 8))
                  ≤ vector_max_size)%N) by (right; by vm_compute).
  assert (HY : wf (inline_of [1; 2; 3; 4]%Z : SmallVector Z 8))
    by reflexivity.
  assert (HX : wf (inline_of [5; 6; 7; 8]%Z : SmallVector Z 8))
    by reflexivity.
  split; [exact Hne|]. split; [reflexivity|]. split; [reflexivity|].
  split; [exact HY|]. split; [exact HX|]. split; [exact Hmax|].
  pose proof (append_concatenates (STATIC_AMOUNT:=8) 0 1
    (<[0 := inline_of [1; 2; 3; 4]%Z]> {[ 1 := inline_of [5; 6; 7; 8]%Z ]})
    [] (inline_of [1; 2; 3; 4]%Z) (inline_of [5; 6; 7; 8]%Z)
    Hne eq_refl eq_refl HY HX) as [Happ _].
  destruct (Happ Hmax) as [Hmove _]. exact Hmove.
Defined.

(** C4.  Appending a container to itself.  The move-taking overload
    returns at once and changes nothing.  The copy-taking overload has no
    test for [this == &other]: on the inline [1, 2] it appends the
    elements to themselves and leaves [1, 2, 1, 2].  On a spilled
    container whose capacity is used up (nine elements pushed, erased down
    to three and shrunk to fit) the first [push_back] of the loop makes the
    vector reallocate, and the next element is read through a pointer into
    the buffer that has been freed. *)
Theorem self_append_scenario :
  let v : SmallVector Z 8 := inline_of [1; 2]%Z in
  let u : SmallVector Z 8 := spilled_of [0; 1; 2]%Z 3 in
  run (append_move 0 0) ({[ 0 := v ]} : gmap nat _)
  = Done tt (Machine {[ 0 := v ]} []) ∧
  (∃ v' w',
     run (append 0 0) ({[ 0 := v ]} : gmap nat _) = Done tt w' ∧
     obj w' !! 0 = Some v' ∧
     contents v' = [1; 2; 1; 2]%Z ∧ size_ v' = 4) ∧
  result (run (copy_back [0; 1; 2; 3; 4; 5; 6; 7; 8]%Z ;;
               erase_range 3 9 ;; shrink_to_fit)%cxx fresh) = Some u ∧
  wf u ∧
  run (append 0 0) ({[ 0 := u ]} : gmap nat _) = Fault undefined_behaviour.
Proof.
  intros v u. split_and!.
  - reflexivity.
  - eexists _, _. split; [vm_compute; reflexivity|]. by vm_compute.
  - vm_compute. reflexivity.
  - reflexivity.
  - vm_compute. reflexivity.
Qed.

(** ** The scenarios of the specification and of the tests *)

(** Pushing 0..9 into a container of inline capacity 8: spilled, size 10,
    [front()] is 0 and [back()] is 9. *)
Lemma scenario_push_ten :
  ∃ s : machine (SmallVector Z 8),
    run (SmallVector_default ;;
         copy_back [0; 1; 2; 3; 4; 5; 6; 7; 8; 9]%Z)%cxx fresh
    = Done tt s ∧
    is_vector (obj s) = true ∧ size (obj s) = 10 ∧
    front s = Done 0%Z s ∧ back s = Done 9%Z s.
Proof. eexists. split; [vm_compute; reflexivity|]. by vm_compute. Qed.

(** Inserting 100 at offset 1 of the inline [0,1,2,3,4]. *)
Lemma scenario_insert :
  ∃ s, run (insert 1 (Outside 100%Z))
         (inline_of [0; 1; 2; 3; 4]%Z : SmallVector Z 8)
       = Done 1 s ∧
       obj s = inline_of [0; 100; 1; 2; 3; 4]%Z.
Proof. eexists. split; [vm_compute; reflexivity|]. by vm_compute. Qed.

(** [resize(10)] on five elements with inline capacity 8. *)
Lemma scenario_resize :
  ∃ s, run (resize 10) (inline_of [1; 2; 3; 4; 5]%Z : SmallVector Z 8)
       = Done tt s ∧
       is_vector (obj s) = true ∧
       contents (obj s) = [1; 2; 3; 4; 5; 0; 0; 0; 0; 0]%Z.
Proof. eexists. split; [vm_compute; reflexivity|]. by vm_compute. Qed.

(** The destructor counts of the [erase()] test on five [Tracker]s: one
    for the last element, four for the first two, two for the first of
    two, one for the only one. *)
Lemma scenario_erase_tracker :
  ∃ s1 s2 s3 s4 : machine (SmallVector unit 16),
    run (erase 4) (inline_of [(); (); (); (); ()]) = Done 4 s1 ∧
    run (erase_range 0 2) (obj s1) = Done 2 s2 ∧
    run (erase 0) (obj s2) = Done 0 s3 ∧
    run (erase 0) (obj s3) = Done 0 s4 ∧
    destructor_count (trace s1) = 1 ∧ destructor_count (trace s2) = 4 ∧
    destructor_count (trace s3) = 2 ∧ destructor_count (trace s4) = 1 ∧
    size (obj s4) = 0.
Proof.
  eexists _, _, _, _.
  do 4 (split; [vm_compute; reflexivity|]). by vm_compute.
Qed.

(** * Further properties of the member functions *)

(** ** Element access and the modifiers at a position *)

Section Access_and_modifiers.
Context {T : Type} `{ElemType T} {STATIC_AMOUNT : nat}.
Context `{!InlineFits T STATIC_AMOUNT}.
Local Abbreviation SVec := (SmallVector T STATIC_AMOUNT).
Implicit Types (l : list T) (tr : list event) (o : SVec).

(** X1.  On a well-formed container, in either storage mode, [operator[](i)]
    and [at(i)] with [i < size()] return the [i]-th element and change
    nothing; on a non-empty container [front()] returns the first element
    and [back()] the last.  [front()] and [back()] are not checked: on an
    empty container they read where no element lives, which is undefined
    behaviour. *)
Theorem element_access_in_range (s : machine SVec) :
  wf (obj s) →
  (∀ i, i < size_ (obj s) →
     ∃ x, contents (obj s) !! i = Some x ∧
          operator_index i s = Done x s ∧ at_ i s = Done x s) ∧
  (0 < size_ (obj s) →
     ∃ x y, head (contents (obj s)) = Some x ∧
            last (contents (obj s)) = Some y ∧
            front s = Done x s ∧ back s = Done y s) ∧
  (size_ (obj s) = 0 →
     front s = Fault undefined_behaviour ∧
     back s = Fault undefined_behaviour).
Proof.
  intros Hwf. destruct s as [o tr]. simpl in *.
  assert (Hidx : ∀ i, i < size_ o →
    ∃ x, contents o !! i = Some x ∧
         operator_index i (Machine o tr) = Done x (Machine o tr) ∧
         at_ i (Machine o tr) = Done x (Machine o tr)).
  { intros i Hi.
    destruct (at_in_range (Machine o tr) i Hwf Hi) as (x & Hx & E).
    exists x. split_and!; [done| |done]. by apply operator_index_spec. }
  split_and!; [done| |].
  - intros Hpos.
    destruct (Hidx 0 Hpos) as (x & Hx & Ex & _).
    destruct (Hidx (size_ o - 1)) as (y & Hy & Ey & _); [lia|].
    exists x, y. split_and!.
    + by rewrite head_lookup.
    + rewrite last_lookup, <- Hy. f_equal. rewrite <- wf_size by done. lia.
    + done.
    + unfold back. erewrite bind_Done; [|reflexivity]. cbn [obj].
      by rewrite size_t_sub_le by lia.
  - intros H0.
    assert (Hnil : contents o = []).
    { apply length_zero_iff_nil. by rewrite <- wf_size. }
    assert (Hnone : ∀ i, operator_index i (Machine o tr)
                         = Fault undefined_behaviour).
    { intros i. unfold operator_index.
      erewrite bind_Done; [|reflexivity]. cbn [obj].
      by rewrite element_contents, Hnil. }
    split; [apply Hnone|].
    unfold back. erewrite bind_Done; [|reflexivity]. apply Hnone.
Qed.

(** Reading an argument before anything has changed gives the value of
    the object it names. *)
Lemma read_spec (val : ref T) value o tr :
  wf o → referent o val = Some value →
  read (buffer_of o) val (Machine o tr) = Done value (Machine o tr).
Proof.
  intros Hwf Hval. destruct val as [v|i]; simpl in *.
  - by injection Hval as ->.
  - by apply deref_spec.
Qed.

Lemma insert_copy_effect idx (val : ref T) value o tr :
  wf o → idx ≤ size_ o → referent o val = Some value →
  ∃ o' evs,
    insert_copy idx val (Machine o tr)
    = Done idx (Machine o' (tr ++ evs)) ∧
    wf o' ∧
    contents o' = take idx (contents o) ++ value :: drop idx (contents o) ∧
    is_array o' = is_array o && (size_ o <? STATIC_AMOUNT) ∧
    constructions evs = destructor_count evs + 1.
Proof.
  intros Hwf Hidx Hval.
  set (e := CopyConstruct Temp (ref_place (buffer_of o) val)).
  destruct (insert_with_effect (ByMove Temp) idx value o
              (tr ++ [e]) Hwf Hidx)
    as (o' & evs & E & Hwf' & Hc & Hm & Hn).
  exists o', ([e] ++ evs ++ [Destruct Temp]).
  split_and!; [|done..|].
  - unfold insert_copy. erewrite bind_Done; [|reflexivity]. cbn [obj].
    erewrite bind_Done; [|by apply read_spec].
    erewrite bind_Done; [|reflexivity].
    erewrite bind_Done; [|exact E].
    erewrite bind_Done; [|reflexivity]. cbn [obj trace ret].
    by rewrite <- !app_assoc.
  - rewrite !constructions_app, !destructor_count_app.
    change (constructions [e]) with 1.
    change (destructor_count [e]) with 0.
    change (constructions [Destruct Temp]) with 0.
    change (destructor_count [Destruct Temp]) with 1. lia.
Qed.

(** X2.  [insert(pos, T&&)] and [emplace(pos, args...)] with an argument
    that is no element of the container, and [insert(pos, const T&)] with
    any argument (it copies its argument before anything moves), at a valid
    position [idx <= size()] of a well-formed container: the call returns
    the position [idx]; afterwards the value is at [idx] ([at(idx)] returns
    it), the elements before it are as they were, the others follow in
    order, and the length has grown by one.  The container is inline
    afterwards exactly if it was inline with room left.  The call
    constructs one object more than it destroys. *)
Theorem insert_places_value idx value o tr :
  wf o → idx ≤ size_ o →
  let placed (r : outcome (machine SVec) nat) :=
    ∃ o' evs,
      r = Done idx (Machine o' (tr ++ evs)) ∧
      wf o' ∧
      contents o' = take idx (contents o) ++ value :: drop idx (contents o) ∧
      size_ o' = size_ o + 1 ∧
      is_array o' = is_array o && (size_ o <? STATIC_AMOUNT) ∧
      constructions evs = destructor_count evs + 1 ∧
      ∀ tr', at_ idx (Machine o' tr') = Done value (Machine o' tr') in
  placed (insert idx (Outside value) (Machine o tr)) ∧
  placed (emplace idx (Outside value) (Machine o tr)) ∧
  ∀ val, referent o val = Some value →
    placed (insert_copy idx val (Machine o tr)).
Proof.
  intros Hwf Hidx placed.
  assert (Hplaced : ∀ r,
    (∃ o' evs,
       r = Done idx (Machine o' (tr ++ evs)) ∧
       wf o' ∧
       contents o' = take idx (contents o) ++ value :: drop idx (contents o) ∧
       is_array o' = is_array o && (size_ o <? STATIC_AMOUNT) ∧
       constructions evs = destructor_count evs + 1) →
    placed r).
  { intros r (o' & evs & E & Hwf' & Hc & Hm & Hn).
    assert (Hlen : idx ≤ length (contents o)) by by rewrite <- wf_size.
    assert (Hsz : size_ o' = size_ o + 1).
    { rewrite (wf_size o'), Hc, length_inserted, <- wf_size by done. done. }
    exists o', evs. split_and!; [done..|].
    intros tr'.
    destruct (at_in_range (Machine o' tr') idx Hwf') as (x & Hx & Ex);
      [simpl; lia|].
    simpl in Hx. rewrite Hc in Hx.
    rewrite lookup_app_r in Hx by (rewrite length_take; lia).
    rewrite length_take in Hx.
    replace (idx - idx `min` length (contents o)) with 0 in Hx by lia.
    simpl in Hx. by injection Hx as <-. }
  split_and!.
  - apply Hplaced. rewrite insert_outside. by apply insert_with_effect.
  - apply Hplaced. rewrite emplace_outside. by apply insert_with_effect.
  - intros val Hval. apply Hplaced. by apply insert_copy_effect.
Qed.

(** X3.  [erase(pos)] at a valid position [idx < size()] of a well-formed
    container returns the position [idx], which now holds the element that
    followed; the other elements keep their order, the length decreases by
    one, the storage mode and the capacity stay.  The call destroys one
    object more than it constructs; on an inline container it runs [size() -
    idx] destructors (one for the erased element and one for each element it
    moves down). *)
Theorem erase_removes_element idx o tr :
  wf o → idx < size_ o →
  ∃ o' evs,
    erase idx (Machine o tr) = Done idx (Machine o' (tr ++ evs)) ∧
    wf o' ∧
    contents o' = take idx (contents o) ++ drop (S idx) (contents o) ∧
    size_ o' = size_ o - 1 ∧
    contents o' !! idx = contents o !! S idx ∧
    is_vector o' = is_vector o ∧ capacity o' = capacity o ∧
    destructor_count evs = constructions evs + 1 ∧
    (is_array o = true → destructor_count evs = size_ o - idx).
Proof.
  intros Hwf Hidx.
  destruct (erase_effect idx o tr Hwf Hidx)
    as (o' & evs & E & Hwf' & Hc & Hv & Hcap & Hn & Hd & _).
  assert (Hlen : idx < length (contents o)) by by rewrite <- wf_size.
  exists o', evs. split_and!; try done.
  - rewrite (wf_size o'), Hc, length_erased, <- wf_size by (done || lia). lia.
  - rewrite Hc, lookup_app_r by (rewrite length_take; lia).
    rewrite length_take, lookup_drop. f_equal. lia.
Qed.

(** X4.  [erase(first, last)] of a non-empty valid range keeps the storage
    mode and the capacity, in either mode, and destroys [last - first]
    objects more than it constructs (on an inline container it runs [size()
    - first] destructors).  On a spilled container it returns the position
    [first], which then holds the element that was at [last], and it
    constructs nothing. *)
Theorem erase_range_spilled first_idx last_idx o tr :
  wf o → first_idx < last_idx → last_idx ≤ size_ o →
  ∃ it o' evs,
    erase_range first_idx last_idx (Machine o tr)
    = Done it (Machine o' (tr ++ evs)) ∧
    wf o' ∧
    contents o'
    = take first_idx (contents o) ++ drop last_idx (contents o) ∧
    is_vector o' = is_vector o ∧ capacity o' = capacity o ∧
    destructor_count evs = constructions evs + (last_idx - first_idx) ∧
    (is_array o = true → destructor_count evs = size_ o - first_idx) ∧
    (is_vector o = true →
       it = first_idx ∧ constructions evs = 0 ∧
       contents o' !! it = contents o !! last_idx).
Proof.
  intros Hwf Hfl Hll.
  destruct (erase_range_effect first_idx last_idx o tr Hwf Hfl Hll)
    as (o' & evs & E & Hwf' & Hc & Hs & Hv & Hcap & Hn & Hd).
  assert (Hlen : last_idx ≤ length (contents o)) by by rewrite <- wf_size.
  eexists _, o', evs. split_and!; [exact E|done..|].
  intros Hvec. rewrite Hvec. split_and!; [done| |].
  - destruct (wf_normal_form o Hwf) as [(l & _ & ->)|(l & cap & _ & ->)];
      [done|].
    revert E. unfold erase_range, spilled_of.
    erewrite bind_Done; [|reflexivity]. cbn [obj size_ is_vector vec_].
    erewrite bind_Done.
    2: { apply (vec_call_run _ _ _ _ _ first_idx
                  (Vector (take first_idx l ++ drop last_idx l) cap)
                  (replicate (last_idx - first_idx) (Destruct Heap))).
         unfold vec_erase_range. cbn [elems vcapacity].
         destruct (Nat.leb_spec first_idx last_idx); [|lia].
         destruct (Nat.leb_spec last_idx (length l)); [|simpl in *; lia].
         done. }
    erewrite bind_Done; [|apply set_size_run].
    intros [= _ Htr]. apply app_inv_head in Htr. subst evs.
    by destruct (tally_destructs (last_idx - first_idx) Heap) as [-> _].
  - rewrite Hc, lookup_app_r by (rewrite length_take; lia).
    rewrite length_take, lookup_drop. f_equal. lia.
Qed.

(** X5.  [pop_back()] on a non-empty well-formed container removes the last
    element with one destructor call and no construction or move; the
    storage mode and the capacity stay. *)
Theorem pop_back_removes_last o tr :
  wf o → 0 < size_ o →
  ∃ o' evs,
    pop_back (Machine o tr) = Done tt (Machine o' (tr ++ evs)) ∧
    wf o' ∧ contents o' = removelast (contents o) ∧
    size_ o' = size_ o - 1 ∧
    is_vector o' = is_vector o ∧ capacity o' = capacity o ∧
    constructions evs = 0 ∧ destructor_count evs = 1.
Proof.
  intros Hwf Hpos.
  destruct (pop_back_effect o tr Hwf Hpos)
    as (o' & evs & E & Hwf' & Hc & Hv & Hcap & Hn & Hd).
  exists o', evs. split_and!; [done|done| | |done..].
  - rewrite Hc, (wf_size o) by done.
    by rewrite removelast_firstn_len, Nat.sub_1_r.
  - rewrite (wf_size o'), Hc, length_take, <- wf_size by done. lia.
Qed.

(** X6.  [clear()] on a well-formed container destroys each element once and
    constructs nothing; afterwards the container is empty ([size()] is 0,
    [empty()] holds, every [at(i)] throws), in the same storage mode and
    with the same capacity: a spilled container keeps its vector.  A second
    [clear()] does nothing. *)
Theorem clear_empties o tr :
  wf o →
  ∃ o' evs,
    clear (Machine o tr) = Done tt (Machine o' (tr ++ evs)) ∧
    wf o' ∧ contents o' = [] ∧ size o' = 0 ∧ empty o' = true ∧
    is_vector o' = is_vector o ∧ capacity o' = capacity o ∧
    constructions evs = 0 ∧ destructor_count evs = size_ o ∧
    (∀ tr', clear (Machine o' tr') = Done tt (Machine o' tr')) ∧
    (∀ i tr', at_ i (Machine o' tr') = Throw out_of_range (Machine o' tr')).
Proof.
  intros Hwf.
  destruct (clear_effect o tr Hwf)
    as (o' & evs & E & Hwf' & Hc & Hs & Hv & Hcap & Hn & Hd & Hidem).
  exists o', evs. unfold size, empty. rewrite Hs.
  split_and!; [done..|].
  intros i tr'. apply at_out_of_range. simpl. lia.
Qed.

(** X7.  [reserve(n)] on a well-formed container, for an [n] that is at most
    the [max_size()] of the vector, keeps the elements, never lowers the
    capacity and constructs as many objects as it destroys.  The container
    is spilled afterwards exactly if it was spilled or [n] exceeds the
    inline capacity.  The capacity is at least [n] afterwards if [n]
    exceeds the inline capacity or the container was inline; a request of
    at most the inline capacity, or within the current capacity, changes
    nothing at all (so the capacity of a spilled container can stay below
    such an [n]).  A larger [n] is refused with a length error, which
    leaves a spilled container exactly as it was. *)
Theorem reserve_ensures_capacity n o tr :
  wf o →
  ((N.of_nat n ≤ vector_max_size)%N →
   ∃ o' evs,
     reserve n (Machine o tr) = Done tt (Machine o' (tr ++ evs)) ∧
     wf o' ∧ contents o' = contents o ∧
     is_vector o' = is_vector o || (STATIC_AMOUNT <? n) ∧
     capacity o ≤ capacity o' ∧
     (STATIC_AMOUNT < n ∨ is_array o = true → n ≤ capacity o') ∧
     constructions evs = destructor_count evs ∧
     (n ≤ capacity o ∨ n ≤ STATIC_AMOUNT → o' = o ∧ evs = [])) ∧
  ((vector_max_size < N.of_nat n)%N →
   ∃ o', reserve n (Machine o tr) = Throw length_error (Machine o' tr) ∧
         (is_vector o = true → o' = o)).
Proof.
  intros Hwf. split.
  - intros Hmax.
    destruct (reserve_effect n o tr Hwf Hmax)
      as (o' & evs & E & Hwf' & Hc & Hv & Hcap & Hn & Hb & Hid).
    exists o', evs. split_and!; [done..|].
    intros [Hle|Hle]; [by apply Hid|].
    rewrite reserve_small in E by done.
    injection E as <- Htr. split; [done|].
    apply (app_inv_head tr). by rewrite app_nil_r.
  - intros Hmax. eexists. split; [by apply reserve_refused|].
    by intros ->.
Qed.

(** X8.  [shrink_to_fit()] keeps the elements and the storage mode (a
    spilled container stays spilled even when its elements would fit
    inline), never raises the capacity and constructs as many objects as it
    destroys; on an inline container it does nothing at all. *)
Theorem shrink_to_fit_keeps_elements o tr :
  wf o →
  ∃ o' evs,
    shrink_to_fit (Machine o tr) = Done tt (Machine o' (tr ++ evs)) ∧
    wf o' ∧ contents o' = contents o ∧ is_vector o' = is_vector o ∧
    size_ o' ≤ capacity o' ∧ capacity o' ≤ capacity o ∧
    constructions evs = destructor_count evs ∧
    (is_array o = true → o' = o ∧ evs = []).
Proof.
  intros Hwf.
  destruct (shrink_to_fit_effect o tr Hwf)
    as (o' & evs & E & Hwf' & Hc & Hv & Hcap & Hn & Hid).
  exists o', evs. split_and!; try done.
  by apply wf_size_le_capacity.
Qed.

End Access_and_modifiers.

Section Empty_range.
Context {T : Type} `{ElemType T} {STATIC_AMOUNT : nat}.
Context `{!InlineFits T STATIC_AMOUNT}.
Local Abbreviation SVec := (SmallVector T STATIC_AMOUNT).
Local Abbreviation tab := (@tabulate T STATIC_AMOUNT).
Implicit Types (l : list T) (tr : list event).

(** X9.  [erase(pos, pos)], the empty range.  On a spilled container nothing
    happens.  On an inline container the second loop runs with a distance of
    zero: each element from [pos] on is move-constructed onto itself and
    then destroyed, while the length stays as it is; afterwards the slots
    from [pos] on are raw storage although [size()] still counts them, and
    reading them is undefined behaviour. *)
Theorem erase_empty_range l idx tr :
  idx ≤ length l →
  (∀ cap,
     erase_range idx idx (Machine (spilled_of l cap : SVec) tr)
     = Done idx (Machine (spilled_of l cap) (tr ++ []))) ∧
  (length l ≤ STATIC_AMOUNT →
   ∃ evs,
     erase_range idx idx (Machine (inline_of l : SVec) tr)
     = Done idx
         (Machine (SV (arr_ (inline_of (take idx l) : SVec)) None (length l))
            (tr ++ evs)) ∧
     constructions evs = length l - idx ∧
     destructor_count evs = length l - idx ∧
     ∀ i tr', idx ≤ i →
       operator_index i
         (Machine (SV (arr_ (inline_of (take idx l) : SVec)) None (length l)
                     : SVec) tr')
       = Fault undefined_behaviour).
Proof.
  intros Hidx. split.
  { intros cap. unfold erase_range, spilled_of.
    erewrite bind_Done; [|reflexivity]. cbn [obj size_ is_vector vec_].
    erewrite bind_Done.
    2: { apply (vec_call_run _ _ _ _ _ idx (Vector l cap) []).
         unfold vec_erase_range. cbn [elems vcapacity].
         destruct (Nat.leb_spec idx idx); [|lia].
         destruct (Nat.leb_spec idx (length l)); [|lia].
         by rewrite Nat.sub_diag, take_drop. }
    erewrite bind_Done; [|apply set_size_run].
    by rewrite (size_t_sub_le idx idx), Nat.sub_diag, size_t_sub_le,
      Nat.sub_0_r by lia. }
  intros HlN.
  exists (flat_map (λ i, [MoveConstruct (Inline i) (Inline i);
                          Destruct (Inline i)])
            (seq idx (length l - idx))).
  assert (Harr : arr_ (inline_of (take idx l) : SVec)
                 = tab (λ p, if decide (p < idx) then l !! p else None)).
  { unfold inline_of. cbn [arr_]. rewrite inline_buffer
      by (rewrite length_take; lia).
    apply tabulate_ext. intros p _. case_decide.
    - by rewrite lookup_take_lt.
    - apply lookup_ge_None_2. rewrite length_take. lia. }
  rewrite !Harr. split_and!.
  - rewrite inline_of_tabulate by lia. unfold erase_range.
    erewrite bind_Done; [|reflexivity]. cbn [obj size_ is_vector vec_].
    rewrite (size_t_sub_le idx idx), Nat.sub_diag by lia.
    rewrite size_t_sub_le, Nat.sub_0_r by lia.
    erewrite bind_Done; [|reflexivity].
    pose (O := λ i, SV (tab (λ p, if decide (idx ≤ p < i) then None
                                  else l !! p)) None (length l) : SVec).
    assert (E0 : SV (tab (λ p, l !! p)) None (length l) = O idx).
    { unfold O. f_equal. apply tabulate_ext. intros p _.
      case_decide; [lia|done]. }
    rewrite E0.
    erewrite bind_Done.
    2: { apply (for_up_states O
           (λ i, [MoveConstruct (Inline i) (Inline i); Destruct (Inline i)])).
         intros i tr' Hi. unfold O.
         destruct (lookup_lt_is_Some_2 l i) as [v Hv]; [lia|].
         rewrite size_t_sub_le, Nat.sub_0_r by lia.
         erewrite (shift_step_tab _ _ _ _ _ _ v);
           [|lia|lia|rewrite decide_False by lia; done].
         do 2 f_equal. f_equal. apply tabulate_ext. intros p _.
         repeat case_decide; done || lia. }
    erewrite bind_Done; [|apply set_size_run]. cbn [arr_ vec_].
    erewrite bind_Done; [|reflexivity]. cbn [obj size_].
    assert (Hret : (if idx =? length l then ret (length l) else ret idx)
                   = (ret idx : M SVec nat)).
    { by destruct (Nat.eqb_spec idx (length l)) as [<-|]. }
    rewrite Hret. unfold ret, O. do 2 f_equal. f_equal.
    apply tabulate_ext. intros p _.
    replace (idx + (length l - idx)) with (length l) by lia.
    repeat case_decide; try done; try lia.
    apply lookup_ge_None_2. lia.
  - unfold constructions, constructor_count, copy_count, move_count.
    rewrite !count_events_pairs.
    repeat first [ rewrite count_events_all by done
                 | rewrite count_events_none by done ].
    rewrite length_seq. lia.
  - unfold destructor_count. rewrite !count_events_pairs.
    repeat first [ rewrite count_events_all by done
                 | rewrite count_events_none by done ].
    rewrite length_seq. lia.
  - intros i tr' Hi. unfold operator_index.
    erewrite bind_Done; [|reflexivity]. unfold element. cbn [obj vec_ arr_].
    rewrite tabulate_lookup. case_decide; [|done].
    by rewrite decide_False by lia.
Qed.

End Empty_range.

(** ** Appending at the end *)

Section Pushing.
Context {T : Type} `{ElemType T} {STATIC_AMOUNT : nat}.
Context `{!InlineFits T STATIC_AMOUNT}.
Local Abbreviation SVec := (SmallVector T STATIC_AMOUNT).
Implicit Types (l : list T) (tr : list event) (o : SVec).

(** One construction event per value, each of the kind the value asks
    for, and nothing else. *)
Lemma tally_constructs {A} (evs : list event) (vals : list (source * A)) :
  Forall2 (λ e hv, ∃ dst, e = construct_event hv.1 dst) evs vals →
  constructions evs = length vals ∧ destructor_count evs = 0.
Proof.
  induction 1 as [|e hv evs vals (dst & ->) _ [IHc IHd]]; [done|].
  change (?e :: evs) with ([e] ++ evs).
  rewrite constructions_app, destructor_count_app, IHc, IHd.
  destruct (tally_construct_event hv.1 dst) as [-> ->]. done.
Qed.

Lemma for_up_pushes how x n :
  ∀ lo (s : machine SVec),
  for_up lo n (λ _, push_back_with how x) s = pushes (replicate n (how, x)) s.
Proof.
  induction n as [|n IH]; intros lo s; [done|].
  simpl. unfold bind. destruct (push_back_with how x s); [apply IH|done..].
Qed.

Lemma copy_back_pushes l (s : machine SVec) :
  copy_back l s = pushes ((λ x, (ByCopy Caller, x)) <$> l) s.
Proof.
  revert s. induction l as [|x l IH]; intros s; [done|].
  simpl. rewrite push_back_outside. unfold bind.
  destruct (push_back_with (ByCopy Caller) x s); [apply IH|done..].
Qed.

(** Pushes that fit into the capacity construct the new elements and do
    nothing else: no element is moved, the capacity and the storage mode
    stay. *)
Lemma pushes_with_room (vals : list (source * T)) :
  ∀ o tr, wf o → size_ o + length vals ≤ capacity o →
  ∃ o' evs,
    pushes vals (Machine o tr) = Done tt (Machine o' (tr ++ evs)) ∧
    wf o' ∧ contents o' = contents o ++ vals.*2 ∧
    is_vector o' = is_vector o ∧ capacity o' = capacity o ∧
    Forall2 (λ e hv, ∃ dst, e = construct_event hv.1 dst) evs vals.
Proof.
  induction vals as [|[how x] vals IH]; intros o tr Hwf Hroom.
  { exists o, []. rewrite !app_nil_r. by split_and!. }
  simpl in Hroom.
  destruct (push_back_with_room how x o tr Hwf)
    as (o1 & dst & E1 & Hwf1 & Hc1 & Hv1 & Hcap1); [lia|].
  destruct (IH o1 (tr ++ [construct_event how dst]) Hwf1)
    as (o2 & evs & E2 & Hwf2 & Hc2 & Hv2 & Hcap2 & Hevs).
  { rewrite (wf_size o1), Hc1, length_app, <- wf_size, Hcap1 by done.
    simpl. lia. }
  exists o2, (construct_event how dst :: evs).
  split_and!; [|done| |congruence|congruence|].
  - cbn [pushes]. erewrite bind_Done; [|exact E1].
    rewrite E2. by rewrite <- app_assoc.
  - rewrite Hc2, Hc1, <- app_assoc. done.
  - constructor; [by exists dst|done].
Qed.

(** X10.  [push_back(const T&)], [push_back(T&&)] and [emplace_back], with
    an argument that is no element of the container, on a well-formed
    container return normally, append the value (afterwards [back()]
    returns it) and increase the length by one.  The container is
    inline afterwards exactly if it was inline with room left.  The call
    constructs one object more than it destroys; when the length was below
    the capacity it constructs the new element and does nothing else:
    nothing is moved or destroyed and the capacity stays. *)
Theorem push_back_appends (op : ref T → M SVec unit) x o tr :
  In op [push_back; push_back_move; emplace_back] → wf o →
  ∃ o' evs,
    op (Outside x) (Machine o tr) = Done tt (Machine o' (tr ++ evs)) ∧
    wf o' ∧ contents o' = contents o ++ [x] ∧
    size_ o' = size_ o + 1 ∧
    is_array o' = is_array o && (size_ o <? STATIC_AMOUNT) ∧
    constructions evs = destructor_count evs + 1 ∧
    (size_ o < capacity o →
       capacity o' = capacity o ∧
       constructions evs = 1 ∧ destructor_count evs = 0) ∧
    ∀ tr', back (Machine o' tr') = Done x (Machine o' tr').
Proof.
  intros Hop Hwf.
  assert (∃ how, op (Outside x) = push_back_with how x) as [how ->].
  { destruct Hop as [<-|[<-|[<-|[]]]];
      [by exists (ByCopy Caller)|by exists (ByMove Caller)|by exists FromArgs]. }
  destruct (push_back_with_spec how x o tr Hwf)
    as (o' & evs & E & Hwf' & Hc & Hm & Hn).
  assert (Hs : size_ o' = size_ o + 1).
  { rewrite (wf_size o'), Hc, length_app, <- wf_size by done. done. }
  exists o', evs. split_and!; try done.
  - by rewrite (wf_size o).
  - intros Hroom.
    destruct (push_back_with_room how x o tr Hwf Hroom)
      as (o1 & dst & E1 & _ & _ & _ & Hcap1).
    rewrite E in E1. injection E1 as -> Htr.
    apply app_inv_head in Htr. subst evs.
    destruct (tally_construct_event how dst) as [-> ->]. done.
  - intros tr'. unfold back. erewrite bind_Done; [|reflexivity]. cbn [obj].
    rewrite size_t_sub_le by lia.
    apply operator_index_spec; [done|].
    rewrite Hc, Hs, (wf_size o) by done.
    replace (length (contents o) + 1 - 1) with (length (contents o) + 0)
      by lia.
    by rewrite lookup_app_r, Nat.add_0_r, Nat.sub_diag by lia.
Qed.

(** X11.  After [reserve(n)] on a well-formed container (with [n] above the
    inline capacity, or the container inline), a sequence of
    [push_back]/[emplace_back] calls that keeps the length within [n]
    constructs exactly one object per call and destroys none: no element is
    relocated, and the capacity and the storage mode stay as [reserve] left
    them.  An [n] above the [max_size()] of the vector is refused: there
    [reserve(n)] throws a length error. *)
Theorem pushes_within_capacity (vals : list (source * T)) n o tr :
  wf o → size_ o + length vals ≤ n →
  STATIC_AMOUNT < n ∨ is_array o = true →
  ((N.of_nat n ≤ vector_max_size)%N →
   ∃ o1 evs1 o2 evs2,
     reserve n (Machine o tr) = Done tt (Machine o1 (tr ++ evs1)) ∧
     pushes vals (Machine o1 (tr ++ evs1))
     = Done tt (Machine o2 ((tr ++ evs1) ++ evs2)) ∧
     wf o2 ∧ contents o2 = contents o ++ vals.*2 ∧
     capacity o2 = capacity o1 ∧ is_vector o2 = is_vector o1 ∧
     constructions evs2 = length vals ∧ destructor_count evs2 = 0) ∧
  ((vector_max_size < N.of_nat n)%N →
   ∃ o', reserve n (Machine o tr) = Throw length_error (Machine o' tr)).
Proof.
  intros Hwf Hn Hmode. split; [|intros Hmax; eexists; by apply reserve_refused].
  intros Hmax.
  destruct (reserve_effect n o tr Hwf Hmax)
    as (o1 & evs1 & E1 & Hwf1 & Hc1 & _ & _ & Hcap1 & _).
  destruct (pushes_with_room vals o1 (tr ++ evs1) Hwf1)
    as (o2 & evs2 & E2 & Hwf2 & Hc2 & Hv2 & Hcap2 & Hevs).
  { rewrite (wf_size o1), Hc1, <- wf_size by done.
    specialize (Hcap1 Hmode). lia. }
  exists o1, evs1, o2, evs2.
  destruct (tally_constructs evs2 vals Hevs) as [-> ->].
  split_and!; done || congruence.
Qed.

(** X12.  [push_back]/[emplace_back] followed by [pop_back()] gives the
    elements and the length back and constructs as many objects as it
    destroys.  The storage mode is not given back: if the push spilled the
    container, it stays spilled. *)
Theorem push_pop_round_trip how x o tr :
  wf o →
  ∃ o' evs,
    (push_back_with how x ;; pop_back) (Machine o tr)
    = Done tt (Machine o' (tr ++ evs)) ∧
    wf o' ∧ contents o' = contents o ∧ size_ o' = size_ o ∧
    is_array o' = is_array o && (size_ o <? STATIC_AMOUNT) ∧
    constructions evs = destructor_count evs.
Proof.
  intros Hwf.
  destruct (push_back_with_spec how x o tr Hwf)
    as (o1 & evs1 & E1 & Hwf1 & Hc1 & Hm1 & Hn1).
  assert (Hs1 : size_ o1 = size_ o + 1).
  { rewrite (wf_size o1), Hc1, length_app, <- wf_size by done. done. }
  destruct (pop_back_effect o1 (tr ++ evs1) Hwf1)
    as (o2 & evs2 & E2 & Hwf2 & Hc2 & Hv2 & _ & Hn2 & Hd2); [lia|].
  assert (Hc : contents o2 = contents o).
  { rewrite Hc2, Hc1, Hs1, (wf_size o) by done.
    replace (length (contents o) + 1 - 1) with (length (contents o)) by lia.
    by rewrite take_app_length. }
  exists o2, (evs1 ++ evs2). split_and!; [|done|done| | |].
  - erewrite bind_Done; [|exact E1]. rewrite E2. by rewrite <- app_assoc.
  - by rewrite (wf_size o2), Hc, <- wf_size.
  - unfold is_array in *. rewrite Hv2, Hm1. by rewrite (wf_size o).
  - rewrite constructions_app, destructor_count_app. lia.
Qed.

(** X13.  [insert]/[emplace] at a valid position followed by [erase] of the
    returned position gives the elements and the length back and constructs
    as many objects as it destroys; if the insertion spilled the container,
    it stays spilled. *)
Theorem insert_erase_round_trip how idx value o tr :
  wf o → idx ≤ size_ o →
  ∃ o' evs,
    (let* it := insert_with how idx value in erase it) (Machine o tr)
    = Done idx (Machine o' (tr ++ evs)) ∧
    wf o' ∧ contents o' = contents o ∧ size_ o' = size_ o ∧
    is_array o' = is_array o && (size_ o <? STATIC_AMOUNT) ∧
    constructions evs = destructor_count evs.
Proof.
  intros Hwf Hidx.
  assert (Hlen : idx ≤ length (contents o)) by by rewrite <- wf_size.
  destruct (insert_with_effect how idx value o tr Hwf Hidx)
    as (o1 & evs1 & E1 & Hwf1 & Hc1 & Hm1 & Hn1).
  destruct (erase_effect idx o1 (tr ++ evs1) Hwf1)
    as (o2 & evs2 & E2 & Hwf2 & Hc2 & Hv2 & _ & Hn2 & _).
  { rewrite (wf_size o1), Hc1, length_inserted by done. lia. }
  assert (Hc : contents o2 = contents o).
  { rewrite Hc2, Hc1.
    rewrite take_app_length' by (rewrite length_take; lia).
    rewrite drop_app_ge by (rewrite length_take; lia).
    rewrite length_take.
    replace (S idx - idx `min` length (contents o)) with 1 by lia.
    simpl. rewrite drop_0. apply take_drop. }
  exists o2, (evs1 ++ evs2). split_and!; [|done|done| | |].
  - erewrite bind_Done; [|exact E1]. rewrite E2. by rewrite <- app_assoc.
  - by rewrite (wf_size o2), Hc, <- wf_size.
  - unfold is_array in *. by rewrite Hv2, Hm1.
  - rewrite constructions_app, destructor_count_app. lia.
Qed.

End Pushing.

(** ** Resizing and construction *)

Section Resizing_and_construction.
Context {T : Type} `{ElemType T} {STATIC_AMOUNT : nat}.
Context `{!InlineFits T STATIC_AMOUNT}.
Local Abbreviation SVec := (SmallVector T STATIC_AMOUNT).
Implicit Types (l : list T) (tr : list event) (o : SVec).

Lemma wf_inline_size o : wf o → is_vector o = false → size_ o ≤ STATIC_AMOUNT.
Proof.
  intros Hwf Hv. rewrite (wf_size o) by done.
  apply wf_is_array_length; [done|]. unfold is_array. by rewrite Hv.
Qed.

(** [resize] to a count that [max_size()] allows and, where the container
    has to grow, that the vector accepts. *)
Lemma resize_with_effect how value count o tr :
  wf o → (N.of_nat count ≤ max_size)%N ∨ count = size_ o →
  (N.of_nat count ≤ vector_max_size)%N ∨ count ≤ size_ o →
  ∃ o' evs,
    resize_with (push_back_with how value) count (Machine o tr)
    = Done tt (Machine o' (tr ++ evs)) ∧
    wf o' ∧
    contents o'
    = take count (contents o) ++ replicate (count - size_ o) value ∧
    size_ o' = count ∧
    is_vector o' = is_vector o || (STATIC_AMOUNT <? count) ∧
    constructions evs + size_ o = destructor_count evs + count.
Proof.
  intros Hwf Hmax Hvmax. unfold resize_with.
  erewrite bind_Done; [|reflexivity]. cbn [obj].
  assert (Hmode : count ≤ size_ o →
    is_vector o = is_vector o || (STATIC_AMOUNT <? count)).
  { intros Hle. destruct (is_vector o) eqn:Hv; [done|].
    pose proof (wf_inline_size o Hwf Hv). simpl. symmetry.
    apply Nat.ltb_ge. lia. }
  destruct (Nat.eqb_spec count (size_ o)) as [->|Hne].
  { exists o, []. rewrite app_nil_r, Nat.sub_diag. simpl.
    rewrite app_nil_r, take_ge by (rewrite <- wf_size by done; lia).
    split_and!; [done..|by apply Hmode|done]. }
  destruct Hmax as [Hmax|?]; [|done].
  destruct (N.ltb_spec max_size (N.of_nat count)); [lia|].
  destruct (Nat.ltb_spec count (size_ o)) as [Hlt|Hge].
  - destruct (erase_range_effect count (size_ o) o tr Hwf)
      as (o' & evs & E & Hwf' & Hc & Hs & Hv & _ & Hn & _); [lia..|].
    exists o', evs. split_and!; [|done| | | |].
    + by erewrite bind_Done; [|exact E].
    + rewrite Hc, drop_ge by (rewrite <- wf_size by done; lia).
      by replace (count - size_ o) with 0 by lia.
    + lia.
    + rewrite Hv. apply Hmode. lia.
    + lia.
  - destruct Hvmax as [Hvmax|?]; [|lia].
    destruct (reserve_effect count o tr Hwf Hvmax)
      as (o1 & evs1 & E1 & Hwf1 & Hc1 & Hv1 & _ & _ & Hn1 & _).
    destruct (pushes_spec (replicate (count - size_ o) (how, value))
                o1 (tr ++ evs1) Hwf1)
      as (o2 & evs2 & E2 & Hwf2 & Hc2 & Hm2 & Hn2).
    rewrite length_replicate in Hm2, Hn2.
    rewrite fmap_replicate in Hc2. simpl in Hc2.
    assert (Hlen : length (contents o) = size_ o) by by rewrite wf_size.
    exists o2, (evs1 ++ evs2). split_and!; [|done| | | |].
    + erewrite bind_Done; [|exact E1]. rewrite for_up_pushes, E2.
      by rewrite <- app_assoc.
    + rewrite Hc2, Hc1, take_ge by lia. done.
    + rewrite (wf_size o2), Hc2, Hc1, length_app, length_replicate by done.
      lia.
    + unfold is_array in Hm2. rewrite Hc1, Hlen, Hv1 in Hm2.
      apply (f_equal negb) in Hm2. rewrite negb_involutive in Hm2.
      rewrite Hm2, negb_andb, negb_involutive.
      case_bool_decide; simpl.
      * rewrite orb_false_r. done.
      * rewrite orb_true_r. destruct (Nat.ltb_spec STATIC_AMOUNT count);
          [by rewrite orb_true_r|lia].
    + rewrite constructions_app, destructor_count_app. lia.
Qed.

(** Where [resize] throws. *)
Lemma resize_with_throws how value count o tr :
  wf o →
  let r := resize_with (push_back_with how value) count (Machine o tr) in
  ((∃ s', r = Throw length_error s') ↔
   count ≠ size_ o ∧
   ((max_size < N.of_nat count)%N ∨
    size_ o < count ∧ (vector_max_size < N.of_nat count)%N)) ∧
  (∀ e s', r = Throw e s' → e = length_error) ∧
  (count ≠ size_ o → (max_size < N.of_nat count)%N →
     r = Throw length_error (Machine o tr)) ∧
  (is_vector o = true → ∀ e s', r = Throw e s' → s' = Machine o tr).
Proof.
  intros Hwf r.
  assert (Hdone : (N.of_nat count ≤ max_size)%N ∨ count = size_ o →
                  (N.of_nat count ≤ vector_max_size)%N ∨ count ≤ size_ o →
                  ∃ s', r = Done tt s').
  { intros H1 H2.
    destruct (resize_with_effect how value count o tr Hwf H1 H2)
      as (o' & evs & E & _). by eexists. }
  destruct (decide (count = size_ o)) as [Heq|Hne].
  { destruct Hdone as [s' E]; [by right|right; lia|]. rewrite E.
    split_and!; [|done..]. split; [by intros [? ?]|by intros [? _]]. }
  destruct (N.ltb_spec max_size (N.of_nat count)) as [Hmax|Hmax].
  { assert (E : r = Throw length_error (Machine o tr)).
    { unfold r, resize_with. erewrite bind_Done; [|reflexivity]. cbn [obj].
      destruct (Nat.eqb_spec count (size_ o)); [done|].
      by destruct (N.ltb_spec max_size (N.of_nat count)); [|lia]. }
    rewrite E. split_and!.
    - split; [intros _; split; [done|by left]|intros _; by eexists].
    - by intros e s' [= <- _].
    - done.
    - by intros _ e s' [= _ <-]. }
  destruct (decide (size_ o < count ∧ (vector_max_size < N.of_nat count)%N))
    as [[Hgrow Hvmax]|Hfits].
  - assert (E : r = Throw length_error
                      (Machine (if is_vector o then o
                                else SV (arr_ o) (Some (Vector [] 0)) (size_ o))
                         tr)).
    { unfold r, resize_with. erewrite bind_Done; [|reflexivity]. cbn [obj].
      destruct (Nat.eqb_spec count (size_ o)); [done|].
      destruct (N.ltb_spec max_size (N.of_nat count)); [lia|].
      destruct (Nat.ltb_spec count (size_ o)); [lia|].
      erewrite bind_Throw; [done|]. by apply reserve_refused. }
    rewrite E. split_and!.
    + split; [intros _; split; [done|by right]|intros _; by eexists].
    + by intros e s' [= <- _].
    + intros _ ?. lia.
    + intros Hv e s' [= _ <-]. by rewrite Hv.
  - destruct Hdone as [s' E]; [by left|lia|]. rewrite E.
    split_and!; [|done|intros; lia|done].
    split; [by intros [? ?]|]. intros [_ [?|?]]; [lia|tauto].
Qed.

(** C6, amended.  On a well-formed container [resize(count)] and
    [resize(count, value)] raise a length error if and only if [count]
    differs from the current length and either exceeds [max_size()] or,
    the container having to grow, exceeds the [max_size()] of the vector
    (whose [reserve] then refuses the request); they raise no other
    exception.  When [count] exceeds [max_size()], and in any case when
    the container is spilled, the container is exactly as before (same
    buffer, same vector with the same capacity, same length, no element
    constructed or destroyed).  A [count] equal to the current length is
    accepted even above [max_size()]. *)
Theorem resize_length_error (o : SVec) tr (count : nat) (value : T) :
  wf o →
  let throws (r : outcome (machine SVec) unit) :=
    ((∃ s', r = Throw length_error s') ↔
     count ≠ size_ o ∧
     ((max_size < N.of_nat count)%N ∨
      size_ o < count ∧ (vector_max_size < N.of_nat count)%N)) ∧
    (∀ e s', r = Throw e s' → e = length_error) ∧
    (count ≠ size_ o → (max_size < N.of_nat count)%N →
       r = Throw length_error (Machine o tr)) ∧
    (is_vector o = true → ∀ e s', r = Throw e s' → s' = Machine o tr) in
  throws (resize count (Machine o tr)) ∧
  throws (resize_value count (Outside value) (Machine o tr)).
Proof.
  intros Hwf throws. split.
  - apply (resize_with_throws FromArgs T_default count o tr Hwf).
  - apply (resize_with_throws (ByCopy Caller) value count o tr Hwf).
Qed.

(** X14.  [resize(count)] and [resize(count, value)], [value] being no
    element of the container, with a [count] that [max_size()] allows (or
    that equals the length) and that, where the container has to grow, is
    at most the [max_size()] of the vector, return normally: the first
    [count] elements stay and new elements, equal to [T()] or to [value],
    fill the container up to the length [count].  The container is spilled
    afterwards exactly if it was spilled or [count] exceeds the inline
    capacity, and the constructions exceed the destructions by the change
    of the length. *)
Theorem resize_sets_length count value o tr :
  wf o → (N.of_nat count ≤ max_size)%N ∨ count = size_ o →
  (N.of_nat count ≤ vector_max_size)%N ∨ count ≤ size_ o →
  let resized (v : T) (r : outcome (machine SVec) unit) :=
    ∃ o' evs,
      r = Done tt (Machine o' (tr ++ evs)) ∧ wf o' ∧
      contents o'
      = take count (contents o) ++ replicate (count - size_ o) v ∧
      size_ o' = count ∧
      is_vector o' = is_vector o || (STATIC_AMOUNT <? count) ∧
      constructions evs + size_ o = destructor_count evs + count in
  resized T_default (resize count (Machine o tr)) ∧
  resized value (resize_value count (Outside value) (Machine o tr)).
Proof.
  intros Hwf Hmax Hvmax resized. split.
  - by apply (resize_with_effect FromArgs T_default).
  - by apply (resize_with_effect (ByCopy Caller) value).
Qed.

(** Reserving room for the values and pushing them into a new container:
    one construction per value. *)
Lemma construct_from how (xs : list T) tr :
  (N.of_nat (length xs) ≤ vector_max_size)%N →
  ∃ (o : SVec) evs,
    (reserve (length xs) ;; pushes ((λ x, (how, x)) <$> xs))
      (Machine fresh tr)
    = Done tt (Machine o (tr ++ evs)) ∧
    wf o ∧ contents o = xs ∧
    is_array o = bool_decide (length xs ≤ STATIC_AMOUNT) ∧
    capacity o = STATIC_AMOUNT `max` length xs ∧
    Forall2 (λ e _, ∃ dst, e = construct_event how dst) evs xs.
Proof.
  intros Hmax. set (vals := (λ x, (how, x)) <$> xs).
  assert (Hvals : vals.*2 = xs).
  { unfold vals. rewrite <- list_fmap_compose. apply list_fmap_id. }
  assert (Hlen : length vals = length xs) by apply length_fmap.
  assert (Hrun : ∀ o1 : SVec,
    wf o1 → contents o1 = [] → length xs ≤ capacity o1 →
    reserve (length xs) (Machine fresh tr) = Done tt (Machine o1 tr) →
    ∃ o evs,
      (reserve (length xs) ;; pushes vals) (Machine fresh tr)
      = Done tt (Machine o (tr ++ evs)) ∧
      wf o ∧ contents o = xs ∧ is_vector o = is_vector o1 ∧
      capacity o = capacity o1 ∧
      Forall2 (λ e _, ∃ dst, e = construct_event how dst) evs xs).
  { intros o1 Hwf1 Hc1 Hcap1 E1.
    destruct (pushes_with_room vals o1 tr Hwf1)
      as (o & evs & E & Hwf & Hc & Hv & Hcap & Hevs).
    { rewrite (wf_size o1), Hc1 by done. simpl. lia. }
    exists o, evs. split_and!; [|done| |done|done|].
    - by erewrite bind_Done; [|exact E1].
    - by rewrite Hc, Hc1, Hvals.
    - unfold vals in Hevs. by apply Forall2_fmap_r in Hevs. }
  destruct (decide (length xs ≤ STATIC_AMOUNT)) as [Hle|Hgt].
  - destruct (Hrun fresh) as (o & evs & E & Hwf & Hc & Hv & Hcap & Hevs).
    + apply wf_fresh.
    + by rewrite fresh_inline_of, contents_inline_of.
    + done.
    + by apply reserve_small.
    + exists o, evs. rewrite bool_decide_eq_true_2 by done.
      split_and!; [done..| | |done].
      * unfold is_array. by rewrite Hv.
      * rewrite Hcap. unfold capacity. simpl. lia.
  - destruct (Hrun (spilled_of [] (length xs)))
      as (o & evs & E & Hwf & Hc & Hv & Hcap & Hevs).
    + apply wf_spilled_of. simpl. lia.
    + done.
    + done.
    + apply reserve_fresh; [lia|done].
    + exists o, evs. rewrite bool_decide_eq_false_2 by done.
      split_and!; [done..| | |done].
      * unfold is_array. by rewrite Hv.
      * rewrite Hcap. unfold capacity. simpl. lia.
Qed.

(** X15.  The constructors.  [SmallVector()] builds the empty container,
    [SmallVector(count)] one of [count] elements [T()], [SmallVector(count,
    value)] one of [count] copies of [value], and [SmallVector(init)] one of
    the elements of the initializer list, in order, provided the number of
    elements is at most the [max_size()] of the vector.  The result is
    well-formed, inline exactly if the number of elements is at most the
    inline capacity, and its capacity is the larger of the inline capacity
    and that number.  Each element is constructed exactly once (from its
    arguments in the first two, by copy in the other two); nothing else is
    constructed, moved or destroyed.  A larger number of elements is
    refused: the constructor throws a length error and has constructed no
    element. *)
Theorem constructors_build_contents :
  let built (how : source) (xs : list T)
      (r : outcome (machine SVec) unit) :=
    ((N.of_nat (length xs) ≤ vector_max_size)%N →
     ∃ o evs,
       r = Done tt (Machine o evs) ∧ wf o ∧
       contents o = xs ∧ size o = length xs ∧
       is_array o = bool_decide (length xs ≤ STATIC_AMOUNT) ∧
       capacity o = STATIC_AMOUNT `max` length xs ∧
       Forall2 (λ e _, ∃ dst, e = construct_event how dst) evs xs) ∧
    ((vector_max_size < N.of_nat (length xs))%N →
     ∃ o, r = Throw length_error (Machine o []) ∧ contents o = []) in
  built FromArgs [] (run SmallVector_default fresh) ∧
  (∀ count,
     built FromArgs (replicate count T_default)
       (run (SmallVector_count count) fresh)) ∧
  (∀ count value,
     built (ByCopy Caller) (replicate count value)
       (run (SmallVector_fill count value) fresh)) ∧
  (∀ init,
     built (ByCopy Caller) init (run (SmallVector_list init) fresh)).
Proof.
  intros built.
  assert (Hbuilt : ∀ how xs (m : M SVec unit),
    (∀ s, m s = (reserve (length xs) ;; pushes ((λ x, (how, x)) <$> xs)) s) →
    built how xs (run m fresh)).
  { intros how xs m Hm. split.
    - intros Hmax.
      destruct (construct_from how xs [] Hmax)
        as (o & evs & E & Hwf & Hc & Hm' & Hcap & Hevs).
      exists o, evs. unfold run, size. rewrite Hm.
      split_and!; [done..| |done|done|done].
      by rewrite (wf_size o), Hc.
    - intros Hmax. eexists. unfold run. rewrite Hm.
      split; [by erewrite bind_Throw; [|by apply reserve_refused]|done]. }
  split_and!.
  - apply Hbuilt. intros s. unfold bind.
    by rewrite reserve_small by (simpl; lia).
  - intros count. apply Hbuilt. intros s.
    rewrite length_replicate, fmap_replicate.
    unfold SmallVector_count. rewrite emplace_back_outside. unfold bind.
    destruct (reserve count s); [apply for_up_pushes|done..].
  - intros count value. apply Hbuilt. intros s.
    rewrite length_replicate, fmap_replicate.
    unfold SmallVector_fill. rewrite push_back_outside. unfold bind.
    destruct (reserve count s); [apply for_up_pushes|done..].
  - intros init. apply Hbuilt. intros s.
    unfold SmallVector_list, bind.
    destruct (reserve (length init) s); [apply copy_back_pushes|done..].
Qed.

End Resizing_and_construction.

(** ** Operations on whole containers *)

Section Two_containers.
Context {T : Type} `{ElemType T} {STATIC_AMOUNT : nat}.
Context `{!InlineFits T STATIC_AMOUNT}.
Local Abbreviation SVec := (SmallVector T STATIC_AMOUNT).
Local Abbreviation store := (gmap nat (SmallVector T STATIC_AMOUNT)).
Implicit Types (l : list T) (tr : list event) (o : SVec) (w : store).

Lemma at_obj_get this w tr o :
  w !! this = Some o → at_obj this get (Machine w tr) = Done o (Machine w tr).
Proof.
  intros Ho. erewrite at_obj_Done; [|done|reflexivity]. by rewrite insert_id.
Qed.

Lemma at_obj_put this (x : SVec) w tr o :
  w !! this = Some o →
  at_obj this (put x) (Machine w tr) = Done tt (Machine (<[this := x]> w) tr).
Proof. intros Ho. by erewrite at_obj_Done. Qed.

Lemma swap_run this other w tr a b :
  w !! this = Some a → w !! other = Some b →
  swap this other (Machine w tr)
  = Done tt (Machine (<[other := a]> (<[this := b]> w)) tr).
Proof.
  intros Ha Hb. unfold swap.
  erewrite bind_Done; [|by apply at_obj_get].
  erewrite bind_Done; [|by apply at_obj_get].
  erewrite bind_Done; [|by eapply at_obj_put].
  destruct a as [arra veca sza], b as [arrb vecb szb]. simpl.
  assert (is_Some (<[this := SV arrb vecb szb]> w !! other)) as [x Hx].
  { rewrite lookup_insert_is_Some. destruct (decide (this = other)); eauto. }
  by erewrite at_obj_put.
Qed.

(** X16.  [swap(other)] exchanges two containers of a store entirely
    (elements, length, storage mode, capacity) without constructing or
    destroying an element; swapping twice, or swapping a container with
    itself, leaves the store as it was. *)
Theorem swap_exchanges this other w tr a b :
  w !! this = Some a → w !! other = Some b →
  swap this other (Machine w tr)
  = Done tt (Machine (<[other := a]> (<[this := b]> w)) tr) ∧
  (swap this other ;; swap this other) (Machine w tr)
  = Done tt (Machine w tr) ∧
  (this = other → swap this other (Machine w tr) = Done tt (Machine w tr)).
Proof.
  intros Ha Hb.
  pose proof (swap_run this other w tr a b Ha Hb) as E.
  split_and!; [done| |].
  - erewrite bind_Done; [|exact E].
    destruct (decide (this = other)) as [->|Hne].
    + assert (a = b) as -> by congruence.
      erewrite swap_run; [|apply lookup_insert_eq..].
      by rewrite !insert_insert_eq, insert_id.
    + erewrite (swap_run _ _ _ _ b a).
      2: { by rewrite lookup_insert_ne, lookup_insert_eq. }
      2: { apply lookup_insert_eq. }
      f_equal. f_equal. apply map_eq. intros k.
      destruct (decide (k = other)) as [->|];
        [by rewrite lookup_insert_eq|rewrite lookup_insert_ne by done].
      destruct (decide (k = this)) as [->|];
        [by rewrite lookup_insert_eq|rewrite lookup_insert_ne by done].
      by rewrite !lookup_insert_ne by done.
  - intros ->. assert (a = b) as -> by congruence.
    by rewrite E, insert_insert_eq, insert_id.
Qed.

(** X17.  The defaulted copy assignment [a = b] from a well-formed [b] gives
    [a] the elements, the length and the storage mode of [b]; the store is
    otherwise as before.  An inline [b] is copied as bytes: no element
    constructor runs.  The elements of an inline [a] are overwritten without
    a destructor call, and between two inline containers no constructor or
    destructor runs at all.  Self-assignment changes nothing. *)
Theorem copy_assign_copies this other w tr a b :
  w !! this = Some a → w !! other = Some b → wf b →
  ∃ a' evs,
    copy_assign this other (Machine w tr)
    = Done tt (Machine (<[this := a']> w) (tr ++ evs)) ∧
    wf a' ∧ contents a' = contents b ∧ size_ a' = size_ b ∧
    is_vector a' = is_vector b ∧
    (is_array b = true → constructions evs = 0) ∧
    (is_array a = true → destructor_count evs = 0) ∧
    (is_array a = true → is_array b = true → evs = []) ∧
    (this = other → a' = a ∧ evs = []).
Proof.
  intros Ha Hb Hwf.
  exists (SV (arr_ b) (optional_vec_assign (vec_ a) (vec_ b)) (size_ b)),
         (optional_vec_assign_events (vec_ a) (vec_ b)).
  split.
  { unfold copy_assign. erewrite bind_Done; [|by apply at_obj_get].
    by erewrite at_obj_Done. }
  destruct (wf_normal_form b Hwf) as [(l & Hl & ->)|(l & cap & Hl & ->)].
  - cbn [inline_of arr_ vec_ size_].
    assert (E : optional_vec_assign (vec_ a) None = None)
      by by destruct (vec_ a).
    rewrite E. change (SV _ None (length l)) with (inline_of l : SVec).
    split_and!; [by apply wf_inline_of|done..| | | |].
    + intros _. destruct (vec_ a) as [u|]; simpl; [|done].
      by destruct (tally_destructs (length (elems u)) Heap) as [-> _].
    + unfold is_array, is_vector. by destruct (vec_ a).
    + unfold is_array, is_vector. by destruct (vec_ a).
    + intros ->. assert (a = inline_of l) as -> by congruence. done.
  - cbn [spilled_of arr_ vec_ size_].
    assert (∃ cap', length l ≤ cap' ∧
      optional_vec_assign (vec_ a) (Some (Vector l cap))
      = Some (Vector l cap') ∧
      (vec_ a = Some (Vector l cap) → cap' = cap)) as (cap' & Hc' & -> & Hid).
    { destruct (vec_ a) as [u|]; simpl.
      - eexists. split_and!; [|done|].
        + destruct (Nat.ltb_spec (vcapacity u) (length l)); lia.
        + intros [= ->]. simpl. by destruct (Nat.ltb_spec cap (length l)); [lia|].
      - eexists. split_and!; [|done|done]. lia. }
    change (SV _ (Some (Vector l cap')) (length l))
      with (spilled_of l cap' : SVec).
    split_and!; [by apply wf_spilled_of|done..| | | |].
    + done.
    + unfold is_array, is_vector. destruct (vec_ a) as [u|]; [done|].
      intros _. simpl.
      unfold destructor_count. by rewrite count_events_replicate.
    + done.
    + intros ->. assert (a = spilled_of l cap) as -> by congruence.
      simpl in *. rewrite (Hid eq_refl). split; [done|].
      destruct (Nat.ltb_spec cap (length l)); [lia|].
      rewrite Nat.leb_refl, Nat.sub_diag. done.
Qed.

Lemma store_wf_insert this o' w :
  (∀ a x, w !! a = Some x → wf x) → wf o' →
  ∀ a x, <[this := o']> w !! a = Some x → wf x.
Proof.
  intros Hw Ho a x. rewrite lookup_insert_Some.
  intros [[_ <-]|[_ Hx]]; eauto.
Qed.

End Two_containers.

(** ** [append] as a reservation and a sequence of pushes *)

Section Appending.
Context {T : Type} `{ElemType T} {STATIC_AMOUNT : nat}.
Context `{!InlineFits T STATIC_AMOUNT}.
Local Abbreviation SVec := (SmallVector T STATIC_AMOUNT).
Local Abbreviation store := (gmap nat (SmallVector T STATIC_AMOUNT)).
Local Abbreviation tab := (@tabulate T STATIC_AMOUNT).
Implicit Types (l : list T) (tr : list event) (o : SVec) (w : store).

Lemma pushes_snoc (vals : list (source * T)) how x (s : machine SVec) :
  pushes (vals ++ [(how, x)]) s = (pushes vals ;; push_back_with how x) s.
Proof.
  revert s. induction vals as [|[how' x'] vals IH]; intros s; simpl.
  - unfold bind, ret. by destruct (push_back_with how x s) as [[] ?| |].
  - unfold bind.
    destruct (push_back_with how' x' s); [by rewrite IH|done..].
Qed.

(** Moving out of an element changes neither the storage mode nor the
    capacity. *)
Lemma move_out_effect i x o tr :
  wf o → contents o !! i = Some x →
  ∃ o',
    move_out i (Machine o tr) = Done x (Machine o' tr) ∧
    wf o' ∧ contents o' = <[i := moved_from x]> (contents o) ∧
    is_vector o' = is_vector o ∧ capacity o' = capacity o.
Proof.
  intros [(l & Hl & ->)|(l & cap & Hl & ->)]%wf_normal_form.
  - rewrite contents_inline_of. intros Hx.
    exists (inline_of (<[i := moved_from x]> l)).
    assert (Hi : i < length l) by by eapply lookup_lt_Some.
    split_and!;
      [|apply wf_inline_of; by rewrite length_insert
       |by rewrite contents_inline_of|done..].
    rewrite !inline_of_tabulate by by rewrite ?length_insert.
    unfold move_out. erewrite bind_Done; [|reflexivity]. cbn [obj vec_].
    erewrite bind_Done; [|by apply (get_arr_element_tab _ _ _ _ _ x); [lia|]].
    erewrite bind_Done; [|apply mark_moved_tab].
    unfold ret. rewrite length_insert. do 2 f_equal. f_equal.
    apply tabulate_ext. intros p _. rewrite list_lookup_insert.
    repeat case_decide; try done; try lia; naive_solver.
  - rewrite contents_spilled_of. intros Hx.
    exists (spilled_of (<[i := moved_from x]> l) cap).
    split_and!; [|apply wf_spilled_of; by rewrite length_insert|done..].
    unfold move_out, spilled_of, bind, get. simpl. rewrite Hx. simpl.
    by rewrite length_insert.
Qed.

(** The loop of [append(const SmallVector&)] from a different container
    [X] is the sequence of [push_back] calls with the elements of [X]. *)
Lemma append_loop_copy this other w X :
  this ≠ other → wf X → w !! other = Some X →
  ∀ n Y1 tr1, n ≤ size_ X → wf Y1 →
  ∃ Y' tr',
    pushes ((λ x, (ByCopy Caller, x)) <$> take n (contents X))
      (Machine Y1 tr1)
    = Done tt (Machine Y' tr') ∧
    for_up 0 n (push_back_of this other (buffer_of X))
      (Machine (<[this := Y1]> w) tr1)
    = Done tt (Machine (<[this := Y']> w) tr').
Proof.
  intros Hne HwfX HX n Y1 tr1 Hn HwfY1.
  set (vals := λ i, (λ x, (ByCopy Caller, x)) <$> take i (contents X)).
  pose (P := λ i (s : machine store),
    ∃ Yi, obj s = <[this := Yi]> w ∧
          pushes (vals i) (Machine Y1 tr1) = Done tt (Machine Yi (trace s))).
  destruct (for_up_invariant P (push_back_of this other (buffer_of X))
    n 0 (Machine (<[this := Y1]> w) tr1)) as ([w' tr'] & E & Yn & Hw' & Hp).
  { by exists Y1. }
  { intros i [wi tri] Hi (Yi & Hwi & Hp). simpl in *. subst wi.
    destruct (lookup_lt_is_Some_2 (contents X) i) as [x Hx].
    { rewrite <- wf_size by done. lia. }
    destruct (pushes_spec (vals i) Y1 tr1 HwfY1)
      as (Yi' & evs & Ei & HwfYi & HcYi & _).
    rewrite Hp in Ei. injection Ei as <- _.
    unfold push_back_of. destruct (Nat.eqb_spec this other); [done|].
    erewrite bind_Done.
    2: { erewrite at_obj_Done; [|by rewrite lookup_insert_ne|].
         2: { by apply deref_spec. }
         by rewrite insert_id by by rewrite lookup_insert_ne. }
    rewrite push_back_outside.
    destruct (push_back_with_spec (ByCopy Caller) x Yi tri HwfYi)
      as (Y2 & e2 & E2 & _).
    erewrite at_obj_Done; [|apply lookup_insert_eq|exact E2].
    rewrite insert_insert_eq.
    eexists. split; [done|]. exists Y2. split; [done|]. cbn [trace].
    unfold vals. rewrite (take_S_r _ _ x), fmap_app by done. simpl.
    rewrite pushes_snoc. by erewrite bind_Done; [|exact Hp]. }
  simpl in *. subst w'. by exists Yn, tr'.
Qed.

(** The loop of [append(SmallVector&&)]: the same pushes, by move, while
    the elements of [other] are left moved-from in place. *)
Lemma append_loop_move this other w X xs :
  this ≠ other → wf X → contents X = xs →
  ∀ n Y1 tr1, n ≤ length xs → wf Y1 →
  ∃ Y' X' tr',
    pushes ((λ x, (ByMove Caller, x)) <$> take n xs) (Machine Y1 tr1)
    = Done tt (Machine Y' tr') ∧
    for_up 0 n (λ i, let* v := at_obj other (move_out i) in
                     at_obj this (push_back_move (Outside v)))
      (Machine (<[other := X]> (<[this := Y1]> w)) tr1)
    = Done tt (Machine (<[other := X']> (<[this := Y']> w)) tr') ∧
    wf X' ∧ length (contents X') = length xs ∧
    is_vector X' = is_vector X ∧ capacity X' = capacity X.
Proof.
  intros Hne HwfX Hxs n Y1 tr1 Hn HwfY1.
  set (vals := λ i, (λ x, (ByMove Caller, x)) <$> take i xs).
  pose (P := λ i (s : machine store),
    ∃ Yi Xi, obj s = <[other := Xi]> (<[this := Yi]> w) ∧
             pushes (vals i) (Machine Y1 tr1) = Done tt (Machine Yi (trace s)) ∧
             wf Xi ∧ length (contents Xi) = length xs ∧
             is_vector Xi = is_vector X ∧ capacity Xi = capacity X ∧
             ∀ j, i ≤ j → contents Xi !! j = xs !! j).
  destruct (for_up_invariant P
    (λ i, let* v := at_obj other (move_out i) in
          at_obj this (push_back_move (Outside v)))
    n 0 (Machine (<[other := X]> (<[this := Y1]> w)) tr1))
    as ([w' tr'] & E & Yn & Xn & Hw' & Hp & HwfXn & HlXn & HvXn & HcXn & _).
  { exists Y1, X. split_and!; try done; by rewrite Hxs. }
  { intros i [wi tri] Hi
      (Yi & Xi & Hwi & Hp & HwfXi & HlXi & HvXi & HcapXi & HcXi).
    simpl in *. subst wi.
    destruct (lookup_lt_is_Some_2 xs i) as [x Hx]; [lia|].
    destruct (pushes_spec (vals i) Y1 tr1 HwfY1)
      as (Yi' & evs & Ei & HwfYi & _).
    rewrite Hp in Ei. injection Ei as <- _.
    destruct (move_out_effect i x Xi tri HwfXi)
      as (X2 & E2 & HwfX2 & HcX2 & HvX2 & HcapX2).
    { rewrite HcXi by lia. done. }
    erewrite bind_Done;
      [|by eapply at_obj_Done; [apply lookup_insert_eq|exact E2]].
    rewrite insert_insert_eq.
    destruct (push_back_with_spec (ByMove Caller) x Yi tri HwfYi)
      as (Y2 & e2 & E3 & _).
    erewrite at_obj_Done; [| |exact E3].
    2: { rewrite lookup_insert_ne by done. apply lookup_insert_eq. }
    eexists. split; [done|]. exists Y2, X2. cbn [obj trace].
    split_and!; try congruence.
    - rewrite (insert_insert_ne _ this other) by done.
      by rewrite insert_insert_eq.
    - unfold vals. rewrite (take_S_r _ _ x), fmap_app by done. simpl.
      rewrite pushes_snoc. by erewrite bind_Done; [|exact Hp].
    - by rewrite HcX2, length_insert.
    - intros j Hj. rewrite HcX2, list_lookup_insert_ne by lia.
      apply HcXi. lia. }
  simpl in *. subst w'. by exists Yn, Xn, tr'.
Qed.

(** X18.  [append] onto a different container.  An empty [other] changes
    nothing, for both overloads.  Otherwise both overloads first reserve the
    combined length (a combined length above the [max_size()] of the
    vector is refused with a length error, and [other] is as it was) and
    then push the elements of [other]: the target is
    spilled afterwards exactly if it was spilled or the combined length
    exceeds the inline capacity, and when the reservation provides that
    capacity the capacity stays as reserved and the pushes of the copying
    overload construct exactly one object per element and destroy none.  The
    move-taking overload leaves [other] empty, in its storage mode and with
    its capacity. *)
Theorem append_reserves_then_pushes this other w tr Y X :
  this ≠ other →
  w !! this = Some Y → w !! other = Some X → wf Y → wf X →
  let total := size_ Y + size_ X in
  (size_ X = 0 →
     append this other (Machine w tr) = Done tt (Machine w tr) ∧
     append_move this other (Machine w tr) = Done tt (Machine w tr)) ∧
  (0 < size_ X → (vector_max_size < N.of_nat total)%N →
     ∃ Y',
       append_move this other (Machine w tr)
       = Throw length_error (Machine (<[this := Y']> w) tr) ∧
       append this other (Machine w tr)
       = Throw length_error (Machine (<[this := Y']> w) tr) ∧
       <[this := Y']> w !! other = Some X) ∧
  (0 < size_ X → (N.of_nat total ≤ vector_max_size)%N →
     ∃ Y1 evs1 Y2 evs2 Y3 evs3 X',
       reserve total (Machine Y tr) = Done tt (Machine Y1 (tr ++ evs1)) ∧
       append this other (Machine w tr)
       = Done tt (Machine (<[this := Y2]> w) (tr ++ evs1 ++ evs2)) ∧
       append_move this other (Machine w tr)
       = Done tt (Machine (<[other := X']> (<[this := Y3]> w))
                    (tr ++ evs1 ++ evs3)) ∧
       is_vector Y2 = is_vector Y || (STATIC_AMOUNT <? total) ∧
       is_vector Y3 = is_vector Y || (STATIC_AMOUNT <? total) ∧
       (STATIC_AMOUNT < total ∨ is_array Y = true →
          capacity Y2 = capacity Y1 ∧ capacity Y3 = capacity Y1 ∧
          constructions evs2 = size_ X ∧ destructor_count evs2 = 0) ∧
       size_ X' = 0 ∧ is_vector X' = is_vector X ∧
       capacity X' = capacity X).
Proof.
  intros Hne HY HX HwfY HwfX total. split.
  { intros H0. unfold append, append_move.
    destruct (Nat.eqb_spec this other); [done|].
    erewrite !bind_Done; [|by apply at_obj_gets..]. unfold size.
    by rewrite H0. }
  split.
  { intros Hpos Hmax.
    destruct (append_refused this other w tr Y X)
      as (Y' & E1 & E2 & HX' & _); [done..|].
    by exists Y'. }
  intros Hpos Hmax. unfold total in *.
  assert (HlX : length (contents X) = size_ X) by by rewrite wf_size.
  assert (HlY : length (contents Y) = size_ Y) by by rewrite wf_size.
  destruct (reserve_effect (size_ Y + size_ X) Y tr HwfY Hmax)
    as (Y1 & evs1 & E1 & HwfY1 & Hc1 & Hv1 & _ & Hcap1 & _).
  assert (Hmode : ∀ how (Y' : SVec) tr',
    pushes ((λ x, (how, x)) <$> take (size_ X) (contents X))
      (Machine Y1 (tr ++ evs1)) = Done tt (Machine Y' tr') →
    is_vector Y' = is_vector Y || (STATIC_AMOUNT <? size_ Y + size_ X) ∧
    ∃ evs, tr' = tr ++ evs1 ++ evs ∧
      (STATIC_AMOUNT < size_ Y + size_ X ∨ is_array Y = true →
         capacity Y' = capacity Y1 ∧
         constructions evs = size_ X ∧ destructor_count evs = 0)).
  { intros how Y' tr' Ep.
    rewrite take_ge in Ep by lia.
    destruct (pushes_spec ((λ x, (how, x)) <$> contents X) Y1 (tr ++ evs1)
                HwfY1) as (Y'' & evs & Ep' & _ & _ & Hm & _).
    rewrite Ep in Ep'. injection Ep' as <- ->.
    rewrite length_fmap, Hc1, HlX, HlY in Hm. split.
    - unfold is_array in Hm. rewrite Hv1 in Hm.
      apply (f_equal negb) in Hm. rewrite negb_involutive in Hm.
      rewrite Hm, negb_andb, negb_involutive.
      case_bool_decide; simpl.
      + by rewrite orb_false_r.
      + destruct (Nat.ltb_spec STATIC_AMOUNT (size_ Y + size_ X)); [|lia].
        by rewrite !orb_true_r.
    - exists evs. split; [by rewrite app_assoc|]. intros Hroom.
      destruct (pushes_with_room ((λ x, (how, x)) <$> contents X) Y1
                  (tr ++ evs1) HwfY1)
        as (Y'' & evs' & Ep' & _ & _ & _ & Hcap' & Hevs).
      { rewrite length_fmap, (wf_size Y1), Hc1, HlX, HlY by done.
        by apply Hcap1. }
      rewrite Ep in Ep'. injection Ep' as <- Htr.
      apply app_inv_head in Htr. subst evs'.
      destruct (tally_constructs _ _ Hevs) as [-> ->].
      by rewrite length_fmap, HlX. }
  destruct (append_loop_copy this other w X Hne HwfX HX
              (size_ X) Y1 (tr ++ evs1)) as (Y2 & tr2 & Ep2 & El2);
    [lia|done|].
  destruct (append_loop_move this other w X (contents X) Hne HwfX eq_refl
              (size_ X) Y1 (tr ++ evs1))
    as (Y3 & X3 & tr3 & Ep3 & El3 & HwfX3 & HlX3 & HvX3 & HcapX3);
    [lia|done|].
  destruct (Hmode _ _ _ Ep2) as (Hm2 & evs2 & -> & Hroom2).
  destruct (Hmode _ _ _ Ep3) as (Hm3 & evs3 & -> & Hroom3).
  destruct (clear_effect X3 (tr ++ evs1 ++ evs3) HwfX3)
    as (X' & evs' & Ec & HwfX' & _ & HsX' & HvX' & HcapX' & Hn' & Hd' & _).
  exists Y1, evs1, Y2, evs2, Y3, (evs3 ++ evs'), X'.
  split_and!; try done; try congruence.
  - unfold append.
    erewrite bind_Done; [|by apply at_obj_gets]. unfold size.
    destruct (Nat.eqb_spec (size_ X) 0); [lia|].
    erewrite bind_Done; [|by apply at_obj_gets].
    erewrite bind_Done; [|by eapply at_obj_Done].
    erewrite bind_Done; [|by apply at_obj_gets; rewrite lookup_insert_ne].
    erewrite bind_Done; [|by apply at_obj_gets; rewrite lookup_insert_ne].
    exact El2.
  - unfold append_move.
    destruct (Nat.eqb_spec this other); [done|].
    erewrite bind_Done; [|by apply at_obj_gets]. unfold size.
    destruct (Nat.eqb_spec (size_ X) 0); [lia|].
    erewrite bind_Done; [|by apply at_obj_gets].
    erewrite bind_Done; [|by eapply at_obj_Done].
    erewrite bind_Done; [|by apply at_obj_gets; rewrite lookup_insert_ne].
    rewrite <- (insert_id (<[this := Y1]> w) other X) at 1
      by by rewrite lookup_insert_ne.
    erewrite bind_Done; [|exact El3].
    erewrite at_obj_Done; [|apply lookup_insert_eq|exact Ec].
    by rewrite insert_insert_eq, <- !app_assoc.
  - intros Hroom. destruct (Hroom2 Hroom) as (? & ? & ?).
    destruct (Hroom3 Hroom) as (? & _). done.
Qed.

End Appending.

(** ** Sequences of calls: the representation invariant and the balance
    of lifetimes *)

Section Sequences_of_calls.
Context {T : Type} `{ElemType T} {STATIC_AMOUNT : nat}.
Context `{!InlineFits T STATIC_AMOUNT}.
Local Abbreviation SVec := (SmallVector T STATIC_AMOUNT).
Local Abbreviation store := (gmap nat (SmallVector T STATIC_AMOUNT)).
Implicit Types (l : list T) (tr : list event) (o : SVec) (w : store).

Lemma live_insert this o o' w :
  w !! this = Some o →
  live (<[this := o']> w) + size_ o = live w + size_ o'.
Proof.
  intros Ho. unfold live.
  assert (Hcomm : ∀ (m : store) j1 j2 z1 z2 (y : nat),
    j1 ≠ j2 → m !! j1 = Some z1 → m !! j2 = Some z2 →
    size_ z1 + (size_ z2 + y) = size_ z2 + (size_ z1 + y)) by (intros; lia).
  rewrite (map_fold_delete_L _ _ this o w) by eauto.
  rewrite <- (insert_delete_eq w this o').
  rewrite map_fold_insert_L; [lia|eauto|apply lookup_delete_eq].
Qed.

(** A member function of one container whose events account for the change
    of its length, lifted to the store. *)
Lemma at_obj_accounted {A} this (m : M SVec A) w tr o :
  (∀ k x, w !! k = Some x → wf x) → w !! this = Some o →
  match m (Machine o tr) with
  | Done _ s' | Throw _ s' =>
      wf (obj s') ∧
      ∃ evs, trace s' = tr ++ evs ∧
             constructions evs + size_ o
             = destructor_count evs + size_ (obj s')
  | Fault _ => False
  end →
  accounted w tr (at_obj this m (Machine w tr)).
Proof.
  intros Hw Ho Hm. unfold at_obj, accounted. cbn [obj trace]. rewrite Ho.
  destruct (m (Machine o tr)) as [r [o' tr']|e [o' tr']|]; [| |done];
    cbn [obj trace] in *.
  all: destruct Hm as (Hwf' & evs & -> & Hn).
  all: split_and!;
    [by apply store_wf_insert|by apply dom_insert_lookup_L|].
  all: exists evs; split; [done|].
  all: pose proof (live_insert this o o' w Ho); lia.
Qed.

Lemma accounted_unchanged {A} (a : A) w tr :
  (∀ k x, w !! k = Some x → wf x) →
  accounted w tr (Done a (Machine w tr)).
Proof.
  intros Hw. split_and!; [done..|]. exists []. by rewrite app_nil_r.
Qed.

Lemma returns_accounted {A} (m : M SVec A) o tr :
  (∃ r o' evs,
     m (Machine o tr) = Done r (Machine o' (tr ++ evs)) ∧ wf o' ∧
     constructions evs + size_ o = destructor_count evs + size_ o') →
  match m (Machine o tr) with
  | Done _ s' | Throw _ s' =>
      wf (obj s') ∧
      ∃ evs, trace s' = tr ++ evs ∧
             constructions evs + size_ o
             = destructor_count evs + size_ (obj s')
  | Fault _ => False
  end.
Proof. intros (r & o' & evs & -> & Hwf & Hn). eauto. Qed.

Lemma fits_accepted n :
  fits STATIC_AMOUNT n = true → (N.of_nat n ≤ vector_max_size)%N.
Proof.
  unfold fits. pose proof (inline_fits (T:=T) (STATIC_AMOUNT:=STATIC_AMOUNT)).
  intros [Hn%Nat.leb_le|Hn%N.leb_le]%orb_true_iff; lia.
Qed.

(** [resize] with a count that the vector accepts, whether it returns or
    throws. *)
Lemma resize_with_accounted how value count o tr :
  wf o → (N.of_nat count ≤ vector_max_size)%N →
  match resize_with (push_back_with how value) count (Machine o tr) with
  | Done _ s' | Throw _ s' =>
      wf (obj s') ∧
      ∃ evs, trace s' = tr ++ evs ∧
             constructions evs + size_ o
             = destructor_count evs + size_ (obj s')
  | Fault _ => False
  end.
Proof.
  intros Hwf Hvmax.
  destruct (decide ((N.of_nat count ≤ max_size)%N ∨ count = size_ o))
    as [Hok|Hno].
  - destruct (resize_with_effect how value count o tr Hwf Hok)
      as (o' & evs & -> & Hwf' & _ & Hs & _ & Hn); [by left|].
    cbn [obj trace]. split; [done|]. exists evs. split; [done|]. lia.
  - destruct (resize_with_throws how value count o tr Hwf)
      as (_ & _ & Hthrow & _).
    rewrite Hthrow by lia. cbn [obj trace].
    split; [done|]. exists []. by rewrite app_nil_r.
Qed.

(** [append(const SmallVector&)] from another container. *)
Lemma append_accounted this other w tr Y X :
  (∀ k x, w !! k = Some x → wf x) → this ≠ other →
  w !! this = Some Y → w !! other = Some X →
  (N.of_nat (size_ Y + size_ X) ≤ vector_max_size)%N →
  accounted w tr (append this other (Machine w tr)).
Proof.
  intros Hw Hne HY HX Hmax.
  assert (HwfY : wf Y) by eauto. assert (HwfX : wf X) by eauto.
  unfold append.
  erewrite bind_Done; [|by apply at_obj_gets]. unfold size.
  destruct (Nat.eqb_spec (size_ X) 0) as [H0|Hpos].
  { by apply accounted_unchanged. }
  erewrite bind_Done; [|by apply at_obj_gets].
  destruct (reserve_effect (size_ Y + size_ X) Y tr HwfY Hmax)
    as (Y1 & evs1 & E1 & HwfY1 & Hc1 & _ & _ & _ & Hn1 & _).
  erewrite bind_Done; [|by eapply at_obj_Done].
  erewrite bind_Done; [|by apply at_obj_gets; rewrite lookup_insert_ne].
  erewrite bind_Done; [|by apply at_obj_gets; rewrite lookup_insert_ne].
  assert (HlX : length (contents X) = size_ X) by by rewrite wf_size.
  destruct (append_loop_copy this other w X Hne HwfX HX
              (size_ X) Y1 (tr ++ evs1)) as (Y2 & tr2 & Ep & El);
    [lia|done|].
  rewrite El. rewrite take_ge in Ep by lia.
  destruct (pushes_spec ((λ x, (ByCopy Caller, x)) <$> contents X) Y1
              (tr ++ evs1) HwfY1) as (Y2' & evs2 & Ep' & HwfY2 & Hc2 & _ & Hn2).
  rewrite Ep in Ep'. injection Ep' as <- ->. unfold accounted. cbn [obj trace].
  split_and!; [by apply store_wf_insert|by apply dom_insert_lookup_L|].
  exists (evs1 ++ evs2). split; [by rewrite app_assoc|].
  rewrite constructions_app, destructor_count_app.
  rewrite length_fmap in Hn2.
  assert (size_ Y2 = size_ Y + size_ X).
  { rewrite (wf_size Y2), Hc2, length_app, Hc1 by done.
    rewrite <- list_fmap_compose, length_fmap, HlX.
    by rewrite (wf_size Y). }
  pose proof (live_insert this Y Y2 w HY). lia.
Qed.

(** [append(SmallVector&&)]: the elements change owner, from [other] to
    the container. *)
Lemma append_move_accounted this other w tr Y X :
  (∀ k x, w !! k = Some x → wf x) →
  w !! this = Some Y → w !! other = Some X →
  this = other ∨ (N.of_nat (size_ Y + size_ X) ≤ vector_max_size)%N →
  accounted w tr (append_move this other (Machine w tr)).
Proof.
  intros Hw HY HX Hmax.
  assert (HwfY : wf Y) by eauto. assert (HwfX : wf X) by eauto.
  unfold append_move.
  destruct (Nat.eqb_spec this other) as [|Hne].
  { by apply accounted_unchanged. }
  destruct Hmax as [?|Hmax]; [done|].
  erewrite bind_Done; [|by apply at_obj_gets]. unfold size.
  destruct (Nat.eqb_spec (size_ X) 0) as [H0|Hpos].
  { by apply accounted_unchanged. }
  erewrite bind_Done; [|by apply at_obj_gets].
  destruct (reserve_effect (size_ Y + size_ X) Y tr HwfY Hmax)
    as (Y1 & evs1 & E1 & HwfY1 & Hc1 & _ & _ & _ & Hn1 & _).
  erewrite bind_Done; [|by eapply at_obj_Done].
  erewrite bind_Done; [|by apply at_obj_gets; rewrite lookup_insert_ne].
  assert (HlX : length (contents X) = size_ X) by by rewrite wf_size.
  destruct (append_loop_move this other w X (contents X) Hne HwfX eq_refl
              (size_ X) Y1 (tr ++ evs1))
    as (Y3 & X3 & tr3 & Ep & El & HwfX3 & HlX3 & _); [lia|done|].
  rewrite <- (insert_id (<[this := Y1]> w) other X) at 1
    by by rewrite lookup_insert_ne.
  erewrite bind_Done; [|exact El].
  rewrite take_ge in Ep by lia.
  destruct (pushes_spec ((λ x, (ByMove Caller, x)) <$> contents X) Y1
              (tr ++ evs1) HwfY1) as (Y3' & evs3 & Ep' & HwfY3 & Hc3 & _ & Hn3).
  rewrite Ep in Ep'. injection Ep' as <- ->.
  destruct (clear_effect X3 ((tr ++ evs1) ++ evs3) HwfX3)
    as (X' & evs' & Ec & HwfX' & _ & HsX' & _ & _ & Hn' & Hd' & _).
  erewrite at_obj_Done; [|apply lookup_insert_eq|exact Ec].
  rewrite insert_insert_eq. unfold accounted. cbn [obj trace].
  split_and!; [apply store_wf_insert; [by apply store_wf_insert|done]| |].
  { rewrite !dom_insert_lookup_L; [done|done|].
    by rewrite lookup_insert_ne. }
  exists (evs1 ++ evs3 ++ evs'). split; [by rewrite !app_assoc|].
  rewrite !constructions_app, !destructor_count_app.
  rewrite length_fmap in Hn3.
  assert (size_ Y3 = size_ Y + size_ X).
  { rewrite (wf_size Y3), Hc3, length_app, Hc1 by done.
    rewrite <- list_fmap_compose, length_fmap, HlX.
    by rewrite (wf_size Y). }
  assert (size_ X3 = size_ X) by by rewrite (wf_size X3), HlX3.
  pose proof (live_insert this Y Y3 w HY).
  pose proof (live_insert other X X' (<[this := Y3]> w)
                ltac:(by rewrite lookup_insert_ne)). lia.
Qed.

(** Every modifier called within its precondition. *)
Lemma call_accounted this m w tr o :
  (∀ k x, w !! k = Some x → wf x) → w !! this = Some o →
  precondition w this o m = true →
  accounted w tr (call this m (Machine w tr)).
Proof.
  intros Hw Ho Hpre. assert (Hwf : wf o) by eauto.
  assert (Hret : ∀ (m' : M SVec nat),
    accounted w tr (at_obj this m' (Machine w tr)) →
    accounted w tr ((at_obj this m' ;; ret tt) (Machine w tr))).
  { intros m'. unfold bind. by destruct (at_obj this m' _). }
  assert (Hsz : ∀ o' : SVec, wf o' → size_ o' = length (contents o'))
    by (intros; by apply wf_size).
  pose proof (Hsz o Hwf) as Hso.
  assert (Hpush : ∀ how v,
    match push_back_with how v (Machine o tr) with
    | Done _ s' | Throw _ s' =>
        wf (obj s') ∧
        ∃ evs, trace s' = tr ++ evs ∧
               constructions evs + size_ o
               = destructor_count evs + size_ (obj s')
    | Fault _ => False
    end).
  { intros how v. apply returns_accounted.
    destruct (push_back_with_spec how v o tr Hwf)
      as (o' & evs & E & Hwf' & Hc & _ & Hn).
    eexists _, _, _. split_and!; [done..|].
    rewrite (Hsz o' Hwf'), Hc, length_app. simpl. lia. }
  assert (Hins : ∀ how idx v, idx ≤ size_ o →
    match insert_with how idx v (Machine o tr) with
    | Done _ s' | Throw _ s' =>
        wf (obj s') ∧
        ∃ evs, trace s' = tr ++ evs ∧
               constructions evs + size_ o
               = destructor_count evs + size_ (obj s')
    | Fault _ => False
    end).
  { intros how idx v Hidx. apply returns_accounted.
    destruct (insert_with_effect how idx v o tr Hwf Hidx)
      as (o' & evs & E & Hwf' & Hc & _ & Hn).
    eexists _, _, _. split_and!; [done..|].
    rewrite (Hsz o' Hwf'), Hc, length_inserted by lia. lia. }
  destruct m; cbn [call precondition] in *;
    try apply Hret; try (apply (at_obj_accounted _ _ _ _ o); [done..|]).
  - destruct val as [v|]; [|done]. apply Hpush.
  - destruct val as [v|]; [|done]. apply Hpush.
  - destruct args as [v|]; [|done]. apply Hpush.
  - apply andb_true_iff in Hpre as [Hidx%Nat.leb_le Hout].
    destruct val as [v|]; [|done]. by apply Hins.
  - apply andb_true_iff in Hpre as [Hidx%Nat.leb_le Hval].
    assert (is_Some (referent o val)) as [value Hvalue].
    { destruct val as [v|i]; simpl; [by eexists|].
      apply lookup_lt_is_Some_2. apply Nat.ltb_lt in Hval. lia. }
    apply returns_accounted.
    destruct (insert_copy_effect idx val value o tr Hwf Hidx Hvalue)
      as (o' & evs & E & Hwf' & Hc & _ & Hn).
    eexists _, _, _. split_and!; [done..|].
    rewrite (Hsz o' Hwf'), Hc, length_inserted by lia. lia.
  - apply andb_true_iff in Hpre as [Hidx%Nat.leb_le Hout].
    destruct args as [v|]; [|done]. by apply Hins.
  - apply Nat.ltb_lt in Hpre. apply returns_accounted.
    destruct (erase_effect idx o tr Hwf Hpre)
      as (o' & evs & E & Hwf' & Hc & _ & _ & Hn & _).
    eexists _, _, _. split_and!; [done..|].
    rewrite (Hsz o' Hwf'), Hc, length_erased by lia. lia.
  - apply andb_true_iff in Hpre as [Hfl%Nat.ltb_lt Hll%Nat.leb_le].
    apply returns_accounted.
    destruct (erase_range_effect first_idx last_idx o tr Hwf Hfl Hll)
      as (o' & evs & E & Hwf' & _ & Hs & _ & _ & Hn & _).
    eexists _, _, _. split_and!; [done..|]. lia.
  - apply Nat.ltb_lt in Hpre. apply returns_accounted.
    destruct (pop_back_effect o tr Hwf Hpre)
      as (o' & evs & E & Hwf' & Hc & _ & _ & Hn & Hd).
    eexists _, _, _. split_and!; [done..|].
    rewrite (Hsz o' Hwf'), Hc, length_take. lia.
  - apply returns_accounted.
    destruct (clear_effect o tr Hwf)
      as (o' & evs & E & Hwf' & _ & Hs & _ & _ & Hn & Hd & _).
    eexists _, _, _. split_and!; [done..|]. lia.
  - apply fits_accepted in Hpre.
    by apply (resize_with_accounted FromArgs T_default).
  - apply andb_true_iff in Hpre as [Hfits%fits_accepted Hout].
    destruct val as [v|]; [|done].
    by apply (resize_with_accounted (ByCopy Caller) v).
  - apply fits_accepted in Hpre. apply returns_accounted.
    destruct (reserve_effect n o tr Hwf Hpre)
      as (o' & evs & E & Hwf' & Hc & _ & _ & _ & Hn & _).
    eexists _, _, _. split_and!; [done..|].
    rewrite (Hsz o' Hwf'), Hc. lia.
  - apply returns_accounted.
    destruct (shrink_to_fit_effect o tr Hwf)
      as (o' & evs & E & Hwf' & Hc & _ & _ & Hn & _).
    eexists _, _, _. split_and!; [done..|].
    rewrite (Hsz o' Hwf'), Hc. lia.
  - apply andb_true_iff in Hpre as [Hne Hpre].
    destruct (Nat.eqb_spec this other) as [|Hne']; [done|].
    destruct (w !! other) as [X|] eqn:HX; [|done].
    apply fits_accepted in Hpre. by eapply append_accounted.
  - destruct (w !! other) as [X|] eqn:HX.
    + eapply append_move_accounted; [done..|].
      apply orb_true_iff in Hpre as [Heq%Nat.eqb_eq|Hfits%fits_accepted];
        [by left|by right].
    + apply orb_true_iff in Hpre as [->%Nat.eqb_eq|?]; [|done]. congruence.
Qed.

(** Every admissible sequence of calls. *)
Lemma calls_accounted this ms :
  ∀ w tr,
  (∀ k x, w !! k = Some x → wf x) →
  admissible this ms (Machine w tr) = true →
  accounted w tr (calls this ms (Machine w tr)).
Proof.
  induction ms as [|m ms IH]; intros w tr Hw Hadm.
  { by apply accounted_unchanged. }
  cbn [admissible obj] in Hadm.
  destruct (w !! this) as [o|] eqn:Ho; [|done].
  apply andb_true_iff in Hadm as [Hpre Hadm].
  pose proof (call_accounted this m w tr o Hw Ho Hpre) as Hcall.
  cbn [calls]. unfold bind.
  destruct (call this m (Machine w tr)) as [r [w1 tr1]|e s1|]; [|done..].
  destruct Hcall as (Hw1 & Hd1 & evs1 & Htr1 & Hn1). cbn [obj trace] in *.
  subst tr1. specialize (IH w1 (tr ++ evs1) Hw1 Hadm).
  unfold accounted in *.
  destruct (calls this ms _) as [r2 s2|e2 s2|]; [| |done].
  all: destruct IH as (Hw2 & Hd2 & evs2 & Htr2 & Hn2).
  all: split_and!; [done|congruence|].
  all: exists (evs1 ++ evs2); split; [by rewrite app_assoc|].
  all: rewrite constructions_app, destructor_count_app; lia.
Qed.

(** X19.  Every sequence of modifier calls on a container of a store of
    well-formed containers, each call within its precondition in the state
    it meets, returns or ends with the first exception: it never runs into
    undefined behaviour or a failed assertion (in particular the assertions
    of [spillover] hold), it creates and removes no container, and it leaves
    every container of the store well-formed.  So afterwards [size()] is the
    number of elements, and at most [capacity()].

    The precondition of a call is [precondition]: positions are valid; an
    erased range is valid and not empty ([erase(pos, pos)] leaves an inline
    container with raw slots that [size()] counts); [pop_back] meets an
    element; an element argument names an object outside the container
    (any object for [insert(pos, const T&)]); a requested length or
    capacity, also the combined length of an [append], is at most the
    inline capacity or the [max_size()] of the vector; [append(const
    SmallVector&)] is given another container, not the object itself. *)
Theorem modifiers_keep_invariant this ms w tr :
  (∀ k x, w !! k = Some x → wf x) →
  admissible this ms (Machine w tr) = true →
  match calls this ms (Machine w tr) with
  | Done _ s' | Throw _ s' =>
      dom (obj s') = dom w ∧
      ∀ k x, obj s' !! k = Some x →
        wf x ∧ size x = length (contents x) ∧ size x ≤ capacity x
  | Fault _ => False
  end.
Proof.
  intros Hw Hadm.
  pose proof (calls_accounted this ms w tr Hw Hadm) as Hacc.
  unfold accounted in Hacc.
  destruct (calls this ms _) as [r s'|e s'|]; [| |done].
  all: destruct Hacc as (Hw' & Hd & _); split; [done|]; intros k x Hx.
  all: assert (wf x) by eauto; unfold size.
  all: split_and!; [done|by apply wf_size|by apply wf_size_le_capacity].
Qed.

(** X20.  Over every sequence of modifier calls on a container of a store
    of well-formed containers, each call within its precondition (as in
    X19: valid positions, non-empty ranges, element arguments outside the
    container, requests that the vector accepts, no copying self-append),
    the constructor and destructor calls account for the elements: the
    number of constructions, plus the number of elements the containers
    held before, equals the number of destructions plus the number of
    elements they hold afterwards.  This
    holds also when [insert] or [push_back] spills the container, when
    [append(SmallVector&&)] hands the elements of one container to another,
    and when a call throws. *)
Theorem lifetimes_balance this ms w tr :
  (∀ k x, w !! k = Some x → wf x) →
  admissible this ms (Machine w tr) = true →
  match calls this ms (Machine w tr) with
  | Done _ s' | Throw _ s' =>
      ∃ evs, trace s' = tr ++ evs ∧
             constructions evs + live w
             = destructor_count evs + live (obj s')
  | Fault _ => False
  end.
Proof.
  intros Hw Hadm.
  pose proof (calls_accounted this ms w tr Hw Hadm) as Hacc.
  unfold accounted in Hacc.
  destruct (calls this ms _) as [r s'|e s'|]; [| |done].
  all: by destruct Hacc as (_ & _ & ?).
Qed.

(** X21.  The whole life of a container: constructed from an initializer
    list and modified by any sequence of calls that respect their
    preconditions (as in X19: valid positions, non-empty ranges, element
    arguments outside the container, requests that the vector accepts, no
    copying self-append), it is destroyed without fault, whether the calls
    returned or one of them threw; by then exactly as many destructors as
    constructors have run, and its storage is raw again. *)
Theorem no_leak_over_lifetime this (init : list T) ms :
  match at_obj this (SmallVector_list init)
          (Machine {[ this := (fresh : SVec) ]} []) with
  | Done _ s => admissible this ms s
  | _ => false
  end = true →
  match (at_obj this (SmallVector_list init) ;; calls this ms)
          (Machine {[ this := (fresh : SVec) ]} []) with
  | Done _ s | Throw _ s =>
      match at_obj this destructor s with
      | Done _ s' =>
          obj s' = {[ this := (fresh : SVec) ]} ∧
          constructions (trace s') = destructor_count (trace s')
      | _ => False
      end
  | Fault _ => False
  end.
Proof.
  destruct (N.le_gt_cases (N.of_nat (length init)) vector_max_size)
    as [Hmax|Hmax].
  2: { intros Hadm. exfalso. revert Hadm.
       unfold at_obj. cbn [obj trace]. rewrite lookup_singleton_eq.
       unfold SmallVector_list.
       erewrite bind_Throw; [done|]. apply reserve_refused. lia. }
  destruct (construct_from (STATIC_AMOUNT:=STATIC_AMOUNT)
              (ByCopy Caller) init [] Hmax)
    as (o0 & evs0 & E0 & Hwf0 & Hc0 & _ & _ & Hevs0).
  assert (E0' : SmallVector_list init (Machine fresh [])
                = Done tt (Machine o0 evs0)).
  { change ([] ++ evs0) with evs0 in E0.
    rewrite <- E0. unfold SmallVector_list, bind.
    destruct (reserve (length init) _); [apply copy_back_pushes|done..]. }
  assert (Hn0 : constructions evs0 = length init ∧ destructor_count evs0 = 0).
  { clear -Hevs0. induction Hevs0 as [|e x evs xs (dst & ->) _ [IHc IHd]];
      [done|].
    change (?e :: evs) with ([e] ++ evs).
    rewrite constructions_app, destructor_count_app, IHc, IHd.
    by destruct (tally_construct_event (ByCopy Caller) dst) as [-> ->]. }
  assert (Ector : at_obj this (SmallVector_list init)
                    (Machine {[ this := (fresh : SVec) ]} [])
                  = Done tt (Machine ({[ this := o0 ]} : store) evs0)).
  { erewrite at_obj_Done; [|apply lookup_singleton_eq|exact E0'].
    by rewrite insert_singleton_eq. }
  rewrite Ector. intros Hadm.
  erewrite bind_Done; [|exact Ector].
  assert (Hw0 : ∀ k x, ({[ this := o0 ]} : store) !! k = Some x → wf x).
  { by intros k x [_ <-]%lookup_singleton_Some. }
  pose proof (calls_accounted this ms _ evs0 Hw0 Hadm) as Hacc.
  unfold accounted in Hacc.
  destruct (calls this ms _) as [r [w1 tr1]|e [w1 tr1]|]; [| |done].
  all: destruct Hacc as (Hw1 & Hd1 & evs1 & Htr1 & Hn1); cbn [obj trace] in *.
  all: subst tr1; rewrite dom_singleton_L in Hd1.
  all: apply dom_singleton_inv_L in Hd1 as [o1 ->].
  all: assert (Hwf1 : wf o1) by (apply (Hw1 this); apply lookup_singleton_eq).
  all: destruct (destructor_spec o1 (evs0 ++ evs1) Hwf1)
         as (evs2 & E2 & Hn2 & Hd2).
  all: erewrite at_obj_Done; [|apply lookup_singleton_eq|exact E2].
  all: cbn [obj trace]; split; [by rewrite insert_singleton_eq|].
  all: unfold live in Hn1; rewrite !map_fold_singleton in Hn1.
  all: rewrite !constructions_app, !destructor_count_app.
  all: rewrite (wf_size o0), Hc0 in Hn1 by done.
  all: rewrite <- (wf_size o1) in Hd2 by done.
  all: destruct Hn0; lia.
Qed.

End Sequences_of_calls.

(** ** Equality of containers *)

Section Comparison_more.
Context {T : Type} `{ElemType T}.
Implicit Types l : list T.

Lemma operator_eq_contents {N1 N2}
    (a : SmallVector T N1) (b : SmallVector T N2) :
  wf a → wf b →
  operator_eq a b = Some (elementwise_equal (contents a) (contents b)).
Proof.
  intros Ha Hb. unfold operator_eq, elementwise_equal, size.
  rewrite !(wf_size a), !(wf_size b) by done.
  destruct (Nat.eqb_spec (length (contents a)) (length (contents b)))
    as [Hlen|Hlen]; [|done]. simpl.
  rewrite (equal_from_lists a b (contents a) (contents b));
    [|by intros; apply element_contents..|simpl; lia|simpl; lia].
  rewrite !drop_0, firstn_all, Hlen, firstn_all. done.
Qed.

Lemma elementwise_equal_eq l1 l2 :
  (∀ x y : T, T_eqb x y = true ↔ x = y) →
  elementwise_equal l1 l2 = true ↔ l1 = l2.
Proof.
  intros Heqb. rewrite elementwise_equal_true. split.
  - intros [Hlen Hall]. apply list_eq_same_length with (length l1); [done..|].
    intros i x y _ Hx Hy. apply Heqb. by eapply Hall.
  - intros ->. split; [done|]. intros i x y Hx Hy.
    apply Heqb. congruence.
Qed.

(** X22.  When [operator==] of the element type decides equality, [a == b]
    on well-formed containers holds exactly if they hold the same elements
    in the same order, whatever their storage modes and inline capacities,
    and [a != b] exactly if they do not; [a == a] holds, and [a == b] is [b
    == a]. *)
Theorem operator_eq_same_contents {N1 N2}
    (a : SmallVector T N1) (b : SmallVector T N2) :
  (∀ x y : T, T_eqb x y = true ↔ x = y) → wf a → wf b →
  (operator_eq a b = Some true ↔ contents a = contents b) ∧
  (operator_ne a b = Some true ↔ contents a ≠ contents b) ∧
  operator_eq a a = Some true ∧
  operator_eq a b = operator_eq b a.
Proof.
  intros Heqb Ha Hb.
  pose proof (elementwise_equal_eq (contents a) (contents b) Heqb) as Hab.
  pose proof (elementwise_equal_eq (contents b) (contents a) Heqb) as Hba.
  pose proof (elementwise_equal_eq (contents a) (contents a) Heqb) as Haa.
  unfold operator_ne.
  rewrite !operator_eq_contents by done.
  split_and!.
  - rewrite <- Hab. split; [by intros [= ->]|by intros ->].
  - rewrite <- Hab. simpl.
    destruct (elementwise_equal (contents a) (contents b));
      split; by (intros [= ?] || intros ?).
  - f_equal. by apply Haa.
  - f_equal. apply Bool.eq_iff_eq_true. rewrite Hab, Hba. by split.
Qed.

End Comparison_more.

(** ** Bounds of the default inline capacity *)

Section Static_size_bounds.
Local Open Scope Z_scope.

(** X23.  For an element size below 2^61 bytes the default inline capacity
    is at least 1 and at most 64.  The inline buffer takes at most 10240
    bytes unless a single element is larger than that (the capacity is then
    1); an element type that fits in a cache line fills the line up to less
    than one element; a larger element type gets at most 8 slots. *)
Theorem calculate_static_size_bounds (size_of_t : Z) :
  0 < size_of_t < 2 ^ 61 →
  ∃ n, StaticSize.calculate_static_size size_of_t = Some n ∧
       1 ≤ n ≤ 64 ∧
       (n * size_of_t ≤ 10240 ∨ n = 1) ∧
       (size_of_t ≤ 64 → 64 - size_of_t < n * size_of_t ≤ 64) ∧
       (64 < size_of_t → n ≤ 8).
Proof.
  intros Hs. unfold StaticSize.calculate_static_size.
  destruct (Z.eqb_spec size_of_t 0) as [|_]; [lia|].
  unfold StaticSize.CACHE_LINE_SIZE_BYTES, StaticSize.FALLBACK_SIZE,
    StaticSize.MAX_SIZE_BYTES.
  destruct (Z.leb_spec size_of_t 64) as [Hle|Hgt].
  { exists (64 / size_of_t). split; [done|].
    pose proof (Z.div_mod 64 size_of_t ltac:(lia)) as Hdm.
    pose proof (Z.mod_pos_bound 64 size_of_t ltac:(lia)) as Hmod.
    assert (1 ≤ 64 / size_of_t) by (apply Z.div_le_lower_bound; lia).
    assert (64 / size_of_t ≤ 64) by (apply Z.div_le_upper_bound; lia).
    split_and!; [lia|lia|left; nia|intros _; nia|lia]. }
  rewrite size_t_mul_small by lia.
  destruct (Z.leb_spec (8 * size_of_t) 10240).
  { exists 8. split; [done|]. split_and!; lia. }
  pose proof (Z.div_mod 10240 size_of_t ltac:(lia)) as Hdm.
  pose proof (Z.mod_pos_bound 10240 size_of_t ltac:(lia)) as Hmod.
  assert (0 ≤ 10240 / size_of_t) by (apply Z.div_pos; lia).
  assert (10240 / size_of_t < 8) by (apply Z.div_lt_upper_bound; lia).
  destruct (Z.eqb_spec (10240 / size_of_t) 0).
  - exists 1. split; [done|]. split_and!; lia.
  - exists (10240 / size_of_t). split; [done|].
    split_and!; [lia|lia|left; nia|lia|lia].
Qed.

End Static_size_bounds.

(** ** Arguments that name an element, and refused requests *)

Section Own_elements_and_refusals.
Context {T : Type} `{ElemType T} {STATIC_AMOUNT : nat}.
Context `{!InlineFits T STATIC_AMOUNT}.
Local Abbreviation SVec := (SmallVector T STATIC_AMOUNT).
Local Abbreviation tab := (@tabulate T STATIC_AMOUNT).
Implicit Types (l : list T) (tr : list event) (o : SVec).

(** X24.  A request that the vector refuses, on an inline container.
    [reserve(n)] with [n] above the [max_size()] of the vector throws a
    length error out of [spillover], after the optional has been engaged
    and before any element has moved: the container is left in spilled
    mode over an empty vector, with [size_] unchanged and the elements
    still in the inline buffer.  [resize(n)] to such an [n], when
    [max_size()] allows it, ends the same way.  Afterwards [size()] counts
    elements that no access reaches: with elements the container is not
    well-formed, [operator[]] reads past the end of the empty vector, and
    the destructor ends normally without having destroyed any of them. *)
Theorem reserve_refused_strands_elements n o tr :
  is_array o = true → (vector_max_size < N.of_nat n)%N →
  let o' : SVec := SV (arr_ o) (Some (Vector [] 0)) (size_ o) in
  reserve n (Machine o tr) = Throw length_error (Machine o' tr) ∧
  (size_ o < n → (N.of_nat n ≤ max_size)%N →
   resize n (Machine o tr) = Throw length_error (Machine o' tr)) ∧
  is_vector o' = true ∧ size o' = size o ∧ contents o' = [] ∧
  (0 < size_ o → ¬ wf o') ∧
  (∀ i tr', operator_index i (Machine o' tr') = Fault undefined_behaviour) ∧
  (∀ tr', destructor (Machine o' tr')
          = Done tt (Machine (SV (arr_ o) None 0) tr')).
Proof.
  intros Harr Hmax o'.
  assert (Hv : is_vector o = false).
  { unfold is_array in Harr. by destruct (is_vector o). }
  assert (E : reserve n (Machine o tr) = Throw length_error (Machine o' tr)).
  { rewrite (reserve_refused n o tr Hmax). by rewrite Hv. }
  split_and!; [done| |done|done|done| | |].
  - intros Hgrow Hn. unfold resize, resize_with.
    erewrite bind_Done; [|reflexivity]. cbn [obj].
    destruct (Nat.eqb_spec n (size_ o)); [lia|].
    destruct (N.ltb_spec max_size (N.of_nat n)); [lia|].
    destruct (Nat.ltb_spec n (size_ o)); [lia|].
    by erewrite bind_Throw.
  - intros Hpos Hwf. apply wf_size in Hwf. simpl in Hwf. lia.
  - done.
  - intros tr'. unfold destructor, clear, destroy_members, vec_call, bind,
      get, set_vec_, set_size_, put, log, ret. simpl.
    by rewrite !app_nil_r.
Qed.

(** Where the container does not spill, the argument is read in the state
    in which the call was made. *)
Lemma push_back_from_reads how (val : M SVec T) x o tr :
  is_vector o = true ∨ size_ o < STATIC_AMOUNT →
  val (Machine o tr) = Done x (Machine o tr) →
  push_back_from how val (Machine o tr)
  = push_back_with how x (Machine o tr).
Proof.
  intros Hroom Hval. unfold push_back_with, push_back_from, bind, get, ret.
  cbn [obj].
  destruct (is_vector o) eqn:Hv; cbn [negb].
  - by rewrite Hval.
  - destruct Hroom as [|Hroom]; [done|].
    destruct (Nat.leb_spec STATIC_AMOUNT (size_ o)); [lia|].
    by rewrite Hval.
Qed.

(** On a full inline container the spill comes first: a pointer into the
    inline buffer then names a destroyed object. *)
Lemma push_back_from_full_dangles how j l tr :
  length l = STATIC_AMOUNT →
  push_back_from how (deref InlineBuffer j) (Machine (inline_of l : SVec) tr)
  = Fault undefined_behaviour.
Proof.
  intros Hl. rewrite inline_of_tabulate by lia.
  unfold push_back_from.
  erewrite bind_Done; [|reflexivity]. cbn [obj size_ is_vector vec_ negb].
  destruct (Nat.leb_spec STATIC_AMOUNT (length l)); [|lia].
  erewrite bind_Fault; [done|].
  erewrite bind_Done;
    [|apply (spillover_run _ l);
      [lia|done|lia|rewrite Hl; apply spill_fits]].
  reflexivity.
Qed.

(** X25.  [push_back(const T&)] and [emplace_back] with an argument that
    names an element of the container itself, [v.push_back(v[j])].  On a
    spilled container, and on an inline one with room, the call appends a
    copy of that element, keeps the storage mode and constructs one object
    more than it destroys.  On a full inline container the call spills
    first: the element has been moved to the vector and its slot destroyed
    when the argument is read, which is undefined behaviour. *)
Theorem push_back_own_element (op : ref T → M SVec unit) j x o tr :
  In op [push_back; emplace_back] → wf o → contents o !! j = Some x →
  (is_vector o = true ∨ size_ o < STATIC_AMOUNT →
   ∃ o' evs,
     op (Element j) (Machine o tr) = Done tt (Machine o' (tr ++ evs)) ∧
     wf o' ∧ contents o' = contents o ++ [x] ∧
     size_ o' = size_ o + 1 ∧
     is_array o' = is_array o ∧
     constructions evs = destructor_count evs + 1) ∧
  (is_array o = true → size_ o = STATIC_AMOUNT →
   op (Element j) (Machine o tr) = Fault undefined_behaviour).
Proof.
  intros Hop Hwf Hx.
  assert (Hcall : ∃ how,
    op (Element j) (Machine o tr)
    = push_back_from how (deref (buffer_of o) j) (Machine o tr)).
  { destruct Hop as [<-|[<-|[]]]; eexists; reflexivity. }
  destruct Hcall as [how ->]. split.
  - intros Hroom.
    rewrite (push_back_from_reads how _ x) by (done || by apply deref_spec).
    destruct (push_back_with_spec how x o tr Hwf)
      as (o' & evs & E & Hwf' & Hc & Hm & Hn).
    exists o', evs. split_and!; [done..| | |done].
    + rewrite (wf_size o'), Hc, length_app, <- wf_size by done. done.
    + rewrite Hm, <- wf_size by done.
      destruct Hroom as [Hv|Hroom].
      * unfold is_array. by rewrite Hv.
      * destruct (Nat.ltb_spec (size_ o) STATIC_AMOUNT); [|lia].
        by rewrite andb_true_r.
  - intros Harr Hfull.
    destruct (wf_normal_form o Hwf) as [(l & Hl & ->)|(l & cap & Hl & ->)];
      [|done].
    apply push_back_from_full_dangles. done.
Qed.


(** [insert]/[emplace] into an inline container with room, up to the point
    where the argument is read: the elements from [idx] on have moved up
    and slot [idx] is raw storage. *)
Lemma insert_from_inline_shift how idx (value : M SVec T) l tr :
  idx ≤ length l → length l < STATIC_AMOUNT →
  insert_from how idx value (Machine (inline_of l : SVec) tr)
  = (let* v := value in construct_at idx how v ;; ret idx)
      (Machine (SV (tab (λ p, if decide (p < idx) then l !! p
                              else if decide (p = idx) then None
                              else l !! (p - 1)))
                   None (length l + 1))
         (tr ++ insert_shift_events idx (length l))).
Proof.
  intros Hi HlN.
  rewrite !inline_of_tabulate by lia.
  unfold insert_from.
  erewrite bind_Done; [|reflexivity]. cbn [obj size_].
  erewrite bind_Done; [|apply set_size_run]. cbn [arr_ vec_].
  erewrite bind_Done; [|reflexivity]. cbn [obj size_ is_vector vec_ negb].
  destruct (Nat.leb_spec (length l + 1) STATIC_AMOUNT); [|lia]. cbn [andb].
  rewrite size_t_sub_le by lia.
  replace (length l + 1 - 1 - idx) with (length l - idx) by lia.
  pose (O := λ j, SV (tab (λ p,
                 if decide (p < idx + j) then l !! p
                 else if decide (p = idx + j) then None
                 else l !! (p - 1))) None (length l + 1) : SVec).
  assert (E0 : SV (tab (λ p, l !! p)) None (length l + 1)
               = O (length l - idx)).
  { unfold O. f_equal. apply tabulate_ext. intros p _.
    repeat case_decide; try done.
    all: first [ apply lookup_ge_None_2; lia
               | symmetry; apply lookup_ge_None_2; lia
               | rewrite !lookup_ge_None_2 by lia; done ]. }
  rewrite E0.
  erewrite bind_Done.
  2: { apply (for_down_states O
         (λ j, [MoveConstruct (Inline (idx + j)) (Inline (idx + j - 1));
                Destruct (Inline (idx + j - 1))])).
       intros j tr' Hj. unfold O.
       destruct (lookup_lt_is_Some_2 l (idx + j)) as [v Hv]; [lia|].
       replace (idx + S j - 1) with (idx + j) by lia.
       erewrite (shift_step_tab _ _ _ _ _ _ v);
         [|lia|lia|rewrite decide_True by lia; done].
       do 2 f_equal. f_equal. apply tabulate_ext. intros p _.
       repeat case_decide; try done; try lia.
       all: try (rewrite <- Hv; f_equal; lia). }
  unfold O, insert_shift_events. do 3 f_equal.
  apply tabulate_ext. intros p _. by rewrite Nat.add_0_r.
Qed.

(** When the argument can be read after the shift, the call is the one
    with the value read. *)
Lemma insert_from_inline how idx (value : M SVec T) x l tr :
  idx ≤ length l → length l < STATIC_AMOUNT →
  (∀ tr', let G := SV (tab (λ p, if decide (p < idx) then l !! p
                                  else if decide (p = idx) then None
                                  else l !! (p - 1)))
                      None (length l + 1) : SVec in
          value (Machine G tr') = Done x (Machine G tr')) →
  insert_from how idx value (Machine (inline_of l : SVec) tr)
  = insert_with how idx x (Machine (inline_of l : SVec) tr).
Proof.
  intros Hi HlN Hval. unfold insert_with.
  rewrite !insert_from_inline_shift by done.
  erewrite bind_Done; [|apply Hval]. by rewrite bind_ret_l.
Qed.

(** Reading slot [j] of the inline buffer after the shift. *)
Lemma deref_after_shift idx j l tr :
  j < length l → length l < STATIC_AMOUNT →
  deref InlineBuffer j
    (Machine (SV (tab (λ p, if decide (p < idx) then l !! p
                            else if decide (p = idx) then None
                            else l !! (p - 1)))
                 None (length l + 1) : SVec) tr)
  = match (if decide (j < idx) then l !! j
           else if decide (j = idx) then None else l !! (j - 1)) with
    | Some x =>
        Done x
          (Machine (SV (tab (λ p, if decide (p < idx) then l !! p
                                  else if decide (p = idx) then None
                                  else l !! (p - 1)))
                       None (length l + 1)) tr)
    | None => Fault undefined_behaviour
    end.
Proof.
  intros Hj HlN. unfold deref, operator_index, bind, get, element.
  cbn [obj vec_ arr_ buffer_of buffer_eqb].
  rewrite tabulate_lookup_lt by lia. cbn [mjoin].
  by destruct (if decide (j < idx) then l !! j
               else if decide (j = idx) then None else l !! (j - 1)).
Qed.

(** X26.  [emplace(pos, args...)] into an inline container with room, with
    an argument that names an element of the container itself,
    [v.emplace(v.begin() + idx, v[j])].  The elements from [idx] on are
    shifted up before the argument is read.  So for [j < idx] the call
    inserts a copy of the element [j]; for [j > idx] it inserts a copy of
    the element that was at [j - 1], which the shift has put into slot
    [j]; and for [j = idx] it reads the slot that the shift has just
    destroyed, which is undefined behaviour.  Where it returns, it returns
    [idx] and has constructed one object more than it destroyed. *)
Theorem emplace_own_element idx j l tr :
  idx ≤ length l → j < length l → length l < STATIC_AMOUNT →
  (j = idx →
   emplace idx (Element j) (Machine (inline_of l : SVec) tr)
   = Fault undefined_behaviour) ∧
  (j ≠ idx →
   ∃ x evs,
     l !! (if decide (j < idx) then j else j - 1) = Some x ∧
     emplace idx (Element j) (Machine (inline_of l : SVec) tr)
     = Done idx
         (Machine (inline_of (take idx l ++ x :: drop idx l)) (tr ++ evs)) ∧
     constructions evs = destructor_count evs + 1).
Proof.
  intros Hi Hj HlN.
  assert (Hcall :
    emplace idx (Element j) (Machine (inline_of l : SVec) tr)
    = insert_from (ByCopy (Inline j)) idx (deref InlineBuffer j)
        (Machine (inline_of l : SVec) tr)) by reflexivity.
  rewrite Hcall. split.
  - intros ->. rewrite insert_from_inline_shift by done.
    erewrite bind_Fault; [done|]. rewrite deref_after_shift by done.
    rewrite decide_False by lia. by rewrite decide_True.
  - intros Hne.
    destruct (lookup_lt_is_Some_2 l (if decide (j < idx) then j else j - 1))
      as [x Hx]; [case_decide; lia|].
    exists x. eexists. split; [done|].
    rewrite (insert_from_inline _ _ _ x); [|done|done|].
    2: { intros tr' G. unfold G. rewrite deref_after_shift by done.
         destruct (decide (j < idx)); [by rewrite Hx|].
         rewrite decide_False by lia. by rewrite Hx. }
    split; [by apply insert_with_inline|].
    rewrite constructions_app, destructor_count_app.
    destruct (tally_insert_shift_events idx (length l)) as [-> ->].
    change (constructions [construct_event (ByCopy (Inline j)) (Inline idx)])
      with 1.
    change (destructor_count
              [construct_event (ByCopy (Inline j)) (Inline idx)]) with 0.
    lia.
Qed.

(** The same buffer means the same storage mode and capacity. *)
Lemma buffer_of_inj o1 o2 :
  buffer_of o1 = buffer_of o2 ↔
  is_vector o1 = is_vector o2 ∧ capacity o1 = capacity o2.
Proof.
  unfold buffer_of, is_vector, capacity.
  destruct (vec_ o1), (vec_ o2); split; try done.
  - by intros [= ->].
  - by intros [_ ->].
  - by intros [? _].
  - by intros [? _].
Qed.

Lemma buffer_eqb_eq a b : buffer_eqb a b = true ↔ a = b.
Proof.
  destruct a, b; simpl; try done.
  rewrite Nat.eqb_eq. split; [by intros ->|by intros [= ->]].
Qed.

(** In a spilled container that has taken a new buffer, a pointer into the
    old one dangles. *)
Lemma push_back_from_dangles how b j o tr :
  is_vector o = true → buffer_of o ≠ b →
  push_back_from how (deref b j) (Machine o tr) = Fault undefined_behaviour.
Proof.
  intros Hv Hb. unfold push_back_from, deref, bind, get. cbn [obj].
  rewrite Hv. cbn [negb obj].
  destruct (buffer_eqb (buffer_of o) b) eqn:E; [|reflexivity].
  by apply buffer_eqb_eq in E.
Qed.

(** X27.  [resize(count, value)] that grows the container, with a [value]
    that names an element of the container itself,
    [v.resize(count, v[j])].  When [count] is within the capacity, nothing
    moves: the new elements are copies of that element, and the storage
    mode and the capacity stay.  When [count] exceeds both the capacity
    and the inline capacity, [reserve(count)] spills the container or makes
    the vector reallocate before the first [push_back(value)] reads the
    reference, which then names a destroyed or freed object: undefined
    behaviour. *)
Theorem resize_own_element count j x o tr :
  wf o → contents o !! j = Some x → size_ o < count →
  (N.of_nat count ≤ max_size)%N → (N.of_nat count ≤ vector_max_size)%N →
  (count ≤ capacity o →
   ∃ o' evs,
     resize_value count (Element j) (Machine o tr)
     = Done tt (Machine o' (tr ++ evs)) ∧
     wf o' ∧
     contents o' = contents o ++ replicate (count - size_ o) x ∧
     is_vector o' = is_vector o ∧ capacity o' = capacity o) ∧
  (capacity o < count → STATIC_AMOUNT < count →
   resize_value count (Element j) (Machine o tr)
   = Fault undefined_behaviour).
Proof.
  intros Hwf Hx Hgrow Hmax Hvmax.
  pose (how := ByCopy (ref_place (buffer_of o) (Element j : ref T))).
  assert (Hstart :
    resize_value count (Element j) (Machine o tr)
    = (reserve count ;;
       for_up (size_ o) (count - size_ o)
         (λ _, push_back_from how (deref (buffer_of o) j))) (Machine o tr)).
  { unfold resize_value. erewrite bind_Done; [|reflexivity]. cbn [obj].
    unfold resize_with. erewrite bind_Done; [|reflexivity]. cbn [obj].
    destruct (Nat.eqb_spec count (size_ o)); [lia|].
    destruct (N.ltb_spec max_size (N.of_nat count)); [lia|].
    by destruct (Nat.ltb_spec count (size_ o)); [lia|]. }
  rewrite Hstart. clear Hstart.
  destruct (reserve_effect count o tr Hwf Hvmax)
    as (o1 & evs1 & E1 & Hwf1 & Hc1 & Hv1 & _ & Hcap1 & _ & Hsame).
  erewrite bind_Done; [|exact E1]. split.
  - intros Hroom. destruct (Hsame Hroom) as [-> ->].
    pose (P := λ i (s : machine SVec),
      ∃ evs, trace s = tr ++ evs ∧ wf (obj s) ∧
             contents (obj s) = contents o ++ replicate (i - size_ o) x ∧
             buffer_of (obj s) = buffer_of o).
    destruct (for_up_invariant P
                (λ _, push_back_from how (deref (buffer_of o) j))
                (count - size_ o) (size_ o) (Machine o (tr ++ [])))
      as (s' & E & HP).
    { exists []. rewrite Nat.sub_diag. simpl.
      split_and!; [done|done|by rewrite app_nil_r|done]. }
    { intros i [Yi tri] Hi (evs & Htr & HwfYi & HcYi & Hbuf).
      cbn [obj trace] in *. subst tri.
      pose proof Hbuf as [Hv Hcapi]%buffer_of_inj.
      assert (Hsz : size_ Yi = i).
      { rewrite (wf_size Yi), HcYi, length_app, length_replicate by done.
        rewrite <- wf_size by done. lia. }
      assert (Hxi : contents Yi !! j = Some x).
      { rewrite HcYi. by apply lookup_app_l_Some. }
      destruct (push_back_with_room how x Yi (tr ++ evs) HwfYi)
        as (Y2 & dst & E2 & Hwf2 & Hc2 & Hv2 & Hcap2); [lia|].
      exists (Machine Y2 ((tr ++ evs) ++ [construct_event how dst])).
      split.
      { rewrite <- Hbuf.
        rewrite (push_back_from_reads _ _ x); [exact E2| |by apply deref_spec].
        destruct (is_vector Yi) eqn:Hvi; [by left|right].
        unfold capacity, is_vector in *.
        destruct (vec_ Yi); [done|]. destruct (vec_ o); [done|]. lia. }
      exists (evs ++ [construct_event how dst]). cbn [obj trace].
      split_and!; [by rewrite app_assoc|done| |].
      - rewrite Hc2, HcYi, <- app_assoc.
        replace (S i - size_ o) with (S (i - size_ o)) by lia.
        by rewrite replicate_S_end.
      - apply buffer_of_inj. split; congruence. }
    destruct s' as [o' tr']. destruct HP as (evs & Htr & Hwf' & Hc' & Hbuf).
    cbn [obj trace] in *. subst tr'.
    apply buffer_of_inj in Hbuf as [? ?].
    exists o', evs. rewrite app_nil_r in E |- *.
    split_and!; [done|done| |done..].
    rewrite Hc'. by replace (size_ o + (count - size_ o) - size_ o)
      with (count - size_ o) by lia.
  - intros Hcap HN.
    replace (count - size_ o) with (S (count - size_ o - 1)) by lia.
    cbn [for_up]. apply bind_Fault. apply push_back_from_dangles.
    + rewrite Hv1. destruct (Nat.ltb_spec STATIC_AMOUNT count); [|lia].
      apply orb_true_r.
    + intros [_ Hcapeq]%buffer_of_inj.
      specialize (Hcap1 (or_introl HN)). lia.
Qed.

End Own_elements_and_refusals.

Section Self_append.
Context {T : Type} `{ElemType T} {STATIC_AMOUNT : nat}.
Context `{!InlineFits T STATIC_AMOUNT}.
Local Abbreviation SVec := (SmallVector T STATIC_AMOUNT).
Local Abbreviation store := (gmap nat (SmallVector T STATIC_AMOUNT)).
Implicit Types (l : list T) (tr : list event) (o : SVec) (w : store).

Lemma at_obj_Fault {A} a (m : M SVec A) w tr o f :
  w !! a = Some o → m (Machine o tr) = Fault f →
  at_obj a m (Machine w tr) = Fault f.
Proof. intros Ho E. unfold at_obj. simpl. by rewrite Ho, E. Qed.

Lemma for_up_add {X} (body : nat → M X unit) a b :
  ∀ lo s,
  for_up lo (a + b) body s = (for_up lo a body ;; for_up (lo + a) b body) s.
Proof.
  induction a as [|a IH]; intros lo s; simpl.
  - by rewrite Nat.add_0_r.
  - unfold bind. destruct (body lo s) as [[] s1| |]; [|done..].
    rewrite IH. unfold bind. by rewrite Nat.add_succ_r.
Qed.

(** The pushes of a self-append into a container that has the room for
    them: the buffer stays, and every pointer of the walk reads the element
    it was taken for. *)
Lemma self_append_loop this w l (Y1 : SVec) tr1 :
  wf Y1 → contents Y1 = l →
  (is_vector Y1 = false → 2 * length l ≤ STATIC_AMOUNT) →
  2 * length l ≤ capacity Y1 →
  ∃ Y' tr',
    for_up 0 (length l) (push_back_of this this (buffer_of Y1))
      (Machine (<[this := Y1]> w) tr1)
    = Done tt (Machine (<[this := Y']> w) tr') ∧
    wf Y' ∧ contents Y' = l ++ l.
Proof.
  intros Hwf1 Hc1 Hinl Hcap.
  pose (P := λ i (s : machine store),
    ∃ Yi, obj s = <[this := Yi]> w ∧ wf Yi ∧
          contents Yi = l ++ take i l ∧
          (i < length l → buffer_of Yi = buffer_of Y1)).
  destruct (for_up_invariant P (push_back_of this this (buffer_of Y1))
    (length l) 0 (Machine (<[this := Y1]> w) tr1)) as (s' & E & HP).
  { exists Y1. by rewrite take_0, app_nil_r. }
  { intros i [wi tri] Hi (Yi & Hwi & HwfYi & HcYi & Hbuf).
    cbn [obj] in Hwi. subst wi. specialize (Hbuf ltac:(lia)).
    pose proof Hbuf as [Hv Hcapi]%buffer_of_inj.
    assert (Hsz : size_ Yi = length l + i).
    { rewrite (wf_size Yi), HcYi, length_app, length_take by done. lia. }
    destruct (lookup_lt_is_Some_2 l i) as [x Hx]; [lia|].
    assert (Hxi : contents Yi !! i = Some x).
    { rewrite HcYi. by rewrite lookup_app_l by lia. }
    assert (Hroom : is_vector Yi = true ∨ size_ Yi < STATIC_AMOUNT).
    { rewrite Hv. destruct (is_vector Y1); [by left|right].
      specialize (Hinl eq_refl). lia. }
    unfold push_back_of. rewrite Nat.eqb_refl, <- Hbuf.
    destruct (push_back_with_spec
                (ByCopy (ref_place (buffer_of Yi) (Element i : ref T)))
                x Yi tri HwfYi)
      as (Y2 & e2 & E2 & HwfY2 & HcY2 & Hm2 & _).
    erewrite at_obj_Done; [|by rewrite lookup_insert_eq|].
    2: { rewrite (push_back_from_reads _ _ x); [exact E2|done|].
         by apply deref_spec. }
    rewrite insert_insert_eq.
    eexists. split; [done|]. exists Y2. cbn [obj].
    split_and!; [done|done| |].
    - rewrite HcY2, HcYi, <- app_assoc. by erewrite take_S_r.
    - intros Hnext.
      destruct (push_back_with_room
                  (ByCopy (ref_place (buffer_of Yi) (Element i : ref T)))
                  x Yi tri HwfYi)
        as (Y3 & dst & E3 & _ & _ & Hv3 & Hcap3).
      { rewrite Hcapi, Hsz.
        destruct (is_vector Y1) eqn:Hv1; [lia|].
        specialize (Hinl eq_refl).
        unfold capacity, is_vector in *. destruct (vec_ Y1); [done|]. lia. }
      rewrite E2 in E3. injection E3 as -> _.
      apply buffer_of_inj. split; congruence. }
  destruct HP as (Yn & Hwn & HwfYn & HcYn & _).
  destruct s' as [wn trn]. simpl in *. subst wn.
  exists Yn, trn. split; [exact E|].
  split; [done|]. by rewrite HcYn, firstn_all.
Qed.


(** The pushes of a self-append on a spilled container whose capacity runs
    out before the last of them: the vector reallocates, and the next
    element is read through a pointer into the buffer it has given up. *)
Lemma self_append_loop_dangles this w l c a b tr :
  length l + a = c → a + 1 + S b = length l →
  for_up 0 (a + 1 + S b) (push_back_of this this (HeapBuffer c))
    (Machine (<[this := (spilled_of l c : SVec)]> w) tr)
  = Fault undefined_behaviour.
Proof.
  intros Hc Hn. rewrite for_up_add.
  pose (Q := λ i (s : machine store),
    ∃ li ci, obj s = <[this := (spilled_of li ci : SVec)]> w ∧
             length li = length l + i ∧
             (∀ k, k < length l → li !! k = l !! k) ∧
             (i ≤ a → ci = c) ∧ (i = a + 1 → ci ≠ c)).
  destruct (for_up_invariant Q (push_back_of this this (HeapBuffer c))
    (a + 1) 0 (Machine (<[this := (spilled_of l c : SVec)]> w) tr))
    as (s' & E & HQ).
  { exists l, c. split_and!; [done|lia|done|done|lia]. }
  { intros i [wi tri] Hi (li & ci & Hwi & Hlen & Hli & Hci & _).
    cbn [obj] in Hwi. subst wi. rewrite (Hci ltac:(lia)).
    destruct (lookup_lt_is_Some_2 l i) as [x Hx]; [lia|].
    assert (Hwfi : wf (spilled_of li c : SVec)) by (apply wf_spilled_of; lia).
    unfold push_back_of. rewrite Nat.eqb_refl.
    erewrite at_obj_Done; [|by rewrite lookup_insert_eq|].
    2: { rewrite (push_back_from_reads _ _ x); [apply push_back_spilled| |].
         - by left.
         - apply (deref_spec i x (spilled_of li c)); [done|].
           rewrite contents_spilled_of, Hli by lia. done. }
    rewrite insert_insert_eq.
    eexists. split; [done|]. cbn [obj]. eexists _, _.
    split_and!; [done| | | |].
    - rewrite length_app. simpl. lia.
    - intros k Hk. rewrite lookup_app_l by lia. by apply Hli.
    - intros Hle. by destruct (Nat.ltb_spec (length li) c); [|lia].
    - intros Heq. destruct (Nat.ltb_spec (length li) c); lia. }
  erewrite bind_Done; [|exact E].
  destruct HQ as (li & ci & Hw' & _ & _ & _ & Hci).
  destruct s' as [w' tr']. cbn [obj] in Hw'. subst w'.
  specialize (Hci eq_refl).
  cbn [for_up]. apply bind_Fault.
  unfold push_back_of. rewrite Nat.eqb_refl.
  eapply at_obj_Fault; [by rewrite lookup_insert_eq|].
  unfold push_back_from, deref, bind, get. cbn.
  by destruct (Nat.eqb_spec ci c).
Qed.

(** X28.  [v.append(v)] with the copy-taking overload, on a well-formed
    non-empty container whose doubled length is one that [reserve]
    accepts.  There is no test for [this == &other]: the call reserves
    twice the length and pushes the elements it walks over.  When the
    container is inline, or twice the length exceeds the inline capacity
    (so that [reserve] provides the room), or the capacity already holds
    twice the length, no buffer changes during the loop and the container
    ends up holding its elements twice.  When the container is spilled,
    twice the length is within the inline capacity (so that [reserve]
    returns at once) and the capacity runs out before the last push, the
    vector reallocates and the following element is read from the buffer
    it has freed: undefined behaviour. *)
Theorem self_append_copy this w tr o :
  w !! this = Some o → wf o → 0 < size_ o →
  2 * size_ o ≤ STATIC_AMOUNT ∨
    (N.of_nat (2 * size_ o) ≤ vector_max_size)%N →
  (is_vector o = true → 2 * size_ o ≤ STATIC_AMOUNT →
   capacity o + 1 < 2 * size_ o →
   append this this (Machine w tr) = Fault undefined_behaviour) ∧
  (is_array o = true ∨ STATIC_AMOUNT < 2 * size_ o ∨
     2 * size_ o ≤ capacity o →
   ∃ o' tr',
     append this this (Machine w tr)
     = Done tt (Machine (<[this := o']> w) tr') ∧
     wf o' ∧ contents o' = contents o ++ contents o ∧
     size_ o' = 2 * size_ o).
Proof.
  intros Ho Hwf Hpos Hfits.
  assert (Hmax : (N.of_nat (size_ o + size_ o) ≤ vector_max_size)%N).
  { pose proof (inline_fits (T:=T) (STATIC_AMOUNT:=STATIC_AMOUNT)).
    destruct Hfits; lia. }
  assert (Hstart :
    append this this (Machine w tr)
    = (at_obj this (reserve (size_ o + size_ o)) ;;
       let* first := at_obj this (gets buffer_of) in
       let* last := at_obj this (gets size_) in
       for_up 0 last (push_back_of this this first)) (Machine w tr)).
  { unfold append.
    erewrite bind_Done; [|by apply at_obj_gets]. unfold size.
    destruct (Nat.eqb_spec (size_ o) 0); [lia|].
    by erewrite bind_Done; [|by apply at_obj_gets]. }
  rewrite Hstart. clear Hstart. split.
  - intros Hv HN Hcap.
    destruct (wf_normal_form o Hwf) as [(l & Hl & ->)|(l & c & Hl & ->)];
      [done|].
    cbn [size_ spilled_of capacity vec_ vcapacity] in *.
    erewrite bind_Done;
      [|eapply at_obj_Done; [done|apply reserve_small; lia]].
    erewrite bind_Done; [|by apply at_obj_gets; rewrite lookup_insert_eq].
    erewrite bind_Done; [|by apply at_obj_gets; rewrite lookup_insert_eq].
    cbn [buffer_of size_ spilled_of vec_ vcapacity].
    replace (length l)
      with ((c - length l) + 1 + S (length l - (c - length l) - 2))
      at 1 by lia.
    apply self_append_loop_dangles; lia.
  - intros Hsafe.
    destruct (reserve_effect (size_ o + size_ o) o tr Hwf Hmax)
      as (Y1 & e1 & E1 & Hwf1 & Hc1 & Hmode & Hcaple & Hcap1 & _).
    erewrite bind_Done; [|by eapply at_obj_Done].
    erewrite bind_Done; [|by apply at_obj_gets; rewrite lookup_insert_eq].
    erewrite bind_Done; [|by apply at_obj_gets; rewrite lookup_insert_eq].
    assert (Hn : size_ Y1 = length (contents o)).
    { by rewrite (wf_size Y1), Hc1. }
    pose proof (wf_size o Hwf) as Hno.
    rewrite Hn.
    destruct (self_append_loop this w (contents o) Y1 (tr ++ e1))
      as (Y' & tr' & E & Hwf' & Hc'); [done|done| | |].
    { intros Hv1. rewrite Hv1 in Hmode. symmetry in Hmode.
      apply orb_false_iff in Hmode as [_ Hlt].
      apply Nat.ltb_ge in Hlt. lia. }
    { destruct (Nat.ltb_spec STATIC_AMOUNT (size_ o + size_ o)) as [Hlt|Hge].
      - specialize (Hcap1 (or_introl Hlt)). lia.
      - destruct (is_array o) eqn:Ha.
        + specialize (Hcap1 (or_intror eq_refl)). lia.
        + destruct Hsafe as [?|[?|?]]; [done|lia|lia]. }
    exists Y', tr'. split_and!; [done..|].
    rewrite (wf_size Y'), Hc', length_app by done. lia.
Qed.

End Self_append.

(** ** Concrete runs of the properties above *)

Lemma element_access_in_range_witness :
  let s : machine (SmallVector Z 8) := Machine (inline_of [1; 2; 3]%Z) [] in
  wf (obj s) ∧ 0 < size_ (obj s) ∧
  ∃ x y, head (contents (obj s)) = Some x ∧
         last (contents (obj s)) = Some y ∧
         front s = Done x s ∧ back s = Done y s.
Proof.
  assert (Hwf : wf (inline_of [1; 2; 3]%Z : SmallVector Z 8)) by reflexivity.
  assert (Hpos : 0 < 3) by lia.
  split; [exact Hwf|]. split; [exact Hpos|].
  exact (proj1 (proj2 (element_access_in_range
                         (Machine (inline_of [1; 2; 3]%Z) []) Hwf)) Hpos).
Defined.

Lemma insert_places_value_witness :
  let o : SmallVector Z 8 := inline_of [0; 1; 2; 3; 4]%Z in
  wf o ∧ 1 ≤ size_ o ∧ referent o (Element 3) = Some 3%Z ∧
  ∃ o' evs,
    insert_copy 1 (Element 3) (Machine o [])
    = Done 1 (Machine o' ([] ++ evs)) ∧
    wf o' ∧
    contents o' = take 1 (contents o) ++ 3%Z :: drop 1 (contents o) ∧
    size_ o' = size_ o + 1 ∧
    is_array o' = is_array o && (size_ o <? 8) ∧
    constructions evs = destructor_count evs + 1 ∧
    ∀ tr', at_ 1 (Machine o' tr') = Done 3%Z (Machine o' tr').
Proof.
  assert (Hwf : wf (inline_of [0; 1; 2; 3; 4]%Z : SmallVector Z 8))
    by reflexivity.
  assert (Hidx : 1 ≤ 5) by lia.
  assert (Href : referent (inline_of [0; 1; 2; 3; 4]%Z : SmallVector Z 8)
                   (Element 3) = Some 3%Z) by reflexivity.
  pose proof (insert_places_value (STATIC_AMOUNT:=8) 1 3%Z
                (inline_of [0; 1; 2; 3; 4]%Z) [] Hwf Hidx) as Hplaced.
  split; [exact Hwf|]. split; [exact Hidx|]. split; [exact Href|].
  exact (proj2 (proj2 Hplaced) (Element 3) Href).
Defined.

Lemma erase_removes_element_witness :
  let o : SmallVector unit 16 := inline_of [(); (); (); ()] in
  wf o ∧ 0 < size_ o ∧
  ∃ o' evs,
    erase 0 (Machine o []) = Done 0 (Machine o' ([] ++ evs)) ∧
    wf o' ∧
    contents o' = take 0 (contents o) ++ drop 1 (contents o) ∧
    size_ o' = size_ o - 1 ∧
    contents o' !! 0 = contents o !! 1 ∧
    is_vector o' = is_vector o ∧ capacity o' = capacity o ∧
    destructor_count evs = constructions evs + 1 ∧
    (is_array o = true → destructor_count evs = size_ o - 0).
Proof.
  assert (Hwf : wf (inline_of [(); (); (); ()] : SmallVector unit 16))
    by reflexivity.
  assert (Hidx : 0 < 4) by lia.
  split; [exact Hwf|]. split; [exact Hidx|].
  exact (erase_removes_element 0 (inline_of [(); (); (); ()]) [] Hwf Hidx).
Defined.

Lemma erase_range_spilled_witness :
  let o : SmallVector Z 2 := spilled_of [2; 3; 4; 5; 6; 7; 8]%Z 16 in
  wf o ∧ 1 < 3 ∧ 3 ≤ size_ o ∧
  ∃ it o' evs,
    erase_range 1 3 (Machine o []) = Done it (Machine o' ([] ++ evs)) ∧
    wf o' ∧
    contents o' = take 1 (contents o) ++ drop 3 (contents o) ∧
    is_vector o' = is_vector o ∧ capacity o' = capacity o ∧
    destructor_count evs = constructions evs + (3 - 1) ∧
    (is_array o = true → destructor_count evs = size_ o - 1) ∧
    (is_vector o = true →
       it = 1 ∧ constructions evs = 0 ∧
       contents o' !! it = contents o !! 3).
Proof.
  assert (Hwf : wf (spilled_of [2; 3; 4; 5; 6; 7; 8]%Z 16 : SmallVector Z 2))
    by reflexivity.
  assert (Hfl : 1 < 3) by lia.
  assert (Hll : 3 ≤ 7) by lia.
  split; [exact Hwf|]. split; [exact Hfl|]. split; [exact Hll|].
  exact (erase_range_spilled 1 3 (spilled_of [2; 3; 4; 5; 6; 7; 8]%Z 16) []
           Hwf Hfl Hll).
Defined.

Lemma pop_back_removes_last_witness :
  let o : SmallVector Z 8 := inline_of [1; 2; 3; 4; 5]%Z in
  wf o ∧ 0 < size_ o ∧
  ∃ o' evs,
    pop_back (Machine o []) = Done tt (Machine o' ([] ++ evs)) ∧
    wf o' ∧ contents o' = removelast (contents o) ∧
    size_ o' = size_ o - 1 ∧
    is_vector o' = is_vector o ∧ capacity o' = capacity o ∧
    constructions evs = 0 ∧ destructor_count evs = 1.
Proof.
  assert (Hwf : wf (inline_of [1; 2; 3; 4; 5]%Z : SmallVector Z 8))
    by reflexivity.
  assert (Hpos : 0 < 5) by lia.
  split; [exact Hwf|]. split; [exact Hpos|].
  exact (pop_back_removes_last (inline_of [1; 2; 3; 4; 5]%Z) [] Hwf Hpos).
Defined.

Lemma clear_empties_witness :
  let o : SmallVector Z 2 := spilled_of [1; 2; 3]%Z 4 in
  wf o ∧
  ∃ o' evs,
    clear (Machine o []) = Done tt (Machine o' ([] ++ evs)) ∧
    wf o' ∧ contents o' = [] ∧ size o' = 0 ∧ empty o' = true ∧
    is_vector o' = is_vector o ∧ capacity o' = capacity o ∧
    constructions evs = 0 ∧ destructor_count evs = size_ o ∧
    (∀ tr', clear (Machine o' tr') = Done tt (Machine o' tr')) ∧
    (∀ i tr', at_ i (Machine o' tr') = Throw out_of_range (Machine o' tr')).
Proof.
  assert (Hwf : wf (spilled_of [1; 2; 3]%Z 4 : SmallVector Z 2))
    by reflexivity.
  split; [exact Hwf|].
  exact (clear_empties (spilled_of [1; 2; 3]%Z 4) [] Hwf).
Defined.

Lemma reserve_ensures_capacity_witness :
  let o : SmallVector Z 8 := inline_of [1; 2; 3]%Z in
  wf o ∧ (N.of_nat 20 ≤ vector_max_size (T:=Z))%N ∧
  ∃ o' evs,
    reserve 20 (Machine o []) = Done tt (Machine o' ([] ++ evs)) ∧
    wf o' ∧ contents o' = contents o ∧
    is_vector o' = is_vector o || (8 <? 20) ∧
    capacity o ≤ capacity o' ∧
    (8 < 20 ∨ is_array o = true → 20 ≤ capacity o') ∧
    constructions evs = destructor_count evs ∧
    (20 ≤ capacity o ∨ 20 ≤ 8 → o' = o ∧ evs = []).
Proof.
  assert (Hwf : wf (inline_of [1; 2; 3]%Z : SmallVector Z 8)) by reflexivity.
  assert (Hmax : (N.of_nat 20 ≤ vector_max_size (T:=Z))%N)
    by (vm_compute; discriminate).
  pose proof (reserve_ensures_capacity (STATIC_AMOUNT:=8) 20
                (inline_of [1; 2; 3]%Z) [] Hwf) as [Hok _].
  split; [exact Hwf|]. split; [exact Hmax|]. exact (Hok Hmax).
Defined.

(** [reserve(n)] with [n] at most the inline capacity returns at once, also
    on a spilled container whose capacity is below [n]: after nine pushes,
    the erasure of six elements and [shrink_to_fit()] the capacity is 3,
    and [reserve(5)] leaves it there. *)
Lemma reserve_below_static_amount_ignored :
  ∃ s : machine (SmallVector Z 8),
    run (copy_back [0; 1; 2; 3; 4; 5; 6; 7; 8]%Z ;;
         erase_range 3 9 ;; shrink_to_fit ;; reserve 5) fresh
    = Done tt s ∧
    is_vector (obj s) = true ∧ size (obj s) = 3 ∧ capacity (obj s) = 3.
Proof. eexists. split; [vm_compute; reflexivity|]. by vm_compute. Qed.

Lemma shrink_to_fit_keeps_elements_witness :
  let o : SmallVector Z 2 := spilled_of [1; 2; 3]%Z 8 in
  wf o ∧
  ∃ o' evs,
    shrink_to_fit (Machine o []) = Done tt (Machine o' ([] ++ evs)) ∧
    wf o' ∧ contents o' = contents o ∧ is_vector o' = is_vector o ∧
    size_ o' ≤ capacity o' ∧ capacity o' ≤ capacity o ∧
    constructions evs = destructor_count evs ∧
    (is_array o = true → o' = o ∧ evs = []).
Proof.
  assert (Hwf : wf (spilled_of [1; 2; 3]%Z 8 : SmallVector Z 2))
    by reflexivity.
  split; [exact Hwf|].
  exact (shrink_to_fit_keeps_elements (spilled_of [1; 2; 3]%Z 8) [] Hwf).
Defined.

Lemma push_back_appends_witness :
  let o : SmallVector Z 2 := inline_of [1; 2]%Z in
  In (push_back (T:=Z) (STATIC_AMOUNT:=2))
    [push_back; push_back_move; emplace_back] ∧
  wf o ∧
  ∃ o' evs,
    push_back (Outside 3%Z) (Machine o [])
    = Done tt (Machine o' ([] ++ evs)) ∧
    wf o' ∧ contents o' = contents o ++ [3%Z] ∧
    size_ o' = size_ o + 1 ∧
    is_array o' = is_array o && (size_ o <? 2) ∧
    constructions evs = destructor_count evs + 1 ∧
    (size_ o < capacity o →
       capacity o' = capacity o ∧
       constructions evs = 1 ∧ destructor_count evs = 0) ∧
    ∀ tr', back (Machine o' tr') = Done 3%Z (Machine o' tr').
Proof.
  assert (Hop : In (push_back (T:=Z) (STATIC_AMOUNT:=2))
                  [push_back; push_back_move; emplace_back])
    by (left; reflexivity).
  assert (Hwf : wf (inline_of [1; 2]%Z : SmallVector Z 2)) by reflexivity.
  pose proof (push_back_appends (STATIC_AMOUNT:=2) push_back 3%Z
                (inline_of [1; 2]%Z) [] Hop Hwf) as Hpush.
  split; [exact Hop|]. split; [exact Hwf|]. exact Hpush.
Defined.

Lemma pushes_within_capacity_witness :
  let o : SmallVector Z 2 := inline_of [1]%Z in
  let vals := [(ByCopy Caller, 2%Z); (FromArgs, 3%Z); (ByMove Caller, 4%Z)] in
  wf o ∧ size_ o + length vals ≤ 4 ∧ (2 < 4 ∨ is_array o = true) ∧
  (N.of_nat 4 ≤ vector_max_size (T:=Z))%N ∧
  ∃ o1 evs1 o2 evs2,
    reserve 4 (Machine o []) = Done tt (Machine o1 ([] ++ evs1)) ∧
    pushes vals (Machine o1 ([] ++ evs1))
    = Done tt (Machine o2 (([] ++ evs1) ++ evs2)) ∧
    wf o2 ∧ contents o2 = contents o ++ vals.*2 ∧
    capacity o2 = capacity o1 ∧ is_vector o2 = is_vector o1 ∧
    constructions evs2 = length vals ∧ destructor_count evs2 = 0.
Proof.
  assert (Hwf : wf (inline_of [1]%Z : SmallVector Z 2)) by reflexivity.
  assert (Hn : 1 + 3 ≤ 4) by lia.
  assert (Hmode : 2 < 4 ∨ is_array (inline_of [1]%Z : SmallVector Z 2) = true)
    by (left; lia).
  assert (Hmax : (N.of_nat 4 ≤ vector_max_size (T:=Z))%N)
    by (vm_compute; discriminate).
  pose proof (pushes_within_capacity (STATIC_AMOUNT:=2)
                [(ByCopy Caller, 2%Z); (FromArgs, 3%Z); (ByMove Caller, 4%Z)]
                4 (inline_of [1]%Z) [] Hwf Hn Hmode) as [Hok _].
  split; [exact Hwf|]. split; [exact Hn|]. split; [exact Hmode|].
  split; [exact Hmax|]. exact (Hok Hmax).
Defined.

Lemma push_pop_round_trip_witness :
  let o : SmallVector Z 2 := inline_of [1; 2]%Z in
  wf o ∧
  ∃ o' evs,
    (push_back_with (ByCopy Caller) 3%Z ;; pop_back) (Machine o [])
    = Done tt (Machine o' ([] ++ evs)) ∧
    wf o' ∧ contents o' = contents o ∧ size_ o' = size_ o ∧
    is_array o' = is_array o && (size_ o <? 2) ∧
    constructions evs = destructor_count evs.
Proof.
  assert (Hwf : wf (inline_of [1; 2]%Z : SmallVector Z 2)) by reflexivity.
  split; [exact Hwf|].
  exact (push_pop_round_trip (ByCopy Caller) 3%Z (inline_of [1; 2]%Z) [] Hwf).
Defined.

Lemma insert_erase_round_trip_witness :
  let o : SmallVector Z 8 := inline_of [0; 1; 2; 3; 4]%Z in
  wf o ∧ 2 ≤ size_ o ∧
  ∃ o' evs,
    (let* it := insert_with (ByMove Caller) 2 100%Z in erase it)
      (Machine o [])
    = Done 2 (Machine o' ([] ++ evs)) ∧
    wf o' ∧ contents o' = contents o ∧ size_ o' = size_ o ∧
    is_array o' = is_array o && (size_ o <? 8) ∧
    constructions evs = destructor_count evs.
Proof.
  assert (Hwf : wf (inline_of [0; 1; 2; 3; 4]%Z : SmallVector Z 8))
    by reflexivity.
  assert (Hidx : 2 ≤ 5) by lia.
  split; [exact Hwf|]. split; [exact Hidx|].
  exact (insert_erase_round_trip (ByMove Caller) 2 100%Z
           (inline_of [0; 1; 2; 3; 4]%Z) [] Hwf Hidx).
Defined.

Lemma resize_sets_length_witness :
  let o : SmallVector Z 8 := inline_of [1; 2; 3; 4; 5]%Z in
  wf o ∧ ((N.of_nat 10 ≤ max_size (T:=Z))%N ∨ 10 = size_ o) ∧
  ((N.of_nat 10 ≤ vector_max_size (T:=Z))%N ∨ 10 ≤ size_ o) ∧
  (∃ o' evs,
     resize 10 (Machine o []) = Done tt (Machine o' ([] ++ evs)) ∧ wf o' ∧
     contents o' = take 10 (contents o) ++ replicate (10 - size_ o) 0%Z ∧
     size_ o' = 10 ∧
     is_vector o' = is_vector o || (8 <? 10) ∧
     constructions evs + size_ o = destructor_count evs + 10) ∧
  (∃ o' evs,
     resize_value 10 (Outside 7%Z) (Machine o [])
     = Done tt (Machine o' ([] ++ evs)) ∧
     wf o' ∧
     contents o' = take 10 (contents o) ++ replicate (10 - size_ o) 7%Z ∧
     size_ o' = 10 ∧
     is_vector o' = is_vector o || (8 <? 10) ∧
     constructions evs + size_ o = destructor_count evs + 10).
Proof.
  assert (Hwf : wf (inline_of [1; 2; 3; 4; 5]%Z : SmallVector Z 8))
    by reflexivity.
  assert (Hmax : (N.of_nat 10 ≤ max_size (T:=Z))%N ∨
                 10 = size_ (inline_of [1; 2; 3; 4; 5]%Z : SmallVector Z 8))
    by (left; vm_compute; discriminate).
  assert (Hvmax : (N.of_nat 10 ≤ vector_max_size (T:=Z))%N ∨
                  10 ≤ size_ (inline_of [1; 2; 3; 4; 5]%Z : SmallVector Z 8))
    by (left; vm_compute; discriminate).
  pose proof (resize_sets_length (STATIC_AMOUNT:=8) 10 7%Z
                (inline_of [1; 2; 3; 4; 5]%Z) [] Hwf Hmax Hvmax) as Hres.
  split; [exact Hwf|]. split; [exact Hmax|]. split; [exact Hvmax|].
  exact Hres.
Defined.

Lemma resize_length_error_witness :
  let o : SmallVector Z 8 := inline_of [1; 2; 3]%Z in
  wf o ∧ 200 ≠ size_ o ∧ (max_size (H:=signed_char_elem) < N.of_nat 200)%N ∧
  resize (H:=signed_char_elem) 200 (Machine o [])
  = Throw length_error (Machine o []) ∧
  resize_value (H:=signed_char_elem) 200 (Outside 7%Z) (Machine o [])
  = Throw length_error (Machine o []).
Proof.
  assert (Hwf : wf (inline_of [1; 2; 3]%Z : SmallVector Z 8)) by reflexivity.
  assert (Hne : 200 ≠ 3) by lia.
  assert (Hmax : (max_size (H:=signed_char_elem) < N.of_nat 200)%N)
    by (vm_compute; reflexivity).
  pose proof (resize_length_error (H:=signed_char_elem) (STATIC_AMOUNT:=8)
                (inline_of [1; 2; 3]%Z) [] 200 7%Z Hwf) as Hres.
  cbv zeta in Hres.
  destruct Hres as [(_ & _ & Hthrow & _) (_ & _ & Hthrow_value & _)].
  split; [exact Hwf|]. split; [exact Hne|]. split; [exact Hmax|].
  split; [exact (Hthrow Hne Hmax)|exact (Hthrow_value Hne Hmax)].
Defined.

Lemma constructors_build_contents_witness :
  let init := [1; 2; 3]%Z in
  InlineFits Z 2 ∧ (N.of_nat (length init) ≤ vector_max_size (T:=Z))%N ∧
  ∃ (o : SmallVector Z 2) evs,
    run (SmallVector_list init) fresh = Done tt (Machine o evs) ∧ wf o ∧
    contents o = init ∧ size o = length init ∧
    is_array o = bool_decide (length init ≤ 2) ∧
    capacity o = 2 `max` length init ∧
    Forall2 (λ e _, ∃ dst, e = construct_event (ByCopy Caller) dst) evs init.
Proof.
  assert (Hfits : InlineFits Z 2) by (vm_compute; reflexivity).
  assert (Hmax : (N.of_nat 3 ≤ vector_max_size (T:=Z))%N)
    by (vm_compute; discriminate).
  pose proof (@constructors_build_contents Z int_elem 2 Hfits) as Hbuilt.
  cbv zeta in Hbuilt.
  destruct Hbuilt as (_ & _ & _ & Hlist).
  destruct (Hlist [1; 2; 3]%Z) as [Hok _].
  split; [exact Hfits|]. split; [exact Hmax|]. exact (Hok Hmax).
Defined.

Lemma swap_exchanges_witness :
  let a : SmallVector Z 2 := spilled_of [1; 2; 3]%Z 4 in
  let b : SmallVector Z 2 := inline_of [9]%Z in
  let w : gmap nat (SmallVector Z 2) := <[0 := a]> {[ 1 := b ]} in
  w !! 0 = Some a ∧ w !! 1 = Some b ∧
  swap 0 1 (Machine w []) = Done tt (Machine (<[1 := a]> (<[0 := b]> w)) []) ∧
  (swap 0 1 ;; swap 0 1) (Machine w []) = Done tt (Machine w []) ∧
  (0 = 1 → swap 0 1 (Machine w []) = Done tt (Machine w [])).
Proof.
  split; [reflexivity|]. split; [reflexivity|].
  exact (swap_exchanges 0 1
           (<[0 := spilled_of [1; 2; 3]%Z 4]> {[ 1 := inline_of [9]%Z ]}) []
           (spilled_of [1; 2; 3]%Z 4) (inline_of [9]%Z) eq_refl eq_refl).
Defined.

Lemma copy_assign_copies_witness :
  let a : SmallVector Z 8 := inline_of [1; 2; 3]%Z in
  let b : SmallVector Z 8 := inline_of [7; 8]%Z in
  let w : gmap nat (SmallVector Z 8) := <[0 := a]> {[ 1 := b ]} in
  w !! 0 = Some a ∧ w !! 1 = Some b ∧ wf b ∧
  ∃ a' evs,
    copy_assign 0 1 (Machine w [])
    = Done tt (Machine (<[0 := a']> w) ([] ++ evs)) ∧
    wf a' ∧ contents a' = contents b ∧ size_ a' = size_ b ∧
    is_vector a' = is_vector b ∧
    (is_array b = true → constructions evs = 0) ∧
    (is_array a = true → destructor_count evs = 0) ∧
    (is_array a = true → is_array b = true → evs = []) ∧
    (0 = 1 → a' = a ∧ evs = []).
Proof.
  assert (Hwf : wf (inline_of [7; 8]%Z : SmallVector Z 8)) by reflexivity.
  split; [reflexivity|]. split; [reflexivity|]. split; [exact Hwf|].
  exact (copy_assign_copies 0 1
           (<[0 := inline_of [1; 2; 3]%Z]> {[ 1 := inline_of [7; 8]%Z ]}) []
           (inline_of [1; 2; 3]%Z) (inline_of [7; 8]%Z)
           eq_refl eq_refl Hwf).
Defined.

Lemma modifiers_keep_invariant_witness :
  let o : SmallVector Z 2 := inline_of [1; 2]%Z in
  let w : gmap nat (SmallVector Z 2) := {[ 0 := o ]} in
  let ms := [Insert 1 (Outside 5%Z); Erase 0; Append_move 0; Resize 3;
             Pop_back; Clear] in
  (∀ k x, w !! k = Some x → wf x) ∧
  admissible 0 ms (Machine w []) = true ∧
  match calls 0 ms (Machine w []) with
  | Done _ s' | Throw _ s' =>
      dom (obj s') = dom w ∧
      ∀ k x, obj s' !! k = Some x →
        wf x ∧ size x = length (contents x) ∧ size x ≤ capacity x
  | Fault _ => False
  end.
Proof.
  intros o w ms.
  assert (Hw : ∀ k x, w !! k = Some x → wf x).
  { intros k x [_ <-]%lookup_singleton_Some. reflexivity. }
  assert (Hadm : admissible 0 ms (Machine w []) = true)
    by (vm_compute; reflexivity).
  pose proof (modifiers_keep_invariant 0 ms w [] Hw Hadm) as Hcalls.
  split; [exact Hw|]. split; [exact Hadm|]. exact Hcalls.
Defined.

Lemma lifetimes_balance_witness :
  let Y : SmallVector unit 2 := inline_of [(); ()] in
  let X : SmallVector unit 2 := spilled_of [(); (); ()] 4 in
  let w : gmap nat (SmallVector unit 2) := <[0 := Y]> {[ 1 := X ]} in
  let ms := [Push_back (Outside ()); Append 1; Erase_range 1 3;
             Shrink_to_fit] in
  (∀ k x, w !! k = Some x → wf x) ∧
  admissible 0 ms (Machine w []) = true ∧
  match calls 0 ms (Machine w []) with
  | Done _ s' | Throw _ s' =>
      ∃ evs, trace s' = [] ++ evs ∧
             constructions evs + live w
             = destructor_count evs + live (obj s')
  | Fault _ => False
  end.
Proof.
  intros Y X w ms.
  assert (Hw : ∀ k x, w !! k = Some x → wf x).
  { intros k x [[_ <-]|[_ [_ <-]%lookup_singleton_Some]]%lookup_insert_Some;
      reflexivity. }
  assert (Hadm : admissible 0 ms (Machine w []) = true)
    by (vm_compute; reflexivity).
  pose proof (lifetimes_balance 0 ms w [] Hw Hadm) as Hcalls.
  split; [exact Hw|]. split; [exact Hadm|]. exact Hcalls.
Defined.

Lemma no_leak_over_lifetime_witness :
  let init := [(); (); ()] in
  let ms : list (mutator unit) :=
    [Emplace_back (Outside ()); Insert_copy 2 (Element 0); Reserve 9;
     Erase 1; Resize 2] in
  match at_obj 0 (SmallVector_list (STATIC_AMOUNT:=4) init)
          (Machine {[ 0 := fresh ]} []) with
  | Done _ s => admissible 0 ms s
  | _ => false
  end = true ∧
  match (at_obj 0 (SmallVector_list (STATIC_AMOUNT:=4) init) ;; calls 0 ms)
          (Machine {[ 0 := fresh ]} []) with
  | Done _ s | Throw _ s =>
      match at_obj 0 destructor s with
      | Done _ s' =>
          obj s' = {[ 0 := fresh ]} ∧
          constructions (trace s') = destructor_count (trace s')
      | _ => False
      end
  | Fault _ => False
  end.
Proof.
  intros init ms.
  assert (Hadm :
    match at_obj 0 (SmallVector_list (STATIC_AMOUNT:=4) init)
            (Machine {[ 0 := fresh ]} []) with
    | Done _ s => admissible 0 ms s
    | _ => false
    end = true) by (vm_compute; reflexivity).
  pose proof (no_leak_over_lifetime (STATIC_AMOUNT:=4) 0 init ms Hadm)
    as Hlife.
  split; [exact Hadm|]. exact Hlife.
Defined.

Lemma append_reserves_then_pushes_witness :
  let Y : SmallVector Z 8 := inline_of [1; 2; 3; 4; 5; 6; 7]%Z in
  let X : SmallVector Z 8 := inline_of [10; 11; 12; 13; 14]%Z in
  let w : gmap nat (SmallVector Z 8) := <[0 := Y]> {[ 1 := X ]} in
  0 ≠ 1 ∧ w !! 0 = Some Y ∧ w !! 1 = Some X ∧ wf Y ∧ wf X ∧ 0 < size_ X ∧
  (N.of_nat (size_ Y + size_ X) ≤ vector_max_size (T:=Z))%N ∧
  ∃ Y1 evs1 Y2 evs2 Y3 evs3 X',
    reserve (size_ Y + size_ X) (Machine Y [])
    = Done tt (Machine Y1 ([] ++ evs1)) ∧
    append 0 1 (Machine w [])
    = Done tt (Machine (<[0 := Y2]> w) ([] ++ evs1 ++ evs2)) ∧
    append_move 0 1 (Machine w [])
    = Done tt (Machine (<[1 := X']> (<[0 := Y3]> w)) ([] ++ evs1 ++ evs3)) ∧
    is_vector Y2 = is_vector Y || (8 <? size_ Y + size_ X) ∧
    is_vector Y3 = is_vector Y || (8 <? size_ Y + size_ X) ∧
    (8 < size_ Y + size_ X ∨ is_array Y = true →
       capacity Y2 = capacity Y1 ∧ capacity Y3 = capacity Y1 ∧
       constructions evs2 = size_ X ∧ destructor_count evs2 = 0) ∧
    size_ X' = 0 ∧ is_vector X' = is_vector X ∧
    capacity X' = capacity X.
Proof.
  assert (Hne : 0 ≠ 1) by lia.
  assert (HY : wf (inline_of [1; 2; 3; 4; 5; 6; 7]%Z : SmallVector Z 8))
    by reflexivity.
  assert (HX : wf (inline_of [10; 11; 12; 13; 14]%Z : SmallVector Z 8))
    by reflexivity.
  assert (Hpos : 0 < 5) by lia.
  assert (Hmax : (N.of_nat (7 + 5) ≤ vector_max_size (T:=Z))%N)
    by (vm_compute; discriminate).
  pose proof (append_reserves_then_pushes (STATIC_AMOUNT:=8) 0 1
    (<[0 := inline_of [1; 2; 3; 4; 5; 6; 7]%Z]>
       {[ 1 := inline_of [10; 11; 12; 13; 14]%Z ]})
    [] (inline_of [1; 2; 3; 4; 5; 6; 7]%Z)
    (inline_of [10; 11; 12; 13; 14]%Z)
    Hne eq_refl eq_refl HY HX) as (_ & _ & Hok).
  split; [exact Hne|]. split; [reflexivity|]. split; [reflexivity|].
  split; [exact HY|]. split; [exact HX|]. split; [exact Hpos|].
  split; [exact Hmax|]. exact (Hok Hpos Hmax).
Defined.

Lemma operator_eq_same_contents_witness :
  let a : SmallVector Z 8 := inline_of [1; 2; 3]%Z in
  let b : SmallVector Z 2 := spilled_of [1; 2; 3]%Z 4 in
  (∀ x y : Z, T_eqb x y = true ↔ x = y) ∧ wf a ∧ wf b ∧
  (operator_eq a b = Some true ↔ contents a = contents b) ∧
  (operator_ne a b = Some true ↔ contents a ≠ contents b) ∧
  operator_eq a a = Some true ∧
  operator_eq a b = operator_eq b a.
Proof.
  assert (Heqb : ∀ x y : Z, T_eqb x y = true ↔ x = y)
    by (intros x y; apply Z.eqb_eq).
  assert (Ha : wf (inline_of [1; 2; 3]%Z : SmallVector Z 8)) by reflexivity.
  assert (Hb : wf (spilled_of [1; 2; 3]%Z 4 : SmallVector Z 2))
    by reflexivity.
  split; [exact Heqb|]. split; [exact Ha|]. split; [exact Hb|].
  exact (operator_eq_same_contents (inline_of [1; 2; 3]%Z)
           (spilled_of [1; 2; 3]%Z 4) Heqb Ha Hb).
Defined.

Lemma calculate_static_size_bounds_witness :
  (0 < 2000 < 2 ^ 61)%Z ∧
  ∃ n, StaticSize.calculate_static_size 2000 = Some n ∧
       (1 ≤ n ≤ 64)%Z ∧
       (n * 2000 ≤ 10240 ∨ n = 1)%Z ∧
       (2000 ≤ 64 → 64 - 2000 < n * 2000 ≤ 64)%Z ∧
       (64 < 2000 → n ≤ 8)%Z.
Proof.
  assert (Hs : (0 < 2000 < 2 ^ 61)%Z) by lia.
  split; [exact Hs|].
  exact (calculate_static_size_bounds 2000 Hs).
Defined.

Lemma erase_empty_range_witness :
  let l := [(); (); ()] in
  1 ≤ length l ∧ length l ≤ 16 ∧
  ∃ evs,
    erase_range 1 1 (Machine (inline_of l : SmallVector unit 16) [])
    = Done 1
        (Machine (SV (arr_ (inline_of (take 1 l) : SmallVector unit 16))
                     None (length l))
           ([] ++ evs)) ∧
    constructions evs = length l - 1 ∧
    destructor_count evs = length l - 1 ∧
    ∀ i tr', 1 ≤ i →
      operator_index i
        (Machine (SV (arr_ (inline_of (take 1 l) : SmallVector unit 16))
                     None (length l) : SmallVector unit 16)
           tr')
      = Fault undefined_behaviour.
Proof.
  assert (Hidx : 1 ≤ 3) by lia.
  assert (HlN : 3 ≤ 16) by lia.
  split; [exact Hidx|]. split; [exact HlN|].
  exact (proj2 (erase_empty_range (STATIC_AMOUNT:=16) [(); (); ()] 1 []
                  Hidx) HlN).
Defined.

Lemma reserve_refused_strands_elements_witness :
  let n := N.to_nat 1152921504606846976 in
  let o : SmallVector Z 8 := inline_of [1; 2; 3]%Z in
  let o' : SmallVector Z 8 := SV (arr_ o) (Some (Vector [] 0)) (size_ o) in
  is_array o = true ∧
  (@vector_max_size Z long_long_elem < N.of_nat n)%N ∧
  size_ o < n ∧ (N.of_nat n ≤ max_size (H:=long_long_elem))%N ∧
  reserve (H:=long_long_elem) n (Machine o [])
  = Throw length_error (Machine o' []) ∧
  resize (H:=long_long_elem) n (Machine o [])
  = Throw length_error (Machine o' []) ∧
  is_vector o' = true ∧ size o' = 3 ∧ contents o' = [] ∧
  operator_index 0 (Machine o' []) = Fault undefined_behaviour ∧
  destructor (Machine o' []) = Done tt (Machine (SV (arr_ o) None 0) []).
Proof.
  intros n o o'.
  assert (Harr : is_array o = true) by reflexivity.
  assert (Hvmax : (@vector_max_size Z long_long_elem < N.of_nat n)%N).
  { unfold n. rewrite N2Nat.id. reflexivity. }
  assert (Hgrow : size_ o < n).
  { change (3 < n). unfold n. lia. }
  assert (Hmax : (N.of_nat n ≤ max_size (H:=long_long_elem))%N).
  { unfold n. rewrite N2Nat.id. discriminate. }
  pose proof (reserve_refused_strands_elements (H:=long_long_elem)
                (STATIC_AMOUNT:=8) n o [] Harr Hvmax) as Hres.
  cbv zeta in Hres.
  destruct Hres as (Hreserve & Hresize & Hv & _ & Hc & _ & Hindex & Hdtor).
  split; [exact Harr|]. split; [exact Hvmax|]. split; [exact Hgrow|].
  split; [exact Hmax|]. split; [exact Hreserve|].
  split; [exact (Hresize Hgrow Hmax)|]. split; [exact Hv|].
  split; [reflexivity|]. split; [exact Hc|].
  split; [exact (Hindex 0 [])|exact (Hdtor [])].
Defined.

Lemma push_back_own_element_witness :
  let o : SmallVector Z 2 := inline_of [1; 2]%Z in
  In (push_back (T:=Z) (STATIC_AMOUNT:=2)) [push_back; emplace_back] ∧
  wf o ∧ contents o !! 0 = Some 1%Z ∧
  is_array o = true ∧ size_ o = 2 ∧
  push_back (Element 0) (Machine o []) = Fault undefined_behaviour.
Proof.
  intros o.
  assert (Hop : In (push_back (T:=Z) (STATIC_AMOUNT:=2))
                  [push_back; emplace_back]) by (left; reflexivity).
  assert (Hwf : wf o) by reflexivity.
  assert (Hx : contents o !! 0 = Some 1%Z) by reflexivity.
  assert (Harr : is_array o = true) by reflexivity.
  assert (Hfull : size_ o = 2) by reflexivity.
  pose proof (push_back_own_element (STATIC_AMOUNT:=2) push_back 0 1%Z o []
                Hop Hwf Hx) as [_ Hfault].
  split; [exact Hop|]. split; [exact Hwf|]. split; [exact Hx|].
  split; [exact Harr|]. split; [exact Hfull|]. exact (Hfault Harr Hfull).
Defined.

Lemma emplace_own_element_witness :
  let l := [1; 2; 3]%Z in
  0 ≤ length l ∧ 2 < length l ∧ length l < 8 ∧ 2 ≠ 0 ∧
  ∃ evs,
    emplace 0 (Element 2) (Machine (inline_of l : SmallVector Z 8) [])
    = Done 0 (Machine (inline_of [2; 1; 2; 3]%Z) ([] ++ evs)) ∧
    constructions evs = destructor_count evs + 1.
Proof.
  intros l.
  assert (Hidx : 0 ≤ length l) by (cbv; lia).
  assert (Hj : 2 < length l) by (cbv; lia).
  assert (Hroom : length l < 8) by (cbv; lia).
  assert (Hne : 2 ≠ 0) by lia.
  pose proof (emplace_own_element (T:=Z) (STATIC_AMOUNT:=8) 0 2 l []
                Hidx Hj Hroom) as [_ Hplaced].
  destruct (Hplaced Hne) as (x & evs & Hx & E & Hn).
  vm_compute in Hx. injection Hx as <-.
  split; [exact Hidx|]. split; [exact Hj|]. split; [exact Hroom|].
  split; [exact Hne|]. exists evs. split; [exact E|exact Hn].
Defined.

Lemma resize_own_element_witness :
  let o : SmallVector Z 8 := inline_of [1; 2; 3]%Z in
  wf o ∧ contents o !! 0 = Some 1%Z ∧ size_ o < 10 ∧
  (N.of_nat 10 ≤ max_size (T:=Z))%N ∧
  (N.of_nat 10 ≤ vector_max_size (T:=Z))%N ∧
  capacity o < 10 ∧ 8 < 10 ∧
  resize_value 10 (Element 0) (Machine o []) = Fault undefined_behaviour.
Proof.
  intros o.
  assert (Hwf : wf o) by reflexivity.
  assert (Hx : contents o !! 0 = Some 1%Z) by reflexivity.
  assert (Hgrow : size_ o < 10) by (cbv; lia).
  assert (Hmax : (N.of_nat 10 ≤ max_size (T:=Z))%N)
    by (vm_compute; discriminate).
  assert (Hvmax : (N.of_nat 10 ≤ vector_max_size (T:=Z))%N)
    by (vm_compute; discriminate).
  assert (Hcap : capacity o < 10) by (cbv; lia).
  assert (HN : 8 < 10) by lia.
  pose proof (resize_own_element (STATIC_AMOUNT:=8) 10 0 1%Z o []
                Hwf Hx Hgrow Hmax Hvmax) as [_ Hfault].
  split; [exact Hwf|]. split; [exact Hx|]. split; [exact Hgrow|].
  split; [exact Hmax|]. split; [exact Hvmax|]. split; [exact Hcap|].
  split; [exact HN|]. exact (Hfault Hcap HN).
Defined.

Lemma self_append_copy_witness :
  let o : SmallVector Z 8 := spilled_of [10; 11; 12; 13]%Z 5 in
  let w : gmap nat (SmallVector Z 8) := {[ 0 := o ]} in
  w !! 0 = Some o ∧ wf o ∧ 0 < size_ o ∧
  (2 * size_ o ≤ 8 ∨ (N.of_nat (2 * size_ o) ≤ vector_max_size (T:=Z))%N) ∧
  is_vector o = true ∧ 2 * size_ o ≤ 8 ∧ capacity o + 1 < 2 * size_ o ∧
  append 0 0 (Machine w []) = Fault undefined_behaviour.
Proof.
  intros o w.
  assert (Ho : w !! 0 = Some o) by reflexivity.
  assert (Hwf : wf o) by reflexivity.
  assert (Hpos : 0 < size_ o) by (cbv; lia).
  assert (Hfits : 2 * size_ o ≤ 8 ∨
                  (N.of_nat (2 * size_ o) ≤ vector_max_size (T:=Z))%N)
    by (left; cbv; lia).
  assert (Hv : is_vector o = true) by reflexivity.
  assert (HN : 2 * size_ o ≤ 8) by (cbv; lia).
  assert (Hcap : capacity o + 1 < 2 * size_ o) by (cbv; lia).
  pose proof (self_append_copy (STATIC_AMOUNT:=8) 0 w [] o
                Ho Hwf Hpos Hfits) as [Hfault _].
  split; [exact Ho|]. split; [exact Hwf|]. split; [exact Hpos|].
  split; [exact Hfits|]. split; [exact Hv|]. split; [exact HN|].
  split; [exact Hcap|]. exact (Hfault Hv HN Hcap).
Defined.
